(** * YouTube caption/comment pipeline and topic modelers

    A shallow embedding of the four scripts of the repository, each in a
    module that bears the name of the class the script defines,

      - [YouTubeCaptionUpdater.py]   (module [YouTubeCaptionUpdater])
      - [YouTubeCommentUpdater.py]   (module [YouTubeCommentExtractor])
      - [TopicModelingWithNMF.py]    (module [TopicModeling])
      - [TopicModellingWithBert.py]  (module [TopicModelingBERT])

    together with the properties of their data flow.

    The scripts share one JSON document, a dictionary nested three levels
    deep (author, playlist, video).  Python dictionaries iterate in insertion
    order, and the scripts depend on that order (the position of a caption in
    the captions list is the row index into the factorised matrix), so a
    dictionary is an association list here.

    Third-party libraries (the transcript and comment services, scikit-learn,
    NLTK, the transformer) are not part of the repository: they enter as
    section variables, and what a proof needs from them is a section
    hypothesis. *)

From Stdlib Require Import String Ascii Bool Arith ZArith QArith Lia.
From Stdlib Require Import List Permutation Sorted.
Import ListNotations.
Local Open Scope string_scope.
Local Open Scope nat_scope.
Local Open Scope list_scope.

Set Implicit Arguments.

(* ===================================================================== *)
(** * Python values *)
(* ===================================================================== *)

(** ** Strings

    A Python [str] is a [string]; the character [ascii] number [n] stands for
    the code point [n], so the model covers text in U+0000..U+00FF. *)

(** [str.isspace] restricted to that range: TAB, LF, VT, FF, CR, the four
    separators FS..US, SPACE, NEL (U+0085) and NBSP (U+00A0). *)
Definition isspace (c : ascii) : bool :=
  let n := nat_of_ascii c in
  ((9 <=? n) && (n <=? 13)) || ((28 <=? n) && (n <=? 32))
  || (n =? 133) || (n =? 160).

(** [s.lstrip()] *)
Fixpoint lstrip (s : string) : string :=
  match s with
  | EmptyString => EmptyString
  | String c s' => if isspace c then lstrip s' else s
  end.

(** [s.rstrip()]: a character is dropped when it is white space and
    everything after it has been dropped. *)
Fixpoint rstrip (s : string) : string :=
  match s with
  | EmptyString => EmptyString
  | String c s' =>
      match rstrip s' with
      | EmptyString => if isspace c then EmptyString else String c EmptyString
      | r => String c r
      end
  end.

(** [s.strip()] *)
Definition strip (s : string) : string := rstrip (lstrip s).

(** Truth value of a string: [if s:] holds when [s] is not empty. *)
Definition truthy (s : string) : bool :=
  match s with EmptyString => false | _ => true end.

(** [sep.join(l)] *)
Definition join (sep : string) (l : list string) : string :=
  String.concat sep l.

(** ** Lists and arrays *)

(** [l[-n:]], the last [n] elements (all of them when [l] is shorter). *)
Definition last_n {A} (n : nat) (l : list A) : list A := skipn (length l - n) l.

(** [l[:n]] *)
Definition first_n {A} (n : nat) (l : list A) : list A := firstn n l.

(** Indexing that raises [IndexError] out of range. *)
Definition index {A} (l : list A) (i : nat) : option A := nth_error l i.

(** A computation in [option] is one that may raise. *)
Definition obind {A B} (x : option A) (f : A -> option B) : option B :=
  match x with Some a => f a | None => None end.

Declare Scope option_scope.
Notation "x <- c1 ;; c2" := (obind c1 (fun x => c2))
  (at level 61, c1 at next level, right associativity) : option_scope.
Notation "' p <- c1 ;; c2" := (obind c1 (fun x => let p := x in c2))
  (at level 61, p pattern, c1 at next level, right associativity)
  : option_scope.
Delimit Scope option_scope with opt.
Local Open Scope option_scope.

(** A list comprehension whose body may raise. *)
Fixpoint mapM {A B} (f : A -> option B) (l : list A) : option (list B) :=
  match l with
  | [] => Some []
  | a :: l' => b <- f a ;; bs <- mapM f l' ;; Some (b :: bs)
  end.

(** [enumerate(l)] *)
Definition enumerate {A} (l : list A) : list (nat * A) :=
  combine (seq 0 (length l)) l.

Section Order.
Context {A : Type} (leb : A -> A -> bool).

(** ** [numpy.argsort]

    The indices that sort the array in ascending order.  The model is a
    stable insertion sort; numpy promises no particular order among equal
    elements, and no statement below depends on one. *)
Fixpoint insert_by (x : nat * A) (l : list (nat * A)) : list (nat * A) :=
  match l with
  | [] => [x]
  | y :: l' => if leb (snd x) (snd y) then x :: l else y :: insert_by x l'
  end.

Fixpoint sort_by (l : list (nat * A)) : list (nat * A) :=
  match l with
  | [] => []
  | x :: l' => insert_by x (sort_by l')
  end.

Definition argsort (a : list A) : list nat := map fst (sort_by (enumerate a)).

(** ** [numpy.argmax]

    The index of the first occurrence of the maximum; [ValueError] on an
    empty array. *)
Fixpoint argmax_from (best_i : nat) (best : A) (i : nat) (l : list A) : nat :=
  match l with
  | [] => best_i
  | x :: l' =>
      if leb x best then argmax_from best_i best (S i) l'
      else argmax_from i x (S i) l'
  end.

Definition argmax (a : list A) : option nat :=
  match a with
  | [] => None
  | x :: l => Some (argmax_from 0 x 1 l)
  end.
End Order.

(** Floating-point weights are compared only; a finite float is a rational,
    and the order on floats is the order on the rationals they denote. *)
Definition weight := Q.
Definition weight_leb : weight -> weight -> bool := Qle_bool.

(* ===================================================================== *)
(** * The shared store *)
(* ===================================================================== *)

(** ** Dictionaries *)

Definition dict (V : Type) := list (string * V).

(** [d.keys()], [d.items()] *)
Definition keys {V} (d : dict V) : list string := map fst d.
Definition items {V} (d : dict V) : list (string * V) := d.

(** [d[k]], raising [KeyError] when [k] is absent. *)
Fixpoint dict_get {V} (d : dict V) (k : string) : option V :=
  match d with
  | [] => None
  | (k', v) :: d' => if String.eqb k k' then Some v else dict_get d' k
  end.

(** [d[k] = v]: an existing key keeps its place, a new key goes last. *)
Fixpoint dict_set {V} (d : dict V) (k : string) (v : V) : dict V :=
  match d with
  | [] => [(k, v)]
  | (k', v') :: d' =>
      if String.eqb k k' then (k, v) :: d' else (k', v') :: dict_set d' k v
  end.

(** The keys of a Python dictionary are pairwise distinct. *)
Definition dict_wf {V} (d : dict V) : Prop := NoDup (keys d).

(** ** Video records *)

Record comment := mk_comment { Timestamp : string; Comment : string }.

(** A video record is a dictionary with the optional keys ["captions"],
    ["comments"] and ["topic"]. *)
Record VideoRecord := mk_video {
  captions : option string;
  comments : option (list comment);
  topic : option string
}.

Definition set_captions (r : VideoRecord) (s : string) : VideoRecord :=
  {| captions := Some s; comments := comments r; topic := topic r |}.
Definition set_comments (r : VideoRecord) (c : list comment) : VideoRecord :=
  {| captions := captions r; comments := Some c; topic := topic r |}.
Definition set_topic (r : VideoRecord) (t : string) : VideoRecord :=
  {| captions := captions r; comments := comments r; topic := Some t |}.

(** [video_data.get("captions", "")] *)
Definition get_captions (r : VideoRecord) : string :=
  match captions r with Some s => s | None => "" end.

(** ** The store: author -> playlist -> video -> record *)

Definition Videos := dict VideoRecord.
Definition Playlists := dict Videos.
Definition Store := dict Playlists.

Definition video_key : Type := string * string * string.

Definition store_wf (d : Store) : Prop :=
  dict_wf d
  /\ Forall (fun ap => dict_wf (snd ap)
                       /\ Forall (fun pv => dict_wf (snd pv)) (snd ap)) d.

(** [data[author][playlist_id][video_id]] *)
Definition store_get (d : Store) (k : video_key) : option VideoRecord :=
  let '(author, playlist_id, video_id) := k in
  playlists <- dict_get d author ;;
  videos <- dict_get playlists playlist_id ;;
  dict_get videos video_id.

(** [data[author][playlist_id][video_id][field] = value], where [upd] is the
    assignment to the field.  The three subscripts raise [KeyError] when a
    key is absent; the nested dictionaries are shared objects, so the
    assignment shows in the store. *)
Definition store_update (d : Store) (k : video_key)
    (upd : VideoRecord -> VideoRecord) : option Store :=
  let '(author, playlist_id, video_id) := k in
  playlists <- dict_get d author ;;
  videos <- dict_get playlists playlist_id ;;
  r <- dict_get videos video_id ;;
  Some (dict_set d author
          (dict_set playlists playlist_id
             (dict_set videos video_id (upd r)))).

(** All videos of the store in iteration order, as the three nested [for]
    loops of every script visit them. *)
Definition store_items (d : Store) : list (video_key * VideoRecord) :=
  flat_map (fun '(author, playlists) =>
    flat_map (fun '(playlist_id, videos) =>
      map (fun '(video_id, video_data) =>
             ((author, playlist_id, video_id), video_data))
          (items videos))
      (items playlists))
    (items d).

Definition key_eqb (k k' : video_key) : bool :=
  let '(a, p, v) := k in
  let '(a', p', v') := k' in
  String.eqb a a' && String.eqb p p' && String.eqb v v'.

(* ===================================================================== *)
(** * The world outside the process *)
(* ===================================================================== *)

(** An exception, as the text that [print(f"...{e}")] shows. *)
Definition exn := string.

Inductive result (A : Type) : Type :=
| Ok (a : A)
| Err (e : exn).
Arguments Ok {A} a.
Arguments Err {A} e.

(** The lines the scripts print, one constructor per [print] statement. *)
Inductive message : Type :=
| LoadFailed (e : exn)            (* warning of [load_data] *)
| SaveFailed (e : exn)            (* warning of [save_data] *)
| CaptionFetched (video_id : string)
| CaptionFailed (video_id : string) (e : exn)
| CaptionsSaved
| ExtractingComments (video_id author playlist_id : string)
| CommentsSaved
| NoCaptionsFound                 (* "No captions found in data.json" *)
| TopicsSaved.

(** The file system, the JSON codec and the network.  [fs_write] is
    [open(path, "w")] followed by [json.dump]: it yields the file system
    afterwards and the exception, if one was raised (the overwrite is not
    atomic, so the file system may have changed even then).  [Net] is the
    state of the services the scripts send requests to. *)
Class Runtime : Type := {
  FS : Type;
  Net : Type;
  fs_read : FS -> string -> result string;
  fs_write : FS -> string -> string -> FS * option exn;
  json_load : string -> result Store;
  json_dump : Store -> string
}.

Record World `{Runtime} : Type := mk_world {
  fs : FS;
  net : Net;
  stdout : list message
}.

Section Process.
Context `{RT : Runtime}.

Definition print (w : World) (m : message) : World :=
  {| fs := fs w; net := net w; stdout := stdout w ++ [m] |}.

(** [load_data], the same in the four scripts: the parsed file, or the
    empty dictionary after a warning. *)
Definition load_data (json_file : string) (w : World) : Store * World :=
  match fs_read (fs w) json_file with
  | Ok text =>
      match json_load text with
      | Ok data => (data, w)
      | Err e => ([], print w (LoadFailed e))
      end
  | Err e => ([], print w (LoadFailed e))
  end.

(** [save_data], the same in the four scripts up to the line printed on
    success. *)
Definition save_data (saved : message) (json_file : string) (data : Store)
    (w : World) : World :=
  match fs_write (fs w) json_file (json_dump data) with
  | (fs', None) => print {| fs := fs'; net := net w; stdout := stdout w |} saved
  | (fs', Some e) =>
      print {| fs := fs'; net := net w; stdout := stdout w |} (SaveFailed e)
  end.

(** How a [run()] ends: it returns, with the store the object then holds,
    or an exception leaves it. *)
Inductive outcome : Type :=
| Returned (data : Store) (w : World)
| Raised (w : World).
End Process.

(* ===================================================================== *)
(** * TopicModelingWithNMF.py *)
(* ===================================================================== *)

Module TopicModeling.
Section WithLibraries.
Context `{RT : Runtime}.

(** [TfidfVectorizer(stop_words, max_features).fit_transform(docs)] with
    [get_feature_names_out()]: the document-term matrix and the terms;
    it raises [ValueError] on an empty vocabulary. *)
Variable TfidfVectorizer :
  string -> nat -> list string -> option (list (list weight) * list string).

(** [NMF(n_components, random_state).fit_transform(X)] with [components_]:
    the matrices [W] and [H].  With an integer [random_state] the
    factorisation is a function of its arguments. *)
Variable NMF :
  nat -> Z -> list (list weight)
  -> option (list (list weight) * list (list weight)).

Record self : Type := mk_self {
  json_file : string;
  num_topics : nat;
  data : Store
}.

Definition init (json_file : string) (num_topics : nat) (w : World)
    : self * World :=
  let (data, w') := load_data json_file w in
  ({| json_file := json_file; num_topics := num_topics; data := data |}, w').

Definition extract_captions (data : Store) : list string * list video_key :=
  fold_left
    (fun '(captions_list, video_id_map) '(key, video_data) =>
       let captions := strip (get_captions video_data) in
       if truthy captions
       then (captions_list ++ [captions], video_id_map ++ [key])
       else (captions_list, video_id_map))
    (store_items data) ([], []).

(** [" ".join([terms[i] for i in topic.argsort()[-10:]])] *)
Definition topic_keyword (terms : list string) (topic : list weight)
    : option string :=
  words <- mapM (index terms) (last_n 10 (argsort weight_leb topic)) ;;
  Some (join " " words).

Definition topic_modeling (s : self) (captions_list : list string)
    : option (list string * list (list weight)) :=
  '(X, terms) <- TfidfVectorizer "english" 1000 captions_list ;;
  '(W, H) <- NMF (num_topics s) 42%Z X ;;
  topic_keywords <- mapM (topic_keyword terms) H ;;
  Some (topic_keywords, W).

(** The loop stops at the first subscript that raises. *)
Definition assign_topics (data : Store) (video_id_map : list video_key)
    (W : list (list weight)) (topic_keywords : list string) : option Store :=
  fold_left
    (fun acc '(i, key) =>
       data <- acc ;;
       row <- index W i ;;
       best_topic <- argmax weight_leb row ;;
       keyword <- index topic_keywords best_topic ;;
       store_update data key (fun r => set_topic r keyword))
    (enumerate video_id_map) (Some data).

Definition run (s : self) (w : World) : outcome :=
  let '(captions_list, video_id_map) := extract_captions (data s) in
  match captions_list with
  | [] => Returned (data s) (print w NoCaptionsFound)
  | _ =>
      match topic_modeling s captions_list with
      | None => Raised w
      | Some (topic_keywords, W) =>
          match assign_topics (data s) video_id_map W topic_keywords with
          | None => Raised w
          | Some data' =>
              Returned data' (save_data TopicsSaved (json_file s) data' w)
          end
      end
  end.
End WithLibraries.
End TopicModeling.

(* ===================================================================== *)
(** * TopicModellingWithBert.py *)
(* ===================================================================== *)

Module TopicModelingBERT.
Section WithLibraries.
Context `{RT : Runtime}.

(** [nltk.tokenize.sent_tokenize] *)
Variable sent_tokenize : string -> list string.

(** A sentence vector.  [get_bert_embeddings] is the tokenizer (padding,
    truncation to 512 tokens), the transformer and the mean over the token
    axis of its last hidden state, all three library calls. *)
Variable embedding : Type.
Variable get_bert_embeddings : list string -> option (list embedding).

(** [KMeans(n_clusters, random_state).fit(embeddings).labels_] *)
Variable KMeans : nat -> Z -> list embedding -> option (list nat).

(** [CountVectorizer(stop_words).fit_transform(docs)] with
    [get_feature_names_out()]: the term counts, a row per document and a
    column per feature name. *)
Variable CountVectorizer :
  string -> list string -> option (list (list Z) * list string).

Record self : Type := mk_self {
  json_file : string;
  num_topics : nat;
  data : Store
}.

(** [BertTokenizer.from_pretrained(name)] and
    [BertModel.from_pretrained(name)]: they read the files of the
    pretrained model from the cache of the machine, fetch them first when
    they are not there, and raise when they cannot be had.  What they
    build is the tokenizer and the transformer that [get_bert_embeddings]
    stands for. *)
Variable BertTokenizer_from_pretrained :
  FS -> Net -> string -> FS * Net * option exn.
Variable BertModel_from_pretrained :
  FS -> Net -> string -> FS * Net * option exn.

(** What the constructor comes to: the object, or the exception of one of
    the two [from_pretrained]. *)
Inductive constructed : Type :=
| Constructed (s : self) (w : World)
| InitRaised (e : exn) (w : World).

Definition init (json_file : string) (num_topics : nat) (w : World)
    : constructed :=
  let (data, w1) := load_data json_file w in
  let '(fs2, net2, raised) :=
    BertTokenizer_from_pretrained (fs w1) (net w1) "bert-base-uncased" in
  let w2 := {| fs := fs2; net := net2; stdout := stdout w1 |} in
  match raised with
  | Some e => InitRaised e w2
  | None =>
      let '(fs3, net3, raised) :=
        BertModel_from_pretrained fs2 net2 "bert-base-uncased" in
      let w3 := {| fs := fs3; net := net3; stdout := stdout w1 |} in
      match raised with
      | Some e => InitRaised e w3
      | None =>
          Constructed
            {| json_file := json_file; num_topics := num_topics;
               data := data |} w3
      end
  end.

Definition extract_captions (data : Store) : list string * list video_key :=
  fold_left
    (fun '(captions_list, video_id_map) '(key, video_data) =>
       let captions := strip (get_captions video_data) in
       if truthy captions
       then
         let sentences := sent_tokenize captions in
         (captions_list ++ sentences,
          fold_left (fun m _ => m ++ [key]) sentences video_id_map)
       else (captions_list, video_id_map))
    (store_items data) ([], []).

Definition topic_modeling (s : self) (captions_list : list string)
    : option (list nat * list embedding) :=
  embeddings <- get_bert_embeddings captions_list ;;
  labels <- KMeans (num_topics s) 42%Z embeddings ;;
  Some (labels, embeddings).

(** [np.where(labels == topic_num)[0]] *)
Definition where_eq (labels : list nat) (topic_num : nat) : list nat :=
  map fst (filter (fun il => snd il =? topic_num) (enumerate labels)).

(** [m.sum(axis=0).A1] for a matrix of [ncols] columns. *)
Definition sum_axis0 (ncols : nat) (m : list (list Z)) : list Z :=
  fold_left
    (fun acc row => map (fun xy => (fst xy + snd xy)%Z) (combine acc row))
    m (repeat 0%Z ncols).

(** The dictionary [topic_keywords] has the keys [0 .. num_topics - 1]; it
    is the list of its values, and [topic_keywords[t]] is [index]. *)
Definition get_top_keywords_for_topics (s : self) (captions : list string)
    (labels : list nat) (num_keywords : nat) : option (list (list string)) :=
  '(X, feature_names) <- CountVectorizer "english" captions ;;
  mapM (fun topic_num =>
          let topic_indices := where_eq labels topic_num in
          topic_sentences <- mapM (index captions) topic_indices ;;
          topic_matrix <- mapM (index X) topic_indices ;;
          let word_freq := sum_axis0 (length feature_names) topic_matrix in
          let sorted_indices := rev (argsort Z.leb word_freq) in
          names <- mapM (index feature_names) sorted_indices ;;
          Some (first_n num_keywords names))
       (seq 0 (num_topics s)).

(** The loop stops at the first subscript that raises. *)
Definition assign_topics (data : Store) (video_id_map : list video_key)
    (kmeans_labels : list nat) (topic_keywords : list (list string))
    : option Store :=
  fold_left
    (fun acc '(i, key) =>
       data <- acc ;;
       best_topic <- index kmeans_labels i ;;
       keywords <- index topic_keywords best_topic ;;
       let topic_name := join " " keywords in
       store_update data key (fun r => set_topic r topic_name))
    (enumerate video_id_map) (Some data).

Definition run (s : self) (w : World) : outcome :=
  let '(captions_list, video_id_map) := extract_captions (data s) in
  match captions_list with
  | [] => Returned (data s) (print w NoCaptionsFound)
  | _ =>
      match topic_modeling s captions_list with
      | None => Raised w
      | Some (kmeans_labels, embeddings) =>
          match get_top_keywords_for_topics s captions_list kmeans_labels 5 with
          | None => Raised w
          | Some topic_keywords =>
              match assign_topics (data s) video_id_map kmeans_labels
                      topic_keywords with
              | None => Raised w
              | Some data' =>
                  Returned data' (save_data TopicsSaved (json_file s) data' w)
              end
          end
      end
  end.
End WithLibraries.
End TopicModelingBERT.

(* ===================================================================== *)
(** * YouTubeCaptionUpdater.py *)
(* ===================================================================== *)

(** The line feed, ["\n"]. *)
Definition newline : string := String (ascii_of_nat 10) EmptyString.

(** The text of the [KeyError] of a failed subscript. *)
Definition key_error : exn := "KeyError".

Module YouTubeCaptionUpdater.
Section WithService.
Context `{RT : Runtime}.

(** A timed segment of a transcript. *)
Record segment : Type := mk_segment {
  text : string;
  start : Q;
  duration : Q
}.

(** [YouTubeTranscriptApi.get_transcript(video_id)]: a request to the
    transcript service, which answers with the segments or raises. *)
Variable get_transcript : Net -> string -> Net * result (list segment).

Record self : Type := mk_self {
  json_file : string;
  data : Store
}.

Definition init (json_file : string) (w : World) : self * World :=
  let (data, w') := load_data json_file w in
  ({| json_file := json_file; data := data |}, w').

(** The body of the innermost loop: the [try] block and its handler. *)
Definition update_video (st : Store * World) (key : video_key)
    : Store * World :=
  let '(data, w) := st in
  let '(channel, playlist_id, video_id) := key in
  let (net', answer) := get_transcript (net w) video_id in
  let w' := {| fs := fs w; net := net'; stdout := stdout w |} in
  match answer with
  | Ok transcript =>
      let script := join newline (map text transcript) in
      match store_update data key (fun r => set_captions r script) with
      | Some data' => (data', print w' (CaptionFetched video_id))
      | None => (data, print w' (CaptionFailed video_id key_error))
      end
  | Err e => (data, print w' (CaptionFailed video_id e))
  end.

(** The loops run over the keys of the dictionaries; the assignments
    change records only, so the keys are those of the store at entry. *)
Definition update_captions (data : Store) (w : World) : Store * World :=
  fold_left update_video (map fst (store_items data)) (data, w).

Definition run (s : self) (w : World) : outcome :=
  let (data', w') := update_captions (data s) w in
  Returned data' (save_data CaptionsSaved (json_file s) data' w').
End WithService.
End YouTubeCaptionUpdater.

(* ===================================================================== *)
(** * YouTubeCommentUpdater.py *)
(* ===================================================================== *)

Module YouTubeCommentExtractor.
Section WithService.
Context `{RT : Runtime}.

(** [top_comment = item['snippet']['topLevelComment']['snippet']] *)
Record comment_snippet : Type := mk_snippet {
  publishedAt : string;
  textDisplay : string
}.

(** An item of a response; [topLevelComment] is the whole path to the
    snippet of the top-level comment. *)
Record item : Type := mk_item {
  topLevelComment : comment_snippet
}.

Record response : Type := mk_response {
  response_items : list item;
  nextPageToken : option string
}.

Record request : Type := mk_request {
  part : string;
  videoId : string;
  pageToken : option string;
  textFormat : string;
  maxResults : nat
}.

(** [youtube.commentThreads().list(...).execute()] *)
Variable execute : Net -> request -> Net * result response.

(** The dictionaries that [get_comments_for_video] collects. *)
Record video_comment : Type := mk_video_comment {
  vc_Timestamp : string;
  vc_Comment : string;
  vc_VideoID : string
}.

Record self : Type := mk_self {
  api_key : string;
  json_file : string;
  data : Store
}.

(** [__init__]; the client object that [build] makes stands for the
    service behind [execute]. *)
Definition init (api_key json_file : string) (w : World) : self * World :=
  let (data, w') := load_data json_file w in
  ({| api_key := api_key; json_file := json_file; data := data |}, w').

(** A computation that talks to the service: it returns, raises, or is
    still running when the fuel is spent. *)
Inductive step (S A : Type) : Type :=
| Done (a : A) (s : S)
| Fail (e : exn) (s : S)
| OutOfFuel.
Arguments Done {S A} a s.
Arguments Fail {S A} e s.
Arguments OutOfFuel {S A}.

(** [not next_page_token]: the key is absent or its value is empty. *)
Definition no_token (t : option string) : bool :=
  match t with
  | None => true
  | Some s => negb (truthy s)
  end.

(** The [while True] loop; [fuel] bounds the number of requests. *)
Fixpoint get_comments_loop (fuel : nat) (video_id : string)
    (all_comments : list video_comment) (next_page_token : option string)
    (n : Net) : step Net (list video_comment) :=
  match fuel with
  | 0 => OutOfFuel
  | S fuel' =>
      match execute n {| part := "snippet"; videoId := video_id;
                         pageToken := next_page_token;
                         textFormat := "plainText"; maxResults := 100 |} with
      | (n', Err e) => Fail e n'
      | (n', Ok comment_response) =>
          let all_comments' :=
            all_comments ++
            map (fun item =>
                   let top_comment := topLevelComment item in
                   {| vc_Timestamp := publishedAt top_comment;
                      vc_Comment := textDisplay top_comment;
                      vc_VideoID := video_id |})
                (response_items comment_response) in
          let next_page_token' := nextPageToken comment_response in
          if no_token next_page_token' then Done all_comments' n'
          else get_comments_loop fuel' video_id all_comments'
                 next_page_token' n'
      end
  end.

Definition get_comments_for_video (fuel : nat) (video_id : string) (n : Net)
    : step Net (list video_comment) :=
  get_comments_loop fuel video_id [] None n.

(** [for k, v in d.items(): body], where the body may assign to keys of
    [v]: the dictionary with the values the body leaves. *)
Fixpoint for_items {V : Type} (body : string -> V -> World -> step World V)
    (d : dict V) (w : World) : step World (dict V) :=
  match d with
  | [] => Done [] w
  | (k, v) :: d' =>
      match body k v w with
      | Done v' w1 =>
          match for_items body d' w1 with
          | Done d1 w2 => Done ((k, v') :: d1) w2
          | Fail e w2 => Fail e w2
          | OutOfFuel => OutOfFuel
          end
      | Fail e w1 => Fail e w1
      | OutOfFuel => OutOfFuel
      end
  end.

(** The body of the innermost loop. *)
Definition extract_video (fuel : nat) (author playlist_id video_id : string)
    (video_data : VideoRecord) (w : World) : step World VideoRecord :=
  let w1 := print w (ExtractingComments video_id author playlist_id) in
  match get_comments_for_video fuel video_id (net w1) with
  | Done video_comments n' =>
      Done (set_comments video_data
              (map (fun c => {| Timestamp := vc_Timestamp c;
                                Comment := vc_Comment c |})
                   video_comments))
           {| fs := fs w1; net := n'; stdout := stdout w1 |}
  | Fail e n' => Fail e {| fs := fs w1; net := n'; stdout := stdout w1 |}
  | OutOfFuel => OutOfFuel
  end.

Definition extract_comments (fuel : nat) (data : Store) (w : World)
    : step World Store :=
  for_items (fun author playlists =>
    for_items (fun playlist_id playlist_data =>
      for_items (fun video_id video_data =>
        extract_video fuel author playlist_id video_id video_data)
        playlist_data)
      playlists)
    data w.

(** [run]: no handler surrounds [extract_comments], so an exception of
    the service leaves [run] before [save_data]. [None]: out of fuel. *)
Definition run (fuel : nat) (s : self) (w : World) : option outcome :=
  match extract_comments fuel (data s) w with
  | Done data' w' =>
      Some (Returned data' (save_data CommentsSaved (json_file s) data' w'))
  | Fail e w' => Some (Raised w')
  | OutOfFuel => None
  end.
End WithService.
Arguments Done {S A} a s.
Arguments Fail {S A} e s.
Arguments OutOfFuel {S A}.
End YouTubeCommentExtractor.

(* ===================================================================== *)
(** * Vocabulary of the statements *)
(* ===================================================================== *)

(** One turn of the loop of [assign_topics], which gives the video at
    position [i] of the map the topic [topic_of i]; [None] where a subscript
    raises. *)
Definition assign_step (topic_of : nat -> option string)
    (acc : option Store) (ik : nat * video_key) : option Store :=
  data <- acc ;;
  t <- topic_of (fst ik) ;;
  store_update data (snd ik) (fun r => set_topic r t).

(** The topic of position [i] in the NMF modeler:
    [topic_keywords[W[i].argmax()]]. *)
Definition nmf_topic_of (W : list (list weight)) (topic_keywords : list string)
    (i : nat) : option string :=
  row <- index W i ;;
  best_topic <- argmax weight_leb row ;;
  index topic_keywords best_topic.

(** The topic of position [i] in the embedding modeler:
    [" ".join(topic_keywords[kmeans_labels[i]])]. *)
Definition bert_topic_of (kmeans_labels : list nat)
    (topic_keywords : list (list string)) (i : nat) : option string :=
  best_topic <- index kmeans_labels i ;;
  keywords <- index topic_keywords best_topic ;;
  Some (join " " keywords).

(** [terms[i]] for an index known to be in range. *)
Definition term_at (terms : list string) (i : nat) : string := nth i terms "".

Definition weight_at (topic : list weight) (i : nat) : weight :=
  nth i topic 0%Q.

(** [idxs] are [n] indices of highest weight in [topic] (all of them when
    there are fewer than [n]), listed by ascending weight. *)
Definition ascending_top (n : nat) (topic : list weight) (idxs : list nat)
    : Prop :=
  length idxs = Nat.min n (length topic)
  /\ NoDup idxs
  /\ (forall i, In i idxs -> i < length topic)
  /\ StronglySorted (fun i j => (weight_at topic i <= weight_at topic j)%Q) idxs
  /\ (forall i j, In i idxs -> j < length topic -> ~ In j idxs ->
                  (weight_at topic j <= weight_at topic i)%Q).

(** The keyword string as the specification words it: the ten terms of
    highest weight, by descending weight. *)
Definition descending_top10 (terms : list string) (topic : list weight)
    : string :=
  join " " (map (term_at terms) (first_n 10 (rev (argsort weight_leb topic)))).

(** The video contributes a caption: [captions] is there and is not only
    white space. *)
Definition has_caption (kr : video_key * VideoRecord) : bool :=
  truthy (strip (get_captions (snd kr))).

(** The record [r'] is [r] up to its topic. *)
Definition same_but_topic (r r' : VideoRecord) : Prop :=
  captions r' = captions r /\ comments r' = comments r.

(** [b] is the index of a largest entry of [row]. *)
Definition is_argmax (row : list weight) (b : nat) : Prop :=
  b < length row
  /\ forall j, j < length row -> (weight_at row j <= weight_at row b)%Q.

(** [str.lower] on the code points U+0000..U+00FF: the letters [A]..[Z]
    and the capital letters of U+00C0..U+00DE have a small letter 32
    places on. *)
Definition lower_char (c : ascii) : ascii :=
  let n := nat_of_ascii c in
  if ((65 <=? n) && (n <=? 90)
      || (192 <=? n) && (n <=? 222) && negb (n =? 215))%bool
  then ascii_of_nat (n + 32)
  else c.

Fixpoint lower (s : string) : string :=
  match s with
  | EmptyString => EmptyString
  | String c s' => String (lower_char c) (lower s')
  end.

(** [t in s] *)
Fixpoint occurs_in (t s : string) : bool :=
  (String.prefix t s
   || match s with
      | EmptyString => false
      | String _ s' => occurs_in t s'
      end)%bool.

(** The term is present in the document as the vectorizer reads it, in
    lower case. *)
Definition present_in (term doc : string) : bool :=
  occurs_in term (lower doc).

(** [i] is the last position of [k] in [l]. *)
Definition last_position {A} (l : list A) (k : A) (i : nat) : Prop :=
  nth_error l i = Some k /\ forall j, i < j -> nth_error l j <> Some k.

(** The sentences of a video, and the entries it adds to the map of the
    embedding modeler: its key, once per sentence. *)
Definition sentences_of (sent_tokenize : string -> list string)
    (kr : video_key * VideoRecord) : list string :=
  sent_tokenize (strip (get_captions (snd kr))).

Definition owners_of (sent_tokenize : string -> list string)
    (kr : video_key * VideoRecord) : list video_key :=
  repeat (fst kr) (length (sentences_of sent_tokenize kr)).

(** A run that took [d] to [d'] wrote topics only: the same videos, each
    with its captions and comments, and a video without a caption exactly
    as it was. *)
Definition only_topics_written (d d' : Store) : Prop :=
  forall k,
    match store_get d k, store_get d' k with
    | Some r, Some r' =>
        same_but_topic r r' /\ (has_caption (k, r) = false -> r' = r)
    | None, None => True
    | _, _ => False
    end.

(** No video of the store contributes a caption. *)
Definition no_captions (d : Store) : Prop :=
  forall k r, In (k, r) (store_items d) -> has_caption (k, r) = false.

(** ** The caption updater *)

Definition video_id_of (k : video_key) : string := snd k.

Section CaptionVocabulary.
Import YouTubeCaptionUpdater.
Context `{RT : Runtime}.
Variable get_transcript : Net -> string -> Net * result (list segment).

(** The answers of the transcript service to one request per video id, in
    order, and the state the service is left in. *)
Fixpoint transcript_answers (n : Net) (ids : list string)
    : list (result (list segment)) * Net :=
  match ids with
  | [] => ([], n)
  | id :: ids' =>
      let (n', answer) := get_transcript n id in
      let (answers, n'') := transcript_answers n' ids' in
      (answer :: answers, n'')
  end.

(** The record of a video after the answer to its request: on success the
    captions are the texts of the segments joined by line feeds, on failure
    the record is as before. *)
Definition after_answer (r : VideoRecord) (answer : result (list segment))
    : VideoRecord :=
  match answer with
  | Ok transcript => set_captions r (join newline (map text transcript))
  | Err _ => r
  end.

(** The line printed for a video. *)
Definition answer_message (k : video_key)
    (answer : result (list segment)) : message :=
  match answer with
  | Ok _ => CaptionFetched (video_id_of k)
  | Err e => CaptionFailed (video_id_of k) e
  end.

Definition answer_messages (ks : list video_key)
    (answers : list (result (list segment))) : list message :=
  map (fun ka => answer_message (fst ka) (snd ka)) (combine ks answers).
End CaptionVocabulary.

(** ** The comment extractor *)

Section CommentVocabulary.
Import YouTubeCommentExtractor.
Context `{RT : Runtime}.
Variable execute : Net -> request -> Net * result response.

(** The request for a page of at most 100 comment threads of a video. *)
Definition page_request (video_id : string) (page_token : option string)
    : request :=
  {| part := "snippet"; videoId := video_id; pageToken := page_token;
     textFormat := "plainText"; maxResults := 100 |}.

(** [Paginates video_id n token pages n']: asked for pages of 100 from
    [token] on, each request carrying the token of the response before, the
    service answers with [pages]; every response but the last carries a
    continuation token, the last carries none. *)
Inductive Paginates (video_id : string)
    : Net -> option string -> list response -> Net -> Prop :=
| Paginates_last n token response n' :
    execute n (page_request video_id token) = (n', Ok response) ->
    no_token (nextPageToken response) = true ->
    Paginates video_id n token [response] n'
| Paginates_more n token response n1 pages n' :
    execute n (page_request video_id token) = (n1, Ok response) ->
    no_token (nextPageToken response) = false ->
    Paginates video_id n1 (nextPageToken response) pages n' ->
    Paginates video_id n token (response :: pages) n'.

(** [PaginationFails video_id n token pages e n']: the service answers with
    [pages], each with a continuation token, and the next request raises
    [e]. *)
Inductive PaginationFails (video_id : string)
    : Net -> option string -> list response -> exn -> Net -> Prop :=
| PaginationFails_now n token e n' :
    execute n (page_request video_id token) = (n', Err e) ->
    PaginationFails video_id n token [] e n'
| PaginationFails_later n token response n1 pages e n' :
    execute n (page_request video_id token) = (n1, Ok response) ->
    no_token (nextPageToken response) = false ->
    PaginationFails video_id n1 (nextPageToken response) pages e n' ->
    PaginationFails video_id n token (response :: pages) e n'.

(** One [{Timestamp, Comment}] entry per top-level comment of the pages, in
    the order of the pages and of the items in a page. *)
Definition comments_of (pages : list response) : list comment :=
  map (fun item =>
         {| Timestamp := publishedAt (topLevelComment item);
            Comment := textDisplay (topLevelComment item) |})
      (flat_map response_items pages).

(** [Collected fuel n videos videos' n']: the videos are taken in order;
    for each the service paginates, in at most [fuel] pages, and the
    comments of the pages replace the video's comments. *)
Inductive Collected (fuel : nat)
    : Net -> list (video_key * VideoRecord) -> list (video_key * VideoRecord)
      -> Net -> Prop :=
| Collected_nil n : Collected fuel n [] [] n
| Collected_cons n k r pages n1 videos videos' n' :
    Paginates (video_id_of k) n None pages n1 ->
    length pages <= fuel ->
    Collected fuel n1 videos videos' n' ->
    Collected fuel n ((k, r) :: videos)
      ((k, set_comments r (comments_of pages)) :: videos') n'.

(** The line printed before the comments of a video are requested. *)
Definition extracting_message (kr : video_key * VideoRecord) : message :=
  let '(author, playlist_id, video_id) := fst kr in
  ExtractingComments video_id author playlist_id.

(** The world once the requests for a video are over: the line printed
    before them, and the state of the service after them. *)
Definition after_request (w : World) (kr : video_key * VideoRecord)
    (n : Net) : World :=
  {| fs := fs w; net := n; stdout := stdout w ++ [extracting_message kr] |}.

(** The three loops of [extract_comments] as one loop over the videos. *)
Fixpoint extract_flat (fuel : nat) (videos : list (video_key * VideoRecord))
    (w : World) : step World (list (video_key * VideoRecord)) :=
  match videos with
  | [] => Done [] w
  | (author, playlist_id, video_id, video_data) :: videos' =>
      match extract_video execute fuel author playlist_id video_id
              video_data w with
      | Done video_data' w1 =>
          match extract_flat fuel videos' w1 with
          | Done l w2 =>
              Done ((author, playlist_id, video_id, video_data') :: l) w2
          | Fail e w2 => Fail e w2
          | OutOfFuel => OutOfFuel
          end
      | Fail e w1 => Fail e w1
      | OutOfFuel => OutOfFuel
      end
  end.

(** The functor and the bind of [step]. *)
Definition step_map {S A B} (f : A -> B) (x : step S A) : step S B :=
  match x with
  | Done a s => Done (f a) s
  | Fail e s => Fail e s
  | OutOfFuel => OutOfFuel
  end.

Definition step_bind {S A B} (x : step S A)
    (f : A -> S -> step S B) : step S B :=
  match x with
  | Done a s => f a s
  | Fail e s => Fail e s
  | OutOfFuel => OutOfFuel
  end.

(** The dictionaries [get_comments_for_video] collects from the pages. *)
Definition video_comments_of (video_id : string) (pages : list response)
    : list video_comment :=
  map (fun item =>
         {| vc_Timestamp := publishedAt (topLevelComment item);
            vc_Comment := textDisplay (topLevelComment item);
            vc_VideoID := video_id |})
      (flat_map response_items pages).
End CommentVocabulary.

(** ** Instances for the examples

    A file system that keeps one text per path and never fails, a JSON codec
    that knows one document, and stand-ins with fixed answers for the
    libraries and the services. *)

Definition example_store : Store :=
  [("ChannelA",
    [("PL1",
      [("vid1", mk_video (Some "cats are great pets. dogs are loyal.")
                  None None);
       ("vid2", mk_video (Some "   ")
                  (Some [{| Timestamp := "t0"; Comment := "hi" |}]) None)]);
     ("PL2",
      [("vid3", mk_video (Some "loyal dogs. great cats. dogs are pets.")
                  None (Some "old"))])]);
   ("ChannelB",
    [("PL3", [("vid4", mk_video None None None)])])].

(** The store of the examples with other comments and topics, and with
    other videos that have no captions. *)
Definition example_store' : Store :=
  [("ChannelA",
    [("PL1",
      [("vid1", mk_video (Some "cats are great pets. dogs are loyal.")
                  (Some []) (Some "stale"))]);
     ("PL2",
      [("vid3", mk_video (Some "  loyal dogs. great cats. dogs are pets.")
                  None None);
       ("vid5", mk_video (Some "") None None)])])].

(** The store of the worked example of the specification. *)
Definition one_video_store : Store :=
  [("ChannelA",
    [("PL1",
      [("vid1", mk_video (Some "cats are great pets. dogs are loyal.")
                  None None)])])].

Definition blank_store : Store :=
  [("ChannelA",
    [("PL1",
      [("vid2", mk_video (Some "   ")
                  (Some [{| Timestamp := "t0"; Comment := "hi" |}]) None);
       ("vid4", mk_video None None None)])])].

Definition example_text : string := "{...}".

#[local] Instance example_runtime : Runtime := {|
  FS := dict string;
  Net := nat;
  fs_read := fun fs path =>
    match dict_get fs path with
    | Some t => Ok t
    | None => Err "FileNotFoundError"
    end;
  fs_write := fun fs path content => (dict_set fs path content, None);
  json_load := fun t =>
    if String.eqb t example_text then Ok example_store
    else Err "JSONDecodeError";
  json_dump := fun _ => example_text
|}.

Definition example_world : World :=
  {| fs := [("data.json", example_text)]; net := 0; stdout := [] |}.

Definition example_terms : list string :=
  ["cats"; "dogs"; "great"; "loyal"; "pets"].

Definition example_TfidfVectorizer (stop_words : string) (max_features : nat)
    (docs : list string) : option (list (list weight) * list string) :=
  Some (map (fun _ => [1; 1; 1; 1; 1]%Q) docs, example_terms).

(** Document [i] belongs to topic [i]; topic [t] weighs term [j] by
    [(j + t) mod 5]. *)
Definition example_NMF (n_components : nat) (random_state : Z)
    (X : list (list weight))
    : option (list (list weight) * list (list weight)) :=
  Some (map (fun i =>
               map (fun t => if i =? t then 1%Q else 0%Q) (seq 0 n_components))
            (seq 0 (length X)),
        map (fun t =>
               map (fun j => inject_Z (Z.of_nat ((j + t) mod 5))) (seq 0 5))
            (seq 0 n_components)).

(** A factorisation routine that answers under the seed 42 only. *)
Definition example_NMF' (n_components : nat) (random_state : Z)
    (X : list (list weight))
    : option (list (list weight) * list (list weight)) :=
  if (random_state =? 42)%Z then example_NMF n_components random_state X
  else None.

(** A tokenizer that ends a sentence at a full stop followed by a space. *)
Fixpoint example_split (cur s : string) : list string :=
  match s with
  | EmptyString => if truthy cur then [cur] else []
  | String c s' =>
      match s' with
      | String c' s'' =>
          if (Ascii.eqb c "." && Ascii.eqb c' " ")%bool
          then (cur ++ String c EmptyString)%string :: example_split "" s''
          else example_split (cur ++ String c EmptyString)%string s'
      | EmptyString => [(cur ++ String c EmptyString)%string]
      end
  end.

Definition example_sent_tokenize (s : string) : list string :=
  example_split "" s.

Definition example_get_bert_embeddings (texts : list string)
    : option (list nat) :=
  Some (map String.length texts).

Definition example_KMeans (n_clusters : nat) (random_state : Z)
    (embeddings : list nat) : option (list nat) :=
  Some (map (fun e => e mod n_clusters) embeddings).

Definition example_CountVectorizer (stop_words : string) (docs : list string)
    : option (list (list Z) * list string) :=
  Some (map (fun _ => [1; 1; 1; 1; 1]%Z) docs, example_terms).

(** A transcript service that has no transcript for [vid2]. *)
Definition example_get_transcript (n : nat) (video_id : string)
    : nat * result (list YouTubeCaptionUpdater.segment) :=
  (S n,
   if String.eqb video_id "vid2" then Err "TranscriptsDisabled"
   else Ok [YouTubeCaptionUpdater.mk_segment "hello" 0 1;
            YouTubeCaptionUpdater.mk_segment video_id 1 2]).

Definition example_item (t c : string) : YouTubeCommentExtractor.item :=
  YouTubeCommentExtractor.mk_item (YouTubeCommentExtractor.mk_snippet t c).

(** A comment service with two pages for [vid1], the second with an empty
    token, and one empty page for every other video. *)
Definition example_execute (n : nat) (request : YouTubeCommentExtractor.request)
    : nat * result YouTubeCommentExtractor.response :=
  (S n,
   match YouTubeCommentExtractor.pageToken request with
   | None =>
       if String.eqb (YouTubeCommentExtractor.videoId request) "vid1"
       then Ok (YouTubeCommentExtractor.mk_response
                  [example_item "t1" "first"; example_item "t2" "second"]
                  (Some "p2"))
       else Ok (YouTubeCommentExtractor.mk_response [] None)
   | Some _ =>
       Ok (YouTubeCommentExtractor.mk_response [example_item "t3" "third"]
             (Some ""))
   end).

(** A comment service whose quota is spent when [vid3] is asked for. *)
Definition failing_execute (n : nat) (request : YouTubeCommentExtractor.request)
    : nat * result YouTubeCommentExtractor.response :=
  (S n,
   if String.eqb (YouTubeCommentExtractor.videoId request) "vid3"
   then Err "quotaExceeded"
   else Ok (YouTubeCommentExtractor.mk_response [example_item "t" "c"] None)).

(** ** Vocabulary of the further properties *)

(** The keys of the videos of the store, in iteration order. *)
Definition store_keys (d : Store) : list video_key := map fst (store_items d).

(** The record [r'] is [r] up to its captions. *)
Definition same_but_captions (r r' : VideoRecord) : Prop :=
  comments r' = comments r /\ topic r' = topic r.

(** The record [r'] is [r] with a list of comments in place of whatever
    comments it had. *)
Definition same_but_comments (r r' : VideoRecord) : Prop :=
  captions r' = captions r /\ topic r' = topic r /\ comments r' <> None.

(** The stores have the same videos, and the records of a video are related
    by [R]. *)
Definition same_videos (R : VideoRecord -> VideoRecord -> Prop)
    (d d' : Store) : Prop :=
  forall k,
    match store_get d k, store_get d' k with
    | Some r, Some r' => R r r'
    | None, None => True
    | _, _ => False
    end.

(** The file cannot be loaded: reading it raises [e], or its text is not a
    JSON document and parsing it raises [e]. *)
Definition unloadable `{RT : Runtime} (w : World) (json_file : string)
    (e : exn) : Prop :=
  fs_read (fs w) json_file = Err e
  \/ exists text,
       fs_read (fs w) json_file = Ok text /\ json_load text = Err e.

(** A comment service that hands out a continuation token with every page. *)
Definition endless_execute (n : nat) (request : YouTubeCommentExtractor.request)
    : nat * result YouTubeCommentExtractor.response :=
  (S n, Ok (YouTubeCommentExtractor.mk_response [example_item "t" "c"]
              (Some "more"))).

(** How many entries of [l] are the key [k]. *)
Definition occurrences (k : video_key) (l : list video_key) : nat :=
  length (filter (key_eqb k) l).

(** How often the documents of a cluster use the term of column [j]: the
    sum of [X[i][j]] over the documents [i] labelled [topic_num]. *)
Definition term_count_in_cluster (X : list (list Z)) (labels : list nat)
    (topic_num j : nat) : Z :=
  fold_right Z.add 0%Z
    (map (fun il =>
            if snd il =? topic_num then nth j (nth (fst il) X []) 0%Z
            else 0%Z)
         (enumerate labels)).

(** [idxs] are [n] of the [nfeat] indices with the highest [freq] (all of
    them when there are fewer than [n]), listed by descending [freq]. *)
Definition descending_top (n nfeat : nat) (freq : nat -> Z)
    (idxs : list nat) : Prop :=
  length idxs = Nat.min n nfeat
  /\ NoDup idxs
  /\ (forall i, In i idxs -> i < nfeat)
  /\ StronglySorted (fun i j => (freq j <= freq i)%Z) idxs
  /\ (forall i j, In i idxs -> j < nfeat -> ~ In j idxs ->
                  (freq j <= freq i)%Z).

(** The counts of the terms in the documents of a cluster, and the indices
    of its [num_keywords] most used terms, as
    [get_top_keywords_for_topics] computes them from the matrix [X] of
    [ncols] columns. *)
Definition cluster_word_freq (X : list (list Z)) (ncols : nat)
    (labels : list nat) (topic_num : nat) : list Z :=
  TopicModelingBERT.sum_axis0 ncols
    (map (fun i => nth i X []) (TopicModelingBERT.where_eq labels topic_num)).

Definition cluster_top_indices (X : list (list Z)) (ncols : nat)
    (labels : list nat) (num_keywords topic_num : nat) : list nat :=
  first_n num_keywords
    (rev (argsort Z.leb (cluster_word_freq X ncols labels topic_num))).

(** The keys of the store at its three levels: the authors in order, with
    each author the playlists in order, with each playlist the video ids in
    order.  An author without playlists and a playlist without videos are
    in it. *)
Definition store_shape (d : Store)
    : list (string * list (string * list string)) :=
  map (fun ap =>
         (fst ap, map (fun pv => (fst pv, keys (snd pv))) (snd ap)))
      d.

(* ===================================================================== *)
(** * Properties *)
(* ===================================================================== *)

Unset Implicit Arguments.

(** ** Facts about the Python values *)

Lemma mapM_Some_map {A B} (f : A -> option B) (g : A -> B) (l : list A) :
  (forall a, In a l -> f a = Some (g a)) -> mapM f l = Some (map g l).
Proof.
  induction l as [|a l IH]; intros Hf; simpl; [reflexivity|].
  rewrite (Hf a (or_introl eq_refl)). simpl.
  rewrite IH by (intros; apply Hf; now right). reflexivity.
Qed.

Lemma index_nth {A} (l : list A) (i : nat) (d : A) :
  i < length l -> index l i = Some (nth i l d).
Proof. intros Hi. unfold index. now apply nth_error_nth'. Qed.

Lemma enumerate_fst {A} (l : list A) : map fst (enumerate l) = seq 0 (length l).
Proof.
  unfold enumerate. generalize 0.
  induction l as [|a l IH]; intros n; simpl; [reflexivity|].
  now rewrite IH.
Qed.

Lemma enumerate_In {A} (l : list A) (i : nat) (x : A) :
  In (i, x) (enumerate l) -> nth_error l i = Some x.
Proof.
  unfold enumerate.
  assert (G : forall n, In (i, x) (combine (seq n (length l)) l) ->
                        n <= i /\ nth_error l (i - n) = Some x).
  { induction l as [|a l IH]; intros n; simpl; [tauto|].
    intros [E | Hin].
    - injection E as -> ->. rewrite Nat.sub_diag. split; [lia | reflexivity].
    - destruct (IH _ Hin) as [Hle Hn]. split; [lia|].
      replace (i - n) with (S (i - S n)) by lia. exact Hn. }
  intros Hin. destruct (G 0 Hin) as [_ Hn]. now rewrite Nat.sub_0_r in Hn.
Qed.

Lemma StronglySorted_app_inv {A} (R : A -> A -> Prop) (l1 l2 : list A) :
  StronglySorted R (l1 ++ l2) ->
  StronglySorted R l2 /\ forall x y, In x l1 -> In y l2 -> R x y.
Proof.
  induction l1 as [|a l1 IH]; simpl; intros Hs.
  - split; [exact Hs | intros x y []].
  - inversion Hs as [|? ? Hs' Hall]; subst.
    destruct (IH Hs') as [H2 H12]. split; [exact H2|].
    intros x y [<- | Hx] Hy.
    + rewrite Forall_forall in Hall. apply Hall, in_or_app. now right.
    + now apply H12.
Qed.

Lemma StronglySorted_map {A B} (R : B -> B -> Prop) (f : A -> B) (l : list A) :
  StronglySorted (fun x y => R (f x) (f y)) l -> StronglySorted R (map f l).
Proof.
  induction 1 as [|a l Hs IH Hall]; simpl; constructor; auto.
  rewrite Forall_forall in *. intros y Hy.
  apply in_map_iff in Hy as (x & <- & Hx). auto.
Qed.

Section OrderFacts.
Context {A : Type} (leb : A -> A -> bool).
Hypothesis leb_total : forall x y, leb x y = false -> leb y x = true.
Hypothesis leb_trans :
  forall x y z, leb x y = true -> leb y z = true -> leb x z = true.

Definition le_snd (x y : nat * A) : Prop := leb (snd x) (snd y) = true.

Lemma insert_by_perm x l : Permutation (insert_by leb x l) (x :: l).
Proof.
  induction l as [|y l IH]; simpl; [reflexivity|].
  destruct (leb (snd x) (snd y)); [reflexivity|].
  rewrite IH. apply perm_swap.
Qed.

Lemma sort_by_perm l : Permutation (sort_by leb l) l.
Proof.
  induction l as [|x l IH]; simpl; [reflexivity|].
  rewrite insert_by_perm. now constructor.
Qed.

Lemma insert_by_sorted x l :
  StronglySorted le_snd l -> StronglySorted le_snd (insert_by leb x l).
Proof.
  induction 1 as [|y l Hs IH Hall]; simpl.
  - repeat constructor.
  - destruct (leb (snd x) (snd y)) eqn:E.
    + constructor; [now constructor|].
      constructor; [exact E|].
      rewrite Forall_forall in *. intros z Hz.
      eapply leb_trans; [exact E | now apply Hall].
    + constructor; [exact IH|].
      rewrite Forall_forall in *. intros z Hz.
      apply (Permutation_in _ (insert_by_perm x l)) in Hz.
      destruct Hz as [<- | Hz]; [now apply leb_total | now apply Hall].
Qed.

Lemma sort_by_sorted l : StronglySorted le_snd (sort_by leb l).
Proof.
  induction l as [|x l IH]; simpl; [constructor | now apply insert_by_sorted].
Qed.

Lemma argsort_perm (a : list A) :
  Permutation (argsort leb a) (seq 0 (length a)).
Proof.
  unfold argsort. rewrite <- enumerate_fst.
  apply Permutation_map, sort_by_perm.
Qed.

Lemma argsort_length (a : list A) : length (argsort leb a) = length a.
Proof.
  rewrite (Permutation_length (argsort_perm a)). apply length_seq.
Qed.

Lemma sort_by_enumerate_In (a : list A) i x :
  In (i, x) (sort_by leb (enumerate a)) -> nth_error a i = Some x.
Proof.
  intros Hin. apply enumerate_In.
  exact (Permutation_in _ (sort_by_perm _) Hin).
Qed.

(** The last [n] indices of [argsort]: pairwise distinct, in range, in
    ascending order of their values, and no index left out has a value
    above one of them. *)
Lemma argsort_last_n (a : list A) (n : nat) (d : A) :
  let idxs := last_n n (argsort leb a) in
  length idxs = Nat.min n (length a)
  /\ NoDup idxs
  /\ (forall i, In i idxs -> i < length a)
  /\ StronglySorted (fun i j => leb (nth i a d) (nth j a d) = true) idxs
  /\ (forall i j, In i idxs -> j < length a -> ~ In j idxs ->
                  leb (nth j a d) (nth i a d) = true).
Proof.
  intros idxs.
  set (sorted := sort_by leb (enumerate a)).
  set (k := length a - n).
  assert (Hidx : idxs = map fst (skipn k sorted)).
  { unfold idxs, last_n. rewrite argsort_length. unfold argsort.
    now rewrite skipn_map. }
  assert (Hval : forall p, In p sorted -> nth (fst p) a d = snd p
                                          /\ fst p < length a).
  { intros [i x] Hp. apply sort_by_enumerate_In in Hp. simpl. split.
    - now apply nth_error_nth.
    - apply nth_error_Some. congruence. }
  assert (Hsplit : sorted = firstn k sorted ++ skipn k sorted)
    by (symmetry; apply firstn_skipn).
  assert (Hnd : NoDup (map fst sorted)).
  { eapply Permutation_NoDup; [symmetry; apply argsort_perm|].
    apply seq_NoDup. }
  pose proof (sort_by_sorted (enumerate a)) as Hs. fold sorted in Hs.
  rewrite Hsplit in Hs. apply StronglySorted_app_inv in Hs as [Hs2 Hs12].
  assert (Hin2 : forall p, In p (skipn k sorted) -> In p sorted).
  { intros p Hp. rewrite Hsplit. apply in_or_app. now right. }
  split; [|split; [|split; [|split]]].
  - unfold idxs, last_n. rewrite length_skipn, argsort_length. lia.
  - rewrite Hidx. rewrite Hsplit, map_app in Hnd.
    now apply NoDup_app_remove_l in Hnd.
  - intros i Hi. rewrite Hidx in Hi.
    apply in_map_iff in Hi as (p & <- & Hp). now apply Hval, Hin2.
  - rewrite Hidx. apply StronglySorted_map.
    clear - Hs2 Hval Hin2.
    induction Hs2 as [|p l Hs IH Hall]; constructor.
    + apply IH. intros q Hq. apply Hin2. now right.
    + rewrite Forall_forall in *. intros q Hq.
      destruct (Hval p (Hin2 p (or_introl eq_refl))) as [-> _].
      destruct (Hval q (Hin2 q (or_intror Hq))) as [-> _].
      now apply Hall.
  - intros i j Hi Hj Hnj. rewrite Hidx in Hi, Hnj.
    apply in_map_iff in Hi as (p & <- & Hp).
    assert (Hjin : In j (map fst sorted)).
    { apply (Permutation_in _ (Permutation_sym (argsort_perm a))).
      apply in_seq. lia. }
    apply in_map_iff in Hjin as (q & <- & Hq).
    rewrite Hsplit in Hq. apply in_app_or in Hq as [Hq | Hq].
    + destruct (Hval p (Hin2 p Hp)) as [-> _].
      assert (Hq' : In q sorted)
        by (rewrite Hsplit; apply in_or_app; now left).
      destruct (Hval q Hq') as [-> _].
      now apply Hs12.
    + exfalso. apply Hnj. now apply in_map.
Qed.
End OrderFacts.

Lemma weight_leb_total (x y : weight) :
  weight_leb x y = false -> weight_leb y x = true.
Proof.
  unfold weight_leb. intros E. apply Qle_bool_iff.
  destruct (Qlt_le_dec y x) as [Hlt | Hle].
  - now apply Qlt_le_weak.
  - apply Qle_bool_iff in Hle. congruence.
Qed.

Lemma weight_leb_trans (x y z : weight) :
  weight_leb x y = true -> weight_leb y z = true -> weight_leb x z = true.
Proof.
  unfold weight_leb. rewrite !Qle_bool_iff. apply Qle_trans.
Qed.

(* ===================================================================== *)
(** ** Topic keywords of the NMF modeler *)
(* ===================================================================== *)

Lemma topic_keyword_ascending (terms : list string) (topic : list weight) :
  length topic = length terms ->
  exists idxs,
    TopicModeling.topic_keyword terms topic
      = Some (join " " (map (term_at terms) idxs))
    /\ ascending_top 10 topic idxs.
Proof.
  intros Hlen.
  exists (last_n 10 (argsort weight_leb topic)).
  destruct (argsort_last_n weight_leb weight_leb_total weight_leb_trans
              topic 10 0%Q) as (H1 & H2 & H3 & H4 & H5).
  split.
  - unfold TopicModeling.topic_keyword.
    rewrite (mapM_Some_map (index terms) (term_at terms)); [reflexivity|].
    intros i Hi. apply index_nth. rewrite <- Hlen. now apply H3.
  - unfold ascending_top, weight_at. repeat split; auto.
    + revert H4. generalize (last_n 10 (argsort weight_leb topic)).
      induction 1 as [|i l Hs IH Hall]; constructor; auto.
      rewrite Forall_forall in *. intros j Hj.
      apply Qle_bool_iff. now apply Hall.
    + intros i j Hi Hj Hnj. apply Qle_bool_iff. now apply H5.
Qed.

Section TopicKeywords.
Variable TfidfVectorizer :
  string -> nat -> list string -> option (list (list weight) * list string).
Variable NMF :
  nat -> Z -> list (list weight)
  -> option (list (list weight) * list (list weight)).

Lemma topic_keywords_spec (terms : list string) (H : list (list weight)) :
  Forall (fun topic => length topic = length terms) H ->
  exists topic_keywords,
    mapM (TopicModeling.topic_keyword terms) H = Some topic_keywords
    /\ Forall2 (fun topic keyword =>
                  exists idxs,
                    keyword = join " " (map (term_at terms) idxs)
                    /\ ascending_top 10 topic idxs)
               H topic_keywords.
Proof.
  induction 1 as [|topic H' Hlen _ IH].
  - exists []. split; [reflexivity | constructor].
  - destruct IH as (kws & E & F).
    destruct (topic_keyword_ascending terms topic Hlen) as (idxs & Ek & Ha).
    exists (join " " (map (term_at terms) idxs) :: kws). split.
    + simpl. rewrite Ek. simpl. rewrite E. reflexivity.
    + constructor; [|exact F]. now exists idxs.
Qed.

(** C1, as the code has it.  When the vectorizer and the factorisation
    answer, with a row of [H] per topic and a column per term,
    [topic_modeling] returns one keyword string per topic: the terms at
    the (at most) ten indices of highest weight in the topic's row, joined
    by spaces in ASCENDING order of weight.  The slice [[-10:]] keeps the
    order of [argsort]; nothing reverses it. *)
Theorem topic_modeling_keywords_ascending
    (s : TopicModeling.self) (captions_list : list string)
    (X W H : list (list weight)) (terms : list string) :
  TfidfVectorizer "english" 1000 captions_list = Some (X, terms) ->
  NMF (TopicModeling.num_topics s) 42%Z X = Some (W, H) ->
  Forall (fun topic => length topic = length terms) H ->
  exists topic_keywords,
    TopicModeling.topic_modeling TfidfVectorizer NMF s captions_list
      = Some (topic_keywords, W)
    /\ Forall2 (fun topic keyword =>
                  exists idxs,
                    keyword = join " " (map (term_at terms) idxs)
                    /\ ascending_top 10 topic idxs)
               H topic_keywords.
Proof.
  intros HX HW Hrows.
  destruct (topic_keywords_spec terms H Hrows) as (kws & E & F).
  exists kws. split; [|exact F].
  unfold TopicModeling.topic_modeling.
  rewrite HX. simpl. rewrite HW. simpl. rewrite E. reflexivity.
Qed.
End TopicKeywords.

Lemma topic_modeling_keywords_ascending_witness :
  let s := {| TopicModeling.json_file := "data.json";
              TopicModeling.num_topics := 2;
              TopicModeling.data := example_store |} in
  exists topic_keywords W,
    TopicModeling.topic_modeling example_TfidfVectorizer example_NMF s
      ["cats are great pets. dogs are loyal.";
       "loyal dogs. great cats. dogs are pets."]
      = Some (topic_keywords, W)
    /\ topic_keywords = ["cats dogs great loyal pets";
                         "pets cats dogs great loyal"].
Proof.
  intros s.
  destruct (@topic_modeling_keywords_ascending example_TfidfVectorizer
              example_NMF s
              ["cats are great pets. dogs are loyal.";
               "loyal dogs. great cats. dogs are pets."]
              [[1; 1; 1; 1; 1]; [1; 1; 1; 1; 1]]%Q
              [[1; 0]; [0; 1]]%Q
              [[0; 1; 2; 3; 4]; [1; 2; 3; 4; 0]]%Q
              example_terms eq_refl eq_refl)
    as (kws & E & _).
  - repeat constructor.
  - exists kws, [[1; 0]; [0; 1]]%Q. split; [exact E|].
    vm_compute in E. now injection E.
Defined.

(** C1 as the specification words it fails: with the terms [cats], [dogs]
    of weights 1 and 2 the code yields ["cats dogs"], the lighter term
    first, where descending order would give ["dogs cats"]. *)
Lemma topic_keyword_not_descending :
  TopicModeling.topic_keyword ["cats"; "dogs"] [1; 2]%Q
  <> Some (descending_top10 ["cats"; "dogs"] [1; 2]%Q).
Proof. vm_compute. discriminate. Qed.

(* ===================================================================== *)
(** ** Facts about the store *)
(* ===================================================================== *)

Lemma key_eqb_eq (k k' : video_key) : key_eqb k k' = true <-> k = k'.
Proof.
  destruct k as [[a p] v], k' as [[a' p'] v']. simpl.
  rewrite !andb_true_iff, !String.eqb_eq. split.
  - intros [[-> ->] ->]. reflexivity.
  - intros E. injection E as -> -> ->. auto.
Qed.

Lemma key_eq_dec (k k' : video_key) : {k = k'} + {k <> k'}.
Proof.
  destruct (key_eqb k k') eqn:E.
  - left. now apply key_eqb_eq.
  - right. intros Ek. apply key_eqb_eq in Ek. congruence.
Qed.

Lemma dict_get_set {V} (d : dict V) (k k' : string) (v : V) :
  dict_get (dict_set d k v) k'
  = if String.eqb k' k then Some v else dict_get d k'.
Proof.
  induction d as [|[k0 v0] d IH]; simpl.
  - destruct (String.eqb k' k); reflexivity.
  - destruct (String.eqb_spec k k0) as [-> | Hk]; simpl.
    + destruct (String.eqb k' k0); reflexivity.
    + destruct (String.eqb_spec k' k0) as [-> | Hk'].
      * destruct (String.eqb_spec k0 k); [congruence | reflexivity].
      * exact IH.
Qed.

Lemma dict_get_In {V} (d : dict V) (k : string) (v : V) :
  dict_get d k = Some v -> In (k, v) d.
Proof.
  induction d as [|[k0 v0] d IH]; simpl; [discriminate|].
  destruct (String.eqb_spec k k0) as [-> | Hk].
  - intros E. injection E as ->. now left.
  - intros E. right. now apply IH.
Qed.

Lemma dict_In_get {V} (d : dict V) (k : string) (v : V) :
  dict_wf d -> In (k, v) d -> dict_get d k = Some v.
Proof.
  unfold dict_wf, keys.
  induction d as [|[k0 v0] d IH]; simpl; [tauto|].
  intros Hnd [E | Hin].
  - injection E as -> ->. now rewrite String.eqb_refl.
  - inversion Hnd as [|? ? Hnotin Hnd']; subst.
    destruct (String.eqb_spec k k0) as [-> | Hk].
    + exfalso. apply Hnotin. change k0 with (fst (k0, v)). now apply in_map.
    + now apply IH.
Qed.

Lemma store_get_update (d d' : Store) (k k' : video_key)
    (upd : VideoRecord -> VideoRecord) :
  store_update d k upd = Some d' ->
  store_get d' k'
  = if key_eqb k' k then option_map upd (store_get d k') else store_get d k'.
Proof.
  destruct k as [[a p] v], k' as [[a' p'] v'].
  unfold store_update, store_get. simpl.
  destruct (dict_get d a) as [playlists|] eqn:Ea; simpl; [|discriminate].
  destruct (dict_get playlists p) as [videos|] eqn:Ep; simpl; [|discriminate].
  destruct (dict_get videos v) as [r|] eqn:Ev; simpl; [|discriminate].
  intros E. injection E as <-.
  rewrite dict_get_set.
  destruct (String.eqb_spec a' a) as [-> | Ha]; simpl.
  - rewrite Ea. simpl. rewrite dict_get_set.
    destruct (String.eqb_spec p' p) as [-> | Hp]; simpl.
    + rewrite Ep. simpl. rewrite dict_get_set.
      destruct (String.eqb_spec v' v) as [-> | Hv]; simpl.
      * now rewrite Ev.
      * reflexivity.
    + reflexivity.
  - reflexivity.
Qed.

Lemma store_update_Some (d : Store) (k : video_key)
    (upd : VideoRecord -> VideoRecord) :
  store_get d k <> None -> exists d', store_update d k upd = Some d'.
Proof.
  destruct k as [[a p] v]. unfold store_update, store_get.
  destruct (dict_get d a) as [playlists|]; simpl; [|congruence].
  destruct (dict_get playlists p) as [videos|]; simpl; [|congruence].
  destruct (dict_get videos v) as [r|]; simpl; [|congruence].
  intros _. eauto.
Qed.

Lemma store_items_In (d : Store) (a p v : string) (r : VideoRecord) :
  In ((a, p, v), r) (store_items d) <->
  exists playlists videos,
    In (a, playlists) d /\ In (p, videos) playlists /\ In (v, r) videos.
Proof.
  unfold store_items, items. rewrite in_flat_map. split.
  - intros ([a0 playlists] & Ha & Hin). rewrite in_flat_map in Hin.
    destruct Hin as ([p0 videos] & Hp & Hin).
    rewrite in_map_iff in Hin. destruct Hin as ([v0 r0] & E & Hv).
    injection E as -> -> -> ->. eauto.
  - intros (playlists & videos & Ha & Hp & Hv).
    exists (a, playlists). split; [exact Ha|].
    rewrite in_flat_map. exists (p, videos). split; [exact Hp|].
    rewrite in_map_iff. exists (v, r). now split.
Qed.

Lemma store_get_In (d : Store) (k : video_key) (r : VideoRecord) :
  store_get d k = Some r -> In (k, r) (store_items d).
Proof.
  destruct k as [[a p] v]. unfold store_get.
  destruct (dict_get d a) as [playlists|] eqn:Ea; simpl; [|discriminate].
  destruct (dict_get playlists p) as [videos|] eqn:Ep; simpl; [|discriminate].
  intros Ev. apply store_items_In.
  exists playlists, videos. auto using dict_get_In.
Qed.

Lemma store_In_get (d : Store) (k : video_key) (r : VideoRecord) :
  store_wf d -> In (k, r) (store_items d) -> store_get d k = Some r.
Proof.
  destruct k as [[a p] v]. intros [Hd Hall] Hin.
  apply store_items_In in Hin as (playlists & videos & Ha & Hp & Hv).
  rewrite Forall_forall in Hall.
  destruct (Hall _ Ha) as [Hpl Hall']. simpl in Hpl, Hall'.
  rewrite Forall_forall in Hall'. pose proof (Hall' _ Hp) as Hvs. simpl in Hvs.
  unfold store_get.
  rewrite (dict_In_get d a _ Hd Ha). simpl.
  rewrite (dict_In_get playlists p _ Hpl Hp). simpl.
  now apply dict_In_get.
Qed.

Lemma NoDup_flat_map_keys {X Y K : Type} (f : X -> list Y) (g : Y -> K)
    (h : X -> K -> Prop) (l : list X) :
  (forall x, In x l -> NoDup (map g (f x))) ->
  (forall x y, In x l -> In y (f x) -> h x (g y)) ->
  ForallOrdPairs (fun x x' => forall c, h x c -> h x' c -> False) l ->
  NoDup (map g (flat_map f l)).
Proof.
  intros Hnd Hh Hpairs.
  induction Hpairs as [|x l Hx Hp IH]; simpl; [constructor|].
  rewrite map_app. apply NoDup_app.
  - apply Hnd. now left.
  - apply IH; intros; [apply Hnd | eapply Hh]; eauto; now right.
  - intros c Hc1 Hc2.
    apply in_map_iff in Hc1 as (y & <- & Hy).
    apply in_map_iff in Hc2 as (y' & E & Hy').
    apply in_flat_map in Hy' as (x' & Hx' & Hy').
    rewrite Forall_forall in Hx.
    apply (Hx x' Hx' (g y)).
    + apply Hh; [now left | exact Hy].
    + rewrite <- E. apply Hh; [now right | exact Hy'].
Qed.

Lemma ForallOrdPairs_impl {X} (R R' : X -> X -> Prop) (l : list X) :
  (forall x y, R x y -> R' x y) -> ForallOrdPairs R l -> ForallOrdPairs R' l.
Proof.
  intros HR. induction 1 as [|x l Hx Hp IH]; constructor; auto.
  eapply Forall_impl; [|exact Hx]. auto.
Qed.

Lemma NoDup_keys_pairs {V} (d : dict V) :
  dict_wf d ->
  ForallOrdPairs (fun x x' : string * V => fst x <> fst x') d.
Proof.
  unfold dict_wf, keys.
  induction d as [|[k v] d IH]; simpl; intros Hnd; [constructor|].
  inversion Hnd as [|? ? Hnotin Hnd']; subst.
  constructor; [|now apply IH].
  rewrite Forall_forall. intros [k' v'] Hin E. simpl in E. subst k'.
  apply Hnotin. change k with (fst (k, v')). now apply in_map.
Qed.

Lemma store_items_NoDup (d : Store) :
  store_wf d -> NoDup (map fst (store_items d)).
Proof.
  intros [Hd Hall]. unfold store_items, items.
  apply NoDup_flat_map_keys
    with (h := fun (x : string * Playlists) (k : video_key) =>
                 fst (fst k) = fst x).
  - intros [a playlists] Ha.
    rewrite Forall_forall in Hall. destruct (Hall _ Ha) as [Hpl Hall'].
    simpl in Hpl, Hall'.
    apply NoDup_flat_map_keys
      with (h := fun (x : string * Videos) (k : video_key) =>
                   snd (fst k) = fst x).
    + intros [p videos] Hp.
      rewrite Forall_forall in Hall'. pose proof (Hall' _ Hp) as Hvs.
      simpl in Hvs. unfold dict_wf, keys in Hvs.
      rewrite map_map.
      match goal with
      | |- NoDup (map ?f videos) =>
          assert (E : map f videos = map (fun v => (a, p, v)) (map fst videos))
            by (rewrite map_map; apply map_ext; now intros [v r]);
          rewrite E
      end.
      apply Finite.Injective_map_NoDup; [|exact Hvs].
      intros v v' Ev. now injection Ev.
    + intros [p videos] y Hp Hy.
      apply in_map_iff in Hy as ([v r] & <- & _). reflexivity.
    + eapply ForallOrdPairs_impl; [|apply NoDup_keys_pairs, Hpl].
      intros x x' Hne c E1 E2. congruence.
  - intros [a playlists] y Ha Hy.
    apply in_flat_map in Hy as ([p videos] & _ & Hy).
    apply in_map_iff in Hy as ([v r] & <- & _). reflexivity.
  - eapply ForallOrdPairs_impl; [|apply NoDup_keys_pairs, Hd].
    intros x x' Hne c E1 E2. congruence.
Qed.

(* ===================================================================== *)
(** ** The assignment loop of the topic modelers *)
(* ===================================================================== *)

Lemma assign_fold_None (topic_of : nat -> option string)
    (l : list (nat * video_key)) :
  fold_left (assign_step topic_of) l None = None.
Proof. induction l as [|ik l IH]; simpl; auto. Qed.

Lemma assign_step_inv (topic_of : nat -> option string) (d : Store)
    (n : nat) (x : video_key) (l : list (nat * video_key)) (d' : Store) :
  fold_left (assign_step topic_of) ((n, x) :: l) (Some d) = Some d' ->
  exists t d1,
    topic_of n = Some t
    /\ store_update d x (fun r => set_topic r t) = Some d1
    /\ fold_left (assign_step topic_of) l (Some d1) = Some d'.
Proof.
  cbn [fold_left]. intros E.
  destruct (assign_step topic_of (Some d) (n, x)) as [d1|] eqn:Es;
    [|rewrite assign_fold_None in E; discriminate].
  unfold assign_step in Es. simpl in Es.
  destruct (topic_of n) as [t|]; simpl in Es; [|discriminate].
  exists t, d1. auto.
Qed.

Lemma store_update_inv (d d' : Store) (k : video_key)
    (upd : VideoRecord -> VideoRecord) :
  store_update d k upd = Some d' -> exists r, store_get d k = Some r.
Proof.
  destruct k as [[a p] v]. unfold store_update, store_get.
  destruct (dict_get d a) as [playlists|]; simpl; [|discriminate].
  destruct (dict_get playlists p) as [videos|]; simpl; [|discriminate].
  destruct (dict_get videos v) as [r|]; simpl; [|discriminate].
  eauto.
Qed.

(** After the loop a key that the map does not list has its record
    untouched, and a listed key has the topic of its last position. *)
Lemma assign_fold_get (topic_of : nat -> option string) :
  forall (l : list video_key) (n : nat) (d d' : Store),
    fold_left (assign_step topic_of) (combine (seq n (length l)) l) (Some d)
      = Some d' ->
    forall k,
      (~ In k l -> store_get d' k = store_get d k)
      /\ (forall i, last_position l k i ->
            exists t r, topic_of (n + i) = Some t
                        /\ store_get d k = Some r
                        /\ store_get d' k = Some (set_topic r t)).
Proof.
  induction l as [|x l IH]; intros n d d' E k.
  - simpl in E. injection E as <-. split; [reflexivity|].
    intros i [Hi _]. now destruct i.
  - cbn [length seq combine] in E.
    apply assign_step_inv in E as (t0 & d1 & Et & Eu & E).
    destruct (IH (S n) d1 d' E k) as [IHa IHb].
    pose proof (store_get_update d d1 x k _ Eu) as Hget.
    split.
    + intros Hnin. rewrite IHa by (intros Hin; apply Hnin; now right).
      rewrite Hget.
      destruct (key_eqb k x) eqn:Ek; [|reflexivity].
      apply key_eqb_eq in Ek. exfalso. apply Hnin. now left.
    + intros [|i] [Hi Hlast].
      * simpl in Hi. injection Hi as ->.
        destruct (store_update_inv _ _ _ _ Eu) as [r Er].
        exists t0, r. rewrite Nat.add_0_r. split; [exact Et|].
        split; [exact Er|].
        rewrite IHa.
        -- rewrite Hget, (proj2 (key_eqb_eq k k) eq_refl), Er. reflexivity.
        -- intros Hin. apply In_nth_error in Hin as [j Hj].
           apply (Hlast (S j)); [lia | exact Hj].
      * simpl in Hi.
        destruct (IHb i) as (t & r1 & Et' & Er1 & Eg).
        { split; [exact Hi|]. intros j Hj. apply (Hlast (S j)). lia. }
        rewrite Hget in Er1.
        destruct (key_eqb k x).
        -- destruct (store_get d k) as [r|]; simpl in Er1; [|discriminate].
           injection Er1 as <-.
           exists t, r. rewrite Nat.add_succ_r. auto.
        -- exists t, r1. rewrite Nat.add_succ_r. auto.
Qed.

Lemma assign_fold_topic_of (topic_of : nat -> option string) :
  forall (l : list video_key) (n : nat) (d d' : Store),
    fold_left (assign_step topic_of) (combine (seq n (length l)) l) (Some d)
      = Some d' ->
    forall i, i < length l -> topic_of (n + i) <> None.
Proof.
  induction l as [|x l IH]; intros n d d' E i Hi; [simpl in Hi; lia|].
  cbn [length seq combine] in E.
  apply assign_step_inv in E as (t0 & d1 & Et & Eu & E).
  destruct i as [|i].
  - rewrite Nat.add_0_r. congruence.
  - rewrite Nat.add_succ_r. apply (IH (S n) d1 d' E). simpl in Hi. lia.
Qed.

Lemma last_position_exists (l : list video_key) (k : video_key) :
  In k l -> exists i, last_position l k i.
Proof.
  induction l as [|x l IH]; simpl; [tauto|].
  intros Hin.
  destruct (in_dec key_eq_dec k l) as [Hl | Hl].
  - destruct (IH Hl) as (i & Hi & Hlast). exists (S i). split; [exact Hi|].
    intros [|j] Hj; [lia|]. simpl. apply Hlast. lia.
  - destruct Hin as [-> | Hin]; [|contradiction].
    exists 0. split; [reflexivity|].
    intros [|j] Hj; [lia|]. simpl. intros Ej. apply Hl.
    eapply nth_error_In; eauto.
Qed.

(** The loop changes no captions and no comments, and neither adds nor
    removes a video. *)
Lemma assign_fold_frame (topic_of : nat -> option string) :
  forall (l : list (nat * video_key)) (d d' : Store),
    fold_left (assign_step topic_of) l (Some d) = Some d' ->
    forall k,
      match store_get d k, store_get d' k with
      | Some r, Some r' => same_but_topic r r'
      | None, None => True
      | _, _ => False
      end.
Proof.
  induction l as [|[n x] l IH]; intros d d' E k.
  - simpl in E. injection E as <-.
    destruct (store_get d k); [split; reflexivity | exact I].
  - apply assign_step_inv in E as (t0 & d1 & Et & Eu & E).
    specialize (IH d1 d' E k).
    rewrite (store_get_update d d1 x k _ Eu) in IH.
    destruct (key_eqb k x); [|exact IH].
    destruct (store_get d k) as [r|]; simpl in IH; [|exact IH].
    destruct (store_get d' k) as [r'|]; [|exact IH].
    destruct IH as [Hc Hm]. split; [exact Hc | exact Hm].
Qed.

(** The loop runs to its end when every index has a topic and every key of
    the map is in the store. *)
Lemma assign_fold_Some (topic_of : nat -> option string) :
  forall (l : list video_key) (n : nat) (d : Store),
    (forall i, i < length l -> topic_of (n + i) <> None) ->
    (forall k, In k l -> store_get d k <> None) ->
    exists d',
      fold_left (assign_step topic_of) (combine (seq n (length l)) l) (Some d)
        = Some d'.
Proof.
  induction l as [|x l IH]; intros n d Ht Hk.
  - exists d. reflexivity.
  - destruct (topic_of n) as [t|] eqn:Et.
    2:{ exfalso. apply (Ht 0); [simpl; lia | now rewrite Nat.add_0_r]. }
    destruct (store_update_Some d x (fun r => set_topic r t)) as [d1 Eu].
    { apply Hk. now left. }
    assert (Es : assign_step topic_of (Some d) (n, x) = Some d1).
    { unfold assign_step. simpl. rewrite Et. simpl. exact Eu. }
    cbn [length seq combine fold_left]. rewrite Es. apply IH.
    + intros i Hi. rewrite Nat.add_succ_l, <- Nat.add_succ_r.
      apply Ht. simpl. lia.
    + intros k Hin. rewrite (store_get_update d d1 x k _ Eu).
      destruct (key_eqb k x).
      * destruct (store_get d k) eqn:Eg; [discriminate|].
        exfalso. apply (Hk k); [now right | exact Eg].
      * apply Hk. now right.
Qed.

Lemma fold_left_ext_eq {A B} (f g : A -> B -> A) (l : list B) (a : A) :
  (forall x y, f x y = g x y) -> fold_left f l a = fold_left g l a.
Proof.
  intros Hfg. revert a. induction l as [|b l IH]; intros a; simpl;
    [reflexivity|].
  now rewrite Hfg, IH.
Qed.

Lemma nmf_assign_topics_fold (d : Store) (video_id_map : list video_key)
    (W : list (list weight)) (topic_keywords : list string) :
  TopicModeling.assign_topics d video_id_map W topic_keywords
  = fold_left (assign_step (nmf_topic_of W topic_keywords))
      (enumerate video_id_map) (Some d).
Proof.
  unfold TopicModeling.assign_topics. apply fold_left_ext_eq.
  intros [data|] [i key]; [|reflexivity].
  unfold assign_step, nmf_topic_of. simpl.
  destruct (index W i) as [row|]; [|reflexivity]. simpl.
  now destruct (argmax weight_leb row).
Qed.

Lemma bert_assign_topics_fold (d : Store) (video_id_map : list video_key)
    (kmeans_labels : list nat) (topic_keywords : list (list string)) :
  TopicModelingBERT.assign_topics d video_id_map kmeans_labels topic_keywords
  = fold_left (assign_step (bert_topic_of kmeans_labels topic_keywords))
      (enumerate video_id_map) (Some d).
Proof.
  unfold TopicModelingBERT.assign_topics. apply fold_left_ext_eq.
  intros [data|] [i key]; [|reflexivity].
  unfold assign_step, bert_topic_of. simpl.
  destruct (index kmeans_labels i) as [label|]; [|reflexivity]. simpl.
  now destruct (index topic_keywords label).
Qed.

(** ** [extract_captions] of the NMF modeler, in closed form *)

Lemma nmf_extract_captions_eq (d : Store) :
  TopicModeling.extract_captions d
  = (map (fun kr => strip (get_captions (snd kr)))
         (filter has_caption (store_items d)),
     map fst (filter has_caption (store_items d))).
Proof.
  unfold TopicModeling.extract_captions.
  assert (G : forall l c m,
    fold_left
      (fun '(captions_list, video_id_map) '(key, video_data) =>
         let captions := strip (get_captions video_data) in
         if truthy captions
         then (captions_list ++ [captions], video_id_map ++ [key])
         else (captions_list, video_id_map)) l (c, m)
    = (c ++ map (fun kr => strip (get_captions (snd kr)))
              (filter has_caption l),
       m ++ map fst (filter has_caption l))).
  { induction l as [|[k r] l IH]; intros c m; simpl.
    - now rewrite !app_nil_r.
    - replace (has_caption (k, r)) with (truthy (strip (get_captions r)))
        by reflexivity.
      destruct (truthy (strip (get_captions r))); simpl.
      + rewrite IH, <- !app_assoc. reflexivity.
      + apply IH. }
  apply (G _ [] []).
Qed.

Lemma NoDup_map_filter {X K} (g : X -> K) (f : X -> bool) (l : list X) :
  NoDup (map g l) -> NoDup (map g (filter f l)).
Proof.
  induction l as [|x l IH]; simpl; intros Hnd; [constructor|].
  inversion Hnd as [|? ? Hnotin Hnd']; subst.
  destruct (f x); simpl; [|now apply IH].
  constructor; [|now apply IH].
  intros Hin. apply Hnotin.
  apply in_map_iff in Hin as (y & E & Hy). apply filter_In in Hy as [Hy _].
  rewrite <- E. now apply in_map.
Qed.

Lemma NoDup_last_position {X} (l : list X) (k : X) (i : nat) :
  NoDup l -> nth_error l i = Some k -> last_position l k i.
Proof.
  intros Hnd Hi. split; [exact Hi|].
  intros j Hj Ej.
  assert (Hlt : i < length l) by (apply nth_error_Some; congruence).
  rewrite NoDup_nth_error in Hnd.
  specialize (Hnd i j Hlt). rewrite Hi, Ej in Hnd.
  specialize (Hnd eq_refl). lia.
Qed.

Lemma Forall2_nth_error_r {X Y} (R : X -> Y -> Prop) (l : list X) (l' : list Y)
    (b : nat) (y : Y) :
  Forall2 R l l' -> nth_error l' b = Some y ->
  exists x, nth_error l b = Some x /\ R x y.
Proof.
  intros F. revert b. induction F as [|x0 y0 l l' HR F IH]; intros [|b] Hb;
    simpl in *; try discriminate.
  - injection Hb as ->. eauto.
  - now apply IH.
Qed.

Lemma Forall2_length_eq {X Y} (R : X -> Y -> Prop) (l : list X) (l' : list Y) :
  Forall2 R l l' -> length l = length l'.
Proof. induction 1; simpl; congruence. Qed.

Section ArgmaxFacts.
Context {A : Type} (leb : A -> A -> bool).
Hypothesis leb_total : forall x y, leb x y = false -> leb y x = true.
Hypothesis leb_trans :
  forall x y z, leb x y = true -> leb y z = true -> leb x z = true.

Lemma leb_refl_of_total x : leb x x = true.
Proof.
  destruct (leb x x) eqn:E; [reflexivity|].
  pose proof (leb_total x x E). congruence.
Qed.

Lemma argmax_from_spec (l : list A) :
  forall best_i best i, best_i < i ->
    let b := argmax_from leb best_i best i l in
    exists vb,
      ((b = best_i /\ vb = best) \/ (i <= b /\ nth_error l (b - i) = Some vb))
      /\ leb best vb = true
      /\ forall x, In x l -> leb x vb = true.
Proof.
  induction l as [|x l IH]; intros best_i best i Hlt; simpl.
  - exists best. split; [now left|]. split; [apply leb_refl_of_total | tauto].
  - destruct (leb x best) eqn:E.
    + destruct (IH best_i best (S i)) as (vb & Hb & Hle & Hall); [lia|].
      exists vb. split; [|split; [exact Hle|]].
      * destruct Hb as [Hb | [Hge Hn]]; [now left | right].
        split; [lia|].
        replace (argmax_from leb best_i best (S i) l - i)
          with (S (argmax_from leb best_i best (S i) l - S i)) by lia.
        exact Hn.
      * intros y [<- | Hy]; [eapply leb_trans; eauto | now apply Hall].
    + destruct (IH i x (S i)) as (vb & Hb & Hle & Hall); [lia|].
      exists vb. split; [|split].
      * right. destruct Hb as [[Hb ->] | [Hge Hn]].
        -- rewrite Hb, Nat.sub_diag. split; [lia | reflexivity].
        -- split; [lia|].
           replace (argmax_from leb i x (S i) l - i)
             with (S (argmax_from leb i x (S i) l - S i)) by lia.
           exact Hn.
      * eapply leb_trans; [|exact Hle]. now apply leb_total.
      * intros y [<- | Hy]; [exact Hle | now apply Hall].
Qed.

Lemma argmax_spec (a : list A) (b : nat) :
  argmax leb a = Some b ->
  exists vb, nth_error a b = Some vb /\ forall x, In x a -> leb x vb = true.
Proof.
  destruct a as [|x l]; simpl; [discriminate|].
  intros E. injection E as <-.
  destruct (argmax_from_spec l 0 x 1) as (vb & Hb & Hle & Hall); [lia|].
  exists vb. split.
  - destruct Hb as [[-> ->] | [Hge Hn]]; [reflexivity|].
    destruct (argmax_from leb 0 x 1 l) as [|b]; [lia|].
    simpl in *. now rewrite Nat.sub_0_r in Hn.
  - intros y [<- | Hy]; [exact Hle | now apply Hall].
Qed.

Lemma argmax_Some (a : list A) : a <> [] -> exists b, argmax leb a = Some b.
Proof. destruct a; [congruence | simpl; eauto]. Qed.
End ArgmaxFacts.

(** Among equal maxima [argmax] takes the first. *)
Section ArgmaxFirst.
Context {A : Type} (leb : A -> A -> bool).
Hypothesis leb_total : forall x y, leb x y = false -> leb y x = true.
Hypothesis leb_trans :
  forall x y z, leb x y = true -> leb y z = true -> leb x z = true.

Lemma argmax_from_first (l : list A) :
  forall best_i best i, best_i < i ->
    let b := argmax_from leb best_i best i l in
    exists vb,
      ((b = best_i /\ vb = best)
       \/ (i <= b /\ nth_error l (b - i) = Some vb /\ leb vb best = false))
      /\ forall j x, i + j < b -> nth_error l j = Some x -> leb vb x = false.
Proof.
  induction l as [|x l IH]; intros best_i best i Hlt; simpl.
  - exists best. split; [now left|]. intros j y Hj. lia.
  - destruct (leb x best) eqn:E.
    + destruct (IH best_i best (S i)) as (vb & Hb & Hbefore); [lia|].
      exists vb. split.
      * destruct Hb as [Hb | (Hge & Hn & Hgt)]; [now left | right].
        split; [lia|]. split; [|exact Hgt].
        replace (argmax_from leb best_i best (S i) l - i)
          with (S (argmax_from leb best_i best (S i) l - S i)) by lia.
        exact Hn.
      * intros [|j] y Hj Hy; simpl in Hy.
        -- injection Hy as <-.
           destruct Hb as [[Hb _] | (_ & _ & Hgt)]; [lia|].
           destruct (leb vb x) eqn:Evx; [|reflexivity].
           rewrite (leb_trans _ _ _ Evx E) in Hgt. discriminate.
        -- apply (Hbefore j y); [lia | exact Hy].
    + destruct (IH i x (S i)) as (vb & Hb & Hbefore); [lia|].
      exists vb. split.
      * right. destruct Hb as [[Hb ->] | (Hge & Hn & Hgt)].
        -- rewrite Hb, Nat.sub_diag. split; [lia|]. split; [reflexivity|].
           exact E.
        -- split; [lia|]. split.
           ++ replace (argmax_from leb i x (S i) l - i)
                with (S (argmax_from leb i x (S i) l - S i)) by lia.
              exact Hn.
           ++ destruct (leb vb best) eqn:Evb; [|reflexivity].
              pose proof (leb_total _ _ Hgt) as Hxv.
              rewrite (leb_trans _ _ _ Hxv Evb) in E. discriminate.
      * intros [|j] y Hj Hy; simpl in Hy.
        -- injection Hy as <-.
           destruct Hb as [[Hb _] | (_ & _ & Hgt)]; [lia | exact Hgt].
        -- apply (Hbefore j y); [lia | exact Hy].
Qed.

Lemma argmax_first (a : list A) (b : nat) (vb : A) :
  argmax leb a = Some b -> nth_error a b = Some vb ->
  forall j x, j < b -> nth_error a j = Some x -> leb vb x = false.
Proof.
  destruct a as [|x0 l]; simpl; [discriminate|].
  intros E Hvb j x Hj Hx. injection E as <-.
  destruct (argmax_from_first l 0 x0 1) as (v & Hb & Hbefore); [lia|].
  destruct Hb as [[Hb _] | (Hge & Hn & Hgt)]; [lia|].
  destruct (argmax_from leb 0 x0 1 l) as [|b]; [lia|].
  simpl in Hvb, Hn. rewrite Nat.sub_0_r in Hn.
  assert (v = vb) by congruence. subst v.
  destruct j as [|j]; simpl in Hx.
  - injection Hx as <-. exact Hgt.
  - apply (Hbefore j x); [lia | exact Hx].
Qed.
End ArgmaxFirst.

Lemma argmax_is_argmax (row : list weight) (b : nat) :
  argmax weight_leb row = Some b -> is_argmax row b.
Proof.
  intros E.
  destruct (argmax_spec weight_leb weight_leb_total weight_leb_trans row b E)
    as (vb & Hb & Hall).
  split.
  - apply nth_error_Some. congruence.
  - intros j Hj. unfold weight_at.
    rewrite (nth_error_nth row b 0%Q Hb).
    apply Qle_bool_iff. apply Hall. now apply nth_In.
Qed.

(* ===================================================================== *)
(** ** [assign_topics] of the NMF modeler *)
(* ===================================================================== *)

Lemma nmf_map_in_store (d : Store) (k : video_key) :
  store_wf d -> In k (snd (TopicModeling.extract_captions d)) ->
  exists r, store_get d k = Some r /\ has_caption (k, r) = true.
Proof.
  intros Hwf Hin. rewrite nmf_extract_captions_eq in Hin. simpl in Hin.
  apply in_map_iff in Hin as ([k' r] & E & Hin). simpl in E. subst k'.
  apply filter_In in Hin as [Hin Hc].
  exists r. split; [now apply store_In_get | exact Hc].
Qed.

Lemma nmf_caption_position (d : Store) (k : video_key) (r : VideoRecord) :
  store_wf d -> store_get d k = Some r -> has_caption (k, r) = true ->
  exists i,
    last_position (snd (TopicModeling.extract_captions d)) k i
    /\ nth_error (fst (TopicModeling.extract_captions d)) i
       = Some (strip (get_captions r)).
Proof.
  intros Hwf Hget Hc. rewrite nmf_extract_captions_eq. simpl.
  assert (Hin : In (k, r) (filter has_caption (store_items d))).
  { apply filter_In. split; [now apply store_get_In | exact Hc]. }
  apply In_nth_error in Hin as [i Hi]. exists i. split.
  - apply NoDup_last_position.
    + apply NoDup_map_filter, store_items_NoDup, Hwf.
    + now apply (map_nth_error fst) in Hi.
  - now apply (map_nth_error (fun kr => strip (get_captions (snd kr)))) in Hi.
Qed.

Lemma nmf_assign_topics_spec (d : Store) (W : list (list weight))
    (topic_keywords : list string) :
  store_wf d ->
  length W = length (fst (TopicModeling.extract_captions d)) ->
  Forall (fun row => row <> [] /\ length row <= length topic_keywords) W ->
  exists d',
    TopicModeling.assign_topics d (snd (TopicModeling.extract_captions d))
      W topic_keywords = Some d'
    /\ forall k r,
         store_get d k = Some r -> has_caption (k, r) = true ->
         exists i row b keyword,
           last_position (snd (TopicModeling.extract_captions d)) k i
           /\ nth_error (fst (TopicModeling.extract_captions d)) i
              = Some (strip (get_captions r))
           /\ nth_error W i = Some row
           /\ argmax weight_leb row = Some b
           /\ nth_error topic_keywords b = Some keyword
           /\ store_get d' k = Some (set_topic r keyword).
Proof.
  intros Hwf HW Hrows.
  assert (Hlen : length (fst (TopicModeling.extract_captions d))
                 = length (snd (TopicModeling.extract_captions d))).
  { rewrite nmf_extract_captions_eq. simpl. now rewrite !length_map. }
  rewrite nmf_assign_topics_fold. unfold enumerate.
  destruct (assign_fold_Some
              (nmf_topic_of W topic_keywords)
              (snd (TopicModeling.extract_captions d)) 0 d) as [d' E].
  - intros i Hi. simpl. unfold nmf_topic_of, index.
    destruct (nth_error W i) as [row|] eqn:Erow.
    2:{ apply nth_error_None in Erow. lia. }
    simpl. rewrite Forall_forall in Hrows.
    destruct (Hrows row (nth_error_In _ _ Erow)) as [Hne Hle].
    destruct (argmax_Some weight_leb row Hne) as [b Eb]. rewrite Eb. simpl.
    apply argmax_is_argmax in Eb as [Hb _].
    apply nth_error_Some. lia.
  - intros k Hin. destruct (nmf_map_in_store d k Hwf Hin) as (r & -> & _).
    discriminate.
  - exists d'. split; [exact E|].
    intros k r Hget Hc.
    destruct (nmf_caption_position d k r Hwf Hget Hc) as (i & Hlast & Hcap).
    destruct (assign_fold_get _ _ _ _ _ E k) as [_ Hb].
    destruct (Hb i Hlast) as (t & r0 & Et & Er0 & Eg). simpl in Et.
    rewrite Hget in Er0. injection Er0 as <-.
    unfold nmf_topic_of, index in Et.
    destruct (nth_error W i) as [row|] eqn:Erow; simpl in Et; [|discriminate].
    destruct (argmax weight_leb row) as [b|] eqn:Eb; simpl in Et;
      [|discriminate].
    exists i, row, b, t.
    split; [exact Hlast|]. split; [exact Hcap|].
    split; [exact Erow|]. split; [exact Eb|].
    split; [exact Et | exact Eg].
Qed.

Section NMFRun.
Context `{RT : Runtime}.
Variable TfidfVectorizer :
  string -> nat -> list string -> option (list (list weight) * list string).
Variable NMF :
  nat -> Z -> list (list weight)
  -> option (list (list weight) * list (list weight)).

Lemma NoDup_map_singleton {X K} (g : X -> K) (l : list X) (a : X) :
  NoDup (map g l) -> (forall x, In x l -> g x = g a) -> In a l -> l = [a].
Proof.
  destruct l as [|x [|y l]]; simpl; intros Hnd Hall Hin.
  - contradiction.
  - destruct Hin as [-> | []]. reflexivity.
  - exfalso. inversion Hnd as [|? ? Hn _]; subst. apply Hn. left.
    rewrite (Hall y), (Hall x); auto.
Qed.

(** C7.  In a run of the NMF modeler where the libraries answer with
    matrices of the promised shapes, the run returns and saves, and every
    video that contributes a caption has, afterwards, the keyword string
    that [topic_modeling] made for the topic [b] at which the video's row
    of [W] is largest (the first such topic, when there are several):
    entry [b] of the keyword strings, which joins by spaces the terms of
    the ten highest weights of row [b] of [H].  Where
    the terms of the vectorizer are present in the documents it was given,
    every term of the string is present in the caption of a video of the
    store; and when the video is the only one with a caption, the
    vectorizer was given its caption alone and every term of the string
    is present in that caption. *)
Theorem run_assigns_argmax_topic (s : TopicModeling.self) (w : World)
    (X W H : list (list weight)) (terms : list string) :
  let captions_list :=
    fst (TopicModeling.extract_captions (TopicModeling.data s)) in
  let video_id_map :=
    snd (TopicModeling.extract_captions (TopicModeling.data s)) in
  store_wf (TopicModeling.data s) ->
  captions_list <> [] ->
  TfidfVectorizer "english" 1000 captions_list = Some (X, terms) ->
  NMF (TopicModeling.num_topics s) 42%Z X = Some (W, H) ->
  length W = length captions_list ->
  Forall (fun row => row <> [] /\ length row = length H) W ->
  Forall (fun topic => length topic = length terms) H ->
  exists topic_keywords data',
    TopicModeling.topic_modeling TfidfVectorizer NMF s captions_list
      = Some (topic_keywords, W)
    /\ TopicModeling.run TfidfVectorizer NMF s w
       = Returned data'
           (save_data TopicsSaved (TopicModeling.json_file s) data' w)
    /\ forall k r,
         store_get (TopicModeling.data s) k = Some r ->
         has_caption (k, r) = true ->
         exists i row b topic keyword idxs,
           last_position video_id_map k i
           /\ nth_error captions_list i = Some (strip (get_captions r))
           /\ nth_error W i = Some row
           /\ is_argmax row b
           /\ (forall j, j < b -> (weight_at row j < weight_at row b)%Q)
           /\ nth_error H b = Some topic
           /\ nth_error topic_keywords b = Some keyword
           /\ ascending_top 10 topic idxs
           /\ keyword = join " " (map (term_at terms) idxs)
           /\ store_get data' k = Some (set_topic r keyword)
           /\ ((forall k2 r2,
                  store_get (TopicModeling.data s) k2 = Some r2 ->
                  has_caption (k2, r2) = true -> k2 = k) ->
               captions_list = [strip (get_captions r)])
           /\ (Forall (fun term =>
                         exists doc,
                           In doc captions_list
                           /\ present_in term doc = true) terms ->
               Forall (fun j =>
                         exists k2 r2,
                           store_get (TopicModeling.data s) k2 = Some r2
                           /\ has_caption (k2, r2) = true
                           /\ present_in (term_at terms j)
                                (strip (get_captions r2)) = true) idxs
               /\ ((forall k2 r2,
                      store_get (TopicModeling.data s) k2 = Some r2 ->
                      has_caption (k2, r2) = true -> k2 = k) ->
                   Forall (fun j =>
                             present_in (term_at terms j)
                               (strip (get_captions r)) = true) idxs)).
Proof.
  intros captions_list video_id_map Hwf Hne HX HN HW Hrows Hcols.
  destruct (topic_keywords_spec terms H Hcols) as (kws & Ekw & F).
  assert (Etm : TopicModeling.topic_modeling TfidfVectorizer NMF s captions_list
                = Some (kws, W)).
  { unfold TopicModeling.topic_modeling.
    rewrite HX. simpl. rewrite HN. simpl. rewrite Ekw. reflexivity. }
  pose proof (Forall2_length_eq _ _ _ F) as HlenH.
  destruct (nmf_assign_topics_spec (TopicModeling.data s) W kws Hwf HW)
    as (d' & Ea & Hk).
  { eapply Forall_impl; [|exact Hrows]. intros row [Hr Hl]. split; [exact Hr|].
    rewrite <- HlenH, Hl. lia. }
  exists kws, d'. split; [exact Etm|]. split.
  { unfold TopicModeling.run.
    subst captions_list video_id_map.
    destruct (TopicModeling.extract_captions (TopicModeling.data s))
      as [cl vmap]. simpl in *.
    destruct cl as [|c cl]; [congruence|].
    rewrite Etm, Ea. reflexivity. }
  intros k r Hget Hc.
  destruct (Hk k r Hget Hc)
    as (i & row & b & kw & H1 & H2 & H3 & H4 & H5 & H6).
  destruct (Forall2_nth_error_r _ _ _ _ _ F H5)
    as (topic & Ht & idxs & Ekey & Hi).
  assert (Hgen : Forall (fun term =>
                           exists doc,
                             In doc captions_list
                             /\ present_in term doc = true) terms ->
                 Forall (fun j =>
                           exists k2 r2,
                             store_get (TopicModeling.data s) k2 = Some r2
                             /\ has_caption (k2, r2) = true
                             /\ present_in (term_at terms j)
                                  (strip (get_captions r2)) = true) idxs).
  { intros Hvoc. rewrite Forall_forall in *. intros j Hj.
    destruct Hi as (_ & _ & Hrange & _).
    assert (Hlt : j < length terms).
    { rewrite <- (Hcols topic (nth_error_In _ _ Ht)). now apply Hrange. }
    destruct (Hvoc (term_at terms j)) as (doc & Hdoc & Hp).
    { unfold term_at. now apply nth_In. }
    unfold captions_list in Hdoc.
    rewrite nmf_extract_captions_eq in Hdoc. simpl in Hdoc.
    apply in_map_iff in Hdoc as ([k2 r2] & <- & Hin2).
    apply filter_In in Hin2 as [Hin2 Hc2].
    exists k2, r2. split; [now apply store_In_get|]. split; assumption. }
  exists i, row, b, topic, kw, idxs.
  split; [exact H1|]. split; [exact H2|]. split; [exact H3|].
  pose proof (argmax_is_argmax row b H4) as Hmax.
  split; [exact Hmax|]. split.
  { intros j Hj. destruct Hmax as [Hb _].
    destruct (nth_error row b) as [vb|] eqn:Evb.
    2:{ apply nth_error_None in Evb. lia. }
    destruct (nth_error row j) as [x|] eqn:Ex.
    2:{ apply nth_error_None in Ex. lia. }
    pose proof (argmax_first weight_leb weight_leb_total weight_leb_trans
                  row b vb H4 Evb j x Hj Ex) as Hlt.
    unfold weight_at.
    rewrite (nth_error_nth row b 0%Q Evb), (nth_error_nth row j 0%Q Ex).
    apply Qnot_le_lt. intros Hle. apply Qle_bool_iff in Hle.
    unfold weight_leb in Hlt. congruence. }
  split; [exact Ht|]. split; [exact H5|]. split; [exact Hi|].
  split; [exact Ekey|]. split; [exact H6|]. split.
  - intros Honly. unfold captions_list.
    rewrite nmf_extract_captions_eq. simpl.
    rewrite (NoDup_map_singleton fst
               (filter has_caption (store_items (TopicModeling.data s)))
               (k, r)); [reflexivity | | |].
    + apply NoDup_map_filter, store_items_NoDup, Hwf.
    + intros [k2 r2] Hin2. apply filter_In in Hin2 as [Hin2 Hc2]. simpl.
      apply (Honly k2 r2); [now apply store_In_get | exact Hc2].
    + apply filter_In. split; [now apply store_get_In | exact Hc].
  - intros Hvoc. split; [now apply Hgen|].
    intros Honly. specialize (Hgen Hvoc).
    rewrite Forall_forall in *. intros j Hj.
    destruct (Hgen j Hj) as (k2 & r2 & Hget2 & Hc2 & Hp).
    assert (k2 = k) by now apply (Honly k2 r2). subst k2.
    assert (r2 = r) by congruence. now subst r2.
Qed.
End NMFRun.

(* ===================================================================== *)
(** ** The embedding modeler: sentences and their videos *)
(* ===================================================================== *)

Section BERTFacts.
Variable sent_tokenize : string -> list string.

Lemma fold_append_key (key : video_key) (sentences : list string)
    (m : list video_key) :
  fold_left (fun m _ => m ++ [key]) sentences m
  = m ++ repeat key (length sentences).
Proof.
  revert m. induction sentences as [|x l IH]; intros m; simpl.
  - now rewrite app_nil_r.
  - rewrite IH, <- app_assoc. reflexivity.
Qed.

Lemma bert_extract_captions_eq (d : Store) :
  TopicModelingBERT.extract_captions sent_tokenize d
  = (flat_map (sentences_of sent_tokenize) (filter has_caption (store_items d)),
     flat_map (owners_of sent_tokenize) (filter has_caption (store_items d))).
Proof.
  unfold TopicModelingBERT.extract_captions.
  assert (G : forall l c m,
    fold_left
      (fun '(captions_list, video_id_map) '(key, video_data) =>
         let captions := strip (get_captions video_data) in
         if truthy captions
         then
           let sentences := sent_tokenize captions in
           (captions_list ++ sentences,
            fold_left (fun m _ => m ++ [key]) sentences video_id_map)
         else (captions_list, video_id_map)) l (c, m)
    = (c ++ flat_map (sentences_of sent_tokenize) (filter has_caption l),
       m ++ flat_map (owners_of sent_tokenize) (filter has_caption l))).
  { induction l as [|[k r] l IH]; intros c m; simpl.
    - now rewrite !app_nil_r.
    - replace (has_caption (k, r)) with (truthy (strip (get_captions r)))
        by reflexivity.
      destruct (truthy (strip (get_captions r))); simpl.
      + rewrite IH, fold_append_key, <- !app_assoc. reflexivity.
      + apply IH. }
  apply (G _ [] []).
Qed.

Lemma sentences_owners_length (l : list (video_key * VideoRecord)) :
  length (flat_map (sentences_of sent_tokenize) l)
  = length (flat_map (owners_of sent_tokenize) l).
Proof.
  induction l as [|kr l IH]; simpl; [reflexivity|].
  rewrite !length_app, IH. unfold owners_of. now rewrite repeat_length.
Qed.

Lemma owners_of_In (l : list (video_key * VideoRecord)) (k : video_key) :
  In k (flat_map (owners_of sent_tokenize) l) -> In k (map fst l).
Proof.
  intros Hin. apply in_flat_map in Hin as (kr & Hkr & Hin).
  apply repeat_spec in Hin. subst k. now apply in_map.
Qed.

Lemma nth_error_last {X} (l : list X) (d : X) :
  l <> [] -> nth_error l (length l - 1) = Some (last l d).
Proof.
  induction l as [|x l IH]; [congruence|]. intros _.
  destruct l as [|y l]; [reflexivity|].
  replace (length (x :: y :: l) - 1) with (S (length (y :: l) - 1))
    by (simpl; lia).
  change (last (x :: y :: l) d) with (last (y :: l) d).
  apply IH. discriminate.
Qed.

(** The sentences of one video are consecutive in the captions list; the
    last of them sits at the last position of the video in the map. *)
Lemma bert_caption_position (d : Store) (k : video_key) (r : VideoRecord) :
  store_wf d -> store_get d k = Some r -> has_caption (k, r) = true ->
  sentences_of sent_tokenize (k, r) <> [] ->
  exists i,
    last_position (snd (TopicModelingBERT.extract_captions sent_tokenize d)) k i
    /\ nth_error (fst (TopicModelingBERT.extract_captions sent_tokenize d)) i
       = Some (last (sentences_of sent_tokenize (k, r)) "").
Proof.
  intros Hwf Hget Hc Hne. rewrite bert_extract_captions_eq. simpl.
  assert (Hin : In (k, r) (filter has_caption (store_items d))).
  { apply filter_In. split; [now apply store_get_In | exact Hc]. }
  assert (Hnd : NoDup (map fst (filter has_caption (store_items d))))
    by apply NoDup_map_filter, store_items_NoDup, Hwf.
  apply in_split in Hin as (pre & post & E). rewrite E in *.
  rewrite map_app in Hnd. simpl in Hnd.
  apply NoDup_remove_2 in Hnd.
  rewrite !flat_map_app. simpl.
  set (n := length (sentences_of sent_tokenize (k, r))).
  assert (Hn : 0 < n).
  { unfold n.
    destruct (sentences_of sent_tokenize (k, r)); [congruence | simpl; lia]. }
  assert (Hlo : length (owners_of sent_tokenize (k, r)) = n)
    by apply repeat_length.
  exists (length (flat_map (owners_of sent_tokenize) pre) + (n - 1)).
  split; [split|].
  - rewrite nth_error_app2 by lia.
    replace (length (flat_map (owners_of sent_tokenize) pre) + (n - 1)
             - length (flat_map (owners_of sent_tokenize) pre))
      with (n - 1) by lia.
    rewrite nth_error_app1 by lia.
    apply (nth_error_repeat k). fold n. lia.
  - intros j Hj Ej.
    rewrite nth_error_app2 in Ej by lia.
    rewrite nth_error_app2 in Ej by lia.
    apply nth_error_In, owners_of_In in Ej.
    apply Hnd. apply in_or_app. now right.
  - rewrite <- sentences_owners_length.
    rewrite nth_error_app2 by lia.
    replace (length (flat_map (sentences_of sent_tokenize) pre) + (n - 1)
             - length (flat_map (sentences_of sent_tokenize) pre))
      with (n - 1) by lia.
    rewrite nth_error_app1 by (fold n; lia).
    now apply nth_error_last.
Qed.

Lemma bert_map_in_store (d : Store) (k : video_key) :
  store_wf d ->
  In k (snd (TopicModelingBERT.extract_captions sent_tokenize d)) ->
  exists r, store_get d k = Some r /\ has_caption (k, r) = true.
Proof.
  intros Hwf Hin. rewrite bert_extract_captions_eq in Hin. simpl in Hin.
  apply owners_of_In in Hin.
  apply in_map_iff in Hin as ([k' r] & E & Hin). simpl in E. subst k'.
  apply filter_In in Hin as [Hin Hc].
  exists r. split; [now apply store_In_get | exact Hc].
Qed.
End BERTFacts.

Section BERTAssign.
Variable sent_tokenize : string -> list string.

Lemma bert_assign_topics_Some (d : Store) (kmeans_labels : list nat)
    (topic_keywords : list (list string)) :
  store_wf d ->
  length kmeans_labels
    = length (fst (TopicModelingBERT.extract_captions sent_tokenize d)) ->
  Forall (fun label => label < length topic_keywords) kmeans_labels ->
  exists d',
    TopicModelingBERT.assign_topics d
      (snd (TopicModelingBERT.extract_captions sent_tokenize d))
      kmeans_labels topic_keywords = Some d'.
Proof.
  intros Hwf Hlen Hlabels.
  rewrite bert_assign_topics_fold. unfold enumerate.
  apply assign_fold_Some.
  - intros i Hi. simpl. unfold bert_topic_of, index.
    destruct (nth_error kmeans_labels i) as [label|] eqn:El.
    2:{ apply nth_error_None in El. revert Hi Hlen.
        rewrite bert_extract_captions_eq. simpl.
        rewrite sentences_owners_length. lia. }
    simpl. rewrite Forall_forall in Hlabels.
    pose proof (Hlabels label (nth_error_In _ _ El)) as Hlt.
    destruct (nth_error topic_keywords label) eqn:Ek; [discriminate|].
    apply nth_error_None in Ek. lia.
  - intros k Hin.
    destruct (bert_map_in_store sent_tokenize d k Hwf Hin) as (r & -> & _).
    discriminate.
Qed.

(** C2.  A video of the store whose stripped captions the tokenizer
    splits into at least one sentence (so, in particular, into two or
    more) ends with the topic of one sentence only: the keywords, joined
    by spaces, of the cluster that k-means gave to its LAST sentence.  The
    labels of its other sentences are overwritten and do not count. *)
Theorem bert_topic_is_of_last_sentence (d : Store)
    (kmeans_labels : list nat) (topic_keywords : list (list string))
    (k : video_key) (r : VideoRecord) :
  let captions_list :=
    fst (TopicModelingBERT.extract_captions sent_tokenize d) in
  let video_id_map :=
    snd (TopicModelingBERT.extract_captions sent_tokenize d) in
  store_wf d ->
  store_get d k = Some r ->
  has_caption (k, r) = true ->
  sentences_of sent_tokenize (k, r) <> [] ->
  length kmeans_labels = length captions_list ->
  Forall (fun label => label < length topic_keywords) kmeans_labels ->
  exists data' i label keywords,
    TopicModelingBERT.assign_topics d video_id_map kmeans_labels
      topic_keywords = Some data'
    /\ last_position video_id_map k i
    /\ nth_error captions_list i
       = Some (last (sentences_of sent_tokenize (k, r)) "")
    /\ nth_error kmeans_labels i = Some label
    /\ nth_error topic_keywords label = Some keywords
    /\ store_get data' k = Some (set_topic r (join " " keywords)).
Proof.
  intros captions_list video_id_map Hwf Hget Hc Hne Hlen Hlabels.
  destruct (bert_assign_topics_Some d kmeans_labels topic_keywords
              Hwf Hlen Hlabels) as [d' E].
  destruct (bert_caption_position sent_tokenize d k r Hwf Hget Hc Hne)
    as (i & Hlast & Hcap).
  pose proof E as E'.
  rewrite bert_assign_topics_fold in E'. unfold enumerate in E'.
  destruct (assign_fold_get _ _ _ _ _ E' k) as [_ Hb].
  destruct (Hb i Hlast) as (t & r0 & Et & Er0 & Eg). simpl in Et.
  rewrite Hget in Er0. injection Er0 as <-.
  unfold bert_topic_of, index in Et.
  destruct (nth_error kmeans_labels i) as [label|] eqn:El; simpl in Et;
    [|discriminate].
  destruct (nth_error topic_keywords label) as [keywords|] eqn:Ek;
    simpl in Et; [|discriminate].
  injection Et as <-.
  exists d', i, label, keywords. auto 10.
Qed.
End BERTAssign.

(* ===================================================================== *)
(** ** What a run of a topic modeler leaves alone *)
(* ===================================================================== *)

Lemma assign_only_topics (topic_of : nat -> option string)
    (d d' : Store) (video_id_map : list video_key) :
  fold_left (assign_step topic_of) (enumerate video_id_map) (Some d)
    = Some d' ->
  (forall k r, store_get d k = Some r -> has_caption (k, r) = false ->
               ~ In k video_id_map) ->
  only_topics_written d d'.
Proof.
  intros E Hout k.
  pose proof (assign_fold_frame _ _ _ _ E k) as Hf.
  destruct (store_get d k) as [r|] eqn:Eg; [|exact Hf].
  destruct (store_get d' k) as [r'|] eqn:Eg'; [|exact Hf].
  split; [exact Hf|].
  intros Hc. unfold enumerate in E.
  destruct (assign_fold_get _ _ _ _ _ E k) as [Ha _].
  rewrite Ha in Eg' by (eapply Hout; eauto). congruence.
Qed.

Lemma only_topics_written_refl (d : Store) : only_topics_written d d.
Proof.
  intros k. destruct (store_get d k); [|exact I].
  split; [split; reflexivity | reflexivity].
Qed.

Lemma nmf_not_in_map (d : Store) (k : video_key) (r : VideoRecord) :
  store_wf d -> store_get d k = Some r -> has_caption (k, r) = false ->
  ~ In k (snd (TopicModeling.extract_captions d)).
Proof.
  intros Hwf Hget Hc Hin.
  destruct (nmf_map_in_store d k Hwf Hin) as (r' & Hget' & Hc').
  congruence.
Qed.

Lemma bert_not_in_map (sent_tokenize : string -> list string)
    (d : Store) (k : video_key) (r : VideoRecord) :
  store_wf d -> store_get d k = Some r -> has_caption (k, r) = false ->
  ~ In k (snd (TopicModelingBERT.extract_captions sent_tokenize d)).
Proof.
  intros Hwf Hget Hc Hin.
  destruct (bert_map_in_store sent_tokenize d k Hwf Hin) as (r' & Hget' & Hc').
  congruence.
Qed.

Section Runs.
Context `{RT : Runtime}.
Variable TfidfVectorizer :
  string -> nat -> list string -> option (list (list weight) * list string).
Variable NMF :
  nat -> Z -> list (list weight)
  -> option (list (list weight) * list (list weight)).
Variable sent_tokenize : string -> list string.
Variable embedding : Type.
Variable get_bert_embeddings : list string -> option (list embedding).
Variable KMeans : nat -> Z -> list embedding -> option (list nat).
Variable CountVectorizer :
  string -> list string -> option (list (list Z) * list string).

Lemma nmf_run_inv (s : TopicModeling.self) (w : World) (d' : Store)
    (w' : World) :
  TopicModeling.run TfidfVectorizer NMF s w = Returned d' w' ->
  (fst (TopicModeling.extract_captions (TopicModeling.data s)) = []
   /\ d' = TopicModeling.data s /\ w' = print w NoCaptionsFound)
  \/ (exists topic_keywords W,
        TopicModeling.topic_modeling TfidfVectorizer NMF s
          (fst (TopicModeling.extract_captions (TopicModeling.data s)))
          = Some (topic_keywords, W)
        /\ TopicModeling.assign_topics (TopicModeling.data s)
             (snd (TopicModeling.extract_captions (TopicModeling.data s)))
             W topic_keywords = Some d'
        /\ w' = save_data TopicsSaved (TopicModeling.json_file s) d' w).
Proof.
  unfold TopicModeling.run.
  destruct (TopicModeling.extract_captions (TopicModeling.data s))
    as [cl vmap]. simpl.
  destruct cl as [|c cl].
  - intros E. injection E as <- <-. now left.
  - destruct (TopicModeling.topic_modeling TfidfVectorizer NMF s (c :: cl))
      as [[tk W]|]; [|discriminate].
    destruct (TopicModeling.assign_topics (TopicModeling.data s) vmap W tk)
      as [d1|] eqn:Ea; [|discriminate].
    intros E. injection E as <- <-. right. exists tk, W. auto.
Qed.

Lemma bert_run_inv (s : TopicModelingBERT.self) (w : World) (d' : Store)
    (w' : World) :
  TopicModelingBERT.run sent_tokenize get_bert_embeddings KMeans
    CountVectorizer s w = Returned d' w' ->
  (fst (TopicModelingBERT.extract_captions sent_tokenize
          (TopicModelingBERT.data s)) = []
   /\ d' = TopicModelingBERT.data s /\ w' = print w NoCaptionsFound)
  \/ (exists kmeans_labels topic_keywords,
        TopicModelingBERT.assign_topics (TopicModelingBERT.data s)
          (snd (TopicModelingBERT.extract_captions sent_tokenize
                  (TopicModelingBERT.data s)))
          kmeans_labels topic_keywords = Some d'
        /\ w' = save_data TopicsSaved (TopicModelingBERT.json_file s) d' w).
Proof.
  unfold TopicModelingBERT.run.
  destruct (TopicModelingBERT.extract_captions sent_tokenize
              (TopicModelingBERT.data s)) as [cl vmap]. simpl.
  destruct cl as [|c cl].
  - intros E. injection E as <- <-. now left.
  - destruct (TopicModelingBERT.topic_modeling get_bert_embeddings KMeans s
                (c :: cl)) as [[labels emb]|]; [|discriminate].
    destruct (TopicModelingBERT.get_top_keywords_for_topics CountVectorizer
                s (c :: cl) labels 5) as [tk|]; [|discriminate].
    destruct (TopicModelingBERT.assign_topics (TopicModelingBERT.data s)
                vmap labels tk) as [d1|] eqn:Ea; [|discriminate].
    intros E. injection E as <- <-. right. exists labels, tk. auto.
Qed.

(** C9.  Whatever the libraries answer, a run of either modeler that
    returns has written topics only: every video is still there with the
    captions and comments it had, and a video whose captions are absent,
    empty or white space is not in the map handed to the vectorizer and
    is, afterwards, exactly the record it was. *)
Theorem modelers_write_topics_only
    (s : TopicModeling.self) (sb : TopicModelingBERT.self) (w : World) :
  (store_wf (TopicModeling.data s) ->
   (forall d' w',
      TopicModeling.run TfidfVectorizer NMF s w = Returned d' w' ->
      only_topics_written (TopicModeling.data s) d')
   /\ (forall k r,
         store_get (TopicModeling.data s) k = Some r ->
         has_caption (k, r) = false ->
         ~ In k (snd (TopicModeling.extract_captions (TopicModeling.data s)))))
  /\ (store_wf (TopicModelingBERT.data sb) ->
      (forall d' w',
         TopicModelingBERT.run sent_tokenize get_bert_embeddings KMeans
           CountVectorizer sb w = Returned d' w' ->
         only_topics_written (TopicModelingBERT.data sb) d')
      /\ (forall k r,
            store_get (TopicModelingBERT.data sb) k = Some r ->
            has_caption (k, r) = false ->
            ~ In k (snd (TopicModelingBERT.extract_captions sent_tokenize
                           (TopicModelingBERT.data sb))))).
Proof.
  split; intros Hwf; (split; [intros d' w' E | intros k r Hg Hc]).
  - apply nmf_run_inv in E as [(_ & -> & _) | (tk & W & _ & Ea & _)].
    + apply only_topics_written_refl.
    + rewrite nmf_assign_topics_fold in Ea.
      eapply assign_only_topics; [exact Ea|].
      intros k r. now apply nmf_not_in_map.
  - eapply nmf_not_in_map; eauto.
  - apply bert_run_inv in E as [(_ & -> & _) | (labels & tk & Ea & _)].
    + apply only_topics_written_refl.
    + rewrite bert_assign_topics_fold in Ea.
      eapply assign_only_topics; [exact Ea|].
      intros k r. now apply bert_not_in_map.
  - eapply bert_not_in_map; eauto.
Qed.
End Runs.

(* ===================================================================== *)
(** ** Indices and keys of [assign_topics] are in range *)
(* ===================================================================== *)

Section InRange.
Variable sent_tokenize : string -> list string.

(** C10.  For a store with distinct keys at each level, in both modelers:
    the captions list and the map have the same length; every key of the
    map names a record of the store; hence [assign_topics] runs to its
    end, no subscript out of range and no key missing, whenever the
    library hands back one row of [W] (one label) per caption whose
    best topic (whose label) is the index of a keyword entry. *)
Theorem assign_topics_in_range (d : Store) :
  store_wf d ->
  (let captions_list := fst (TopicModeling.extract_captions d) in
   let video_id_map := snd (TopicModeling.extract_captions d) in
   length captions_list = length video_id_map
   /\ (forall k, In k video_id_map -> exists r, store_get d k = Some r)
   /\ (forall W topic_keywords,
         length W = length captions_list ->
         Forall (fun row => row <> [] /\ length row <= length topic_keywords)
                W ->
         exists d',
           TopicModeling.assign_topics d video_id_map W topic_keywords
           = Some d'))
  /\ (let captions_list :=
        fst (TopicModelingBERT.extract_captions sent_tokenize d) in
      let video_id_map :=
        snd (TopicModelingBERT.extract_captions sent_tokenize d) in
      length captions_list = length video_id_map
      /\ (forall k, In k video_id_map -> exists r, store_get d k = Some r)
      /\ (forall kmeans_labels topic_keywords,
            length kmeans_labels = length captions_list ->
            Forall (fun label => label < length topic_keywords)
                   kmeans_labels ->
            exists d',
              TopicModelingBERT.assign_topics d video_id_map kmeans_labels
                topic_keywords = Some d')).
Proof.
  intros Hwf. split; (split; [|split]).
  - rewrite nmf_extract_captions_eq. simpl. now rewrite !length_map.
  - intros k Hin. destruct (nmf_map_in_store d k Hwf Hin) as (r & Hr & _).
    eauto.
  - intros W tk HW Hrows.
    destruct (nmf_assign_topics_spec d W tk Hwf HW Hrows) as (d' & E & _).
    eauto.
  - rewrite bert_extract_captions_eq. simpl. apply sentences_owners_length.
  - intros k Hin.
    destruct (bert_map_in_store sent_tokenize d k Hwf Hin) as (r & Hr & _).
    eauto.
  - intros labels tk Hl Hlab.
    now apply bert_assign_topics_Some.
Qed.
End InRange.

(* ===================================================================== *)
(** ** A store without captions *)
(* ===================================================================== *)

Lemma no_captions_filter (d : Store) :
  no_captions d -> filter has_caption (store_items d) = [].
Proof.
  unfold no_captions. generalize (store_items d).
  induction l as [|[k r] l IH]; intros Hno; [reflexivity|].
  simpl. rewrite (Hno k r (or_introl eq_refl)).
  apply IH. intros k' r' Hin. apply Hno. now right.
Qed.

Section NoCaptions.
Context `{RT : Runtime}.
Variable TfidfVectorizer :
  string -> nat -> list string -> option (list (list weight) * list string).
Variable NMF :
  nat -> Z -> list (list weight)
  -> option (list (list weight) * list (list weight)).
Variable sent_tokenize : string -> list string.
Variable embedding : Type.
Variable get_bert_embeddings : list string -> option (list embedding).
Variable KMeans : nat -> Z -> list embedding -> option (list nat).
Variable CountVectorizer :
  string -> list string -> option (list (list Z) * list string).

(** C3.  When no video of the store has captions other than white space
    (none at all, in a store without videos), [run] of either modeler
    prints "No captions found in data.json" and returns: the store it
    holds is the one it had, and the file system is the one it found, for
    [save_data] is not reached. *)
Theorem run_without_captions
    (s : TopicModeling.self) (sb : TopicModelingBERT.self) (w : World) :
  no_captions (TopicModeling.data s) ->
  no_captions (TopicModelingBERT.data sb) ->
  TopicModeling.run TfidfVectorizer NMF s w
    = Returned (TopicModeling.data s)
        {| fs := fs w; net := net w; stdout := stdout w ++ [NoCaptionsFound] |}
  /\ TopicModelingBERT.run sent_tokenize get_bert_embeddings KMeans
       CountVectorizer sb w
     = Returned (TopicModelingBERT.data sb)
         {| fs := fs w; net := net w;
            stdout := stdout w ++ [NoCaptionsFound] |}.
Proof.
  intros Hs Hsb. split.
  - unfold TopicModeling.run.
    rewrite nmf_extract_captions_eq, (no_captions_filter _ Hs). reflexivity.
  - unfold TopicModelingBERT.run.
    rewrite bert_extract_captions_eq, (no_captions_filter _ Hsb).
    reflexivity.
Qed.
End NoCaptions.

(* ===================================================================== *)
(** ** Two runs of the NMF modeler *)
(* ===================================================================== *)

Section Determinism.
Context `{RT : Runtime}.
Variable TfidfVectorizer :
  string -> nat -> list string -> option (list (list weight) * list string).
Variables NMF1 NMF2 :
  nat -> Z -> list (list weight)
  -> option (list (list weight) * list (list weight)).

Lemma nmf_assign_defined (d1 d2 d1' : Store) (video_id_map : list video_key)
    (W : list (list weight)) (topic_keywords : list string) :
  TopicModeling.assign_topics d1 video_id_map W topic_keywords = Some d1' ->
  (forall k, In k video_id_map -> store_get d2 k <> None) ->
  exists d2',
    TopicModeling.assign_topics d2 video_id_map W topic_keywords = Some d2'.
Proof.
  rewrite !nmf_assign_topics_fold. unfold enumerate. intros E Hk.
  apply assign_fold_Some; [|exact Hk].
  intros i Hi. now apply (assign_fold_topic_of _ _ _ _ _ E).
Qed.

(** C8.  Take two runs (of the same or of two factorisation routines that
    agree under the seed 42, on any two file systems) over stores that
    yield the same captions list and map, with the same number of
    topics.  Then [topic_modeling] gives the same keyword strings and the
    same matrix in both, both runs return or both raise, and every video
    of the map ends with the same topic in both. *)
Theorem nmf_runs_agree (s1 s2 : TopicModeling.self) (w1 w2 : World) :
  let captions_list :=
    fst (TopicModeling.extract_captions (TopicModeling.data s1)) in
  let video_id_map :=
    snd (TopicModeling.extract_captions (TopicModeling.data s1)) in
  (forall n X, NMF1 n 42%Z X = NMF2 n 42%Z X) ->
  TopicModeling.num_topics s1 = TopicModeling.num_topics s2 ->
  store_wf (TopicModeling.data s1) ->
  store_wf (TopicModeling.data s2) ->
  TopicModeling.extract_captions (TopicModeling.data s1)
    = TopicModeling.extract_captions (TopicModeling.data s2) ->
  TopicModeling.topic_modeling TfidfVectorizer NMF1 s1 captions_list
    = TopicModeling.topic_modeling TfidfVectorizer NMF2 s2 captions_list
  /\ match TopicModeling.run TfidfVectorizer NMF1 s1 w1,
           TopicModeling.run TfidfVectorizer NMF2 s2 w2 with
     | Returned d1 _, Returned d2 _ =>
         forall k, In k video_id_map ->
           exists t r1 r2,
             store_get d1 k = Some r1 /\ store_get d2 k = Some r2
             /\ topic r1 = Some t /\ topic r2 = Some t
     | Raised _, Raised _ => True
     | _, _ => False
     end.
Proof.
  intros captions_list video_id_map HN Hnum Hwf1 Hwf2 E.
  assert (Htm : forall cl,
             TopicModeling.topic_modeling TfidfVectorizer NMF1 s1 cl
             = TopicModeling.topic_modeling TfidfVectorizer NMF2 s2 cl).
  { intros cl. unfold TopicModeling.topic_modeling.
    destruct (TfidfVectorizer "english" 1000 cl) as [[X terms]|];
      [|reflexivity].
    simpl. now rewrite Hnum, HN. }
  split; [apply Htm|].
  assert (Hk1 : forall k, In k video_id_map ->
                          store_get (TopicModeling.data s1) k <> None).
  { intros k Hin. destruct (nmf_map_in_store _ k Hwf1 Hin) as (r & -> & _).
    discriminate. }
  assert (Hk2 : forall k, In k video_id_map ->
                          store_get (TopicModeling.data s2) k <> None).
  { intros k Hin. unfold video_id_map in Hin. rewrite E in Hin.
    destruct (nmf_map_in_store _ k Hwf2 Hin) as (r & -> & _).
    discriminate. }
  assert (Hlen : length captions_list = length video_id_map).
  { unfold captions_list, video_id_map.
    rewrite nmf_extract_captions_eq. simpl. now rewrite !length_map. }
  unfold TopicModeling.run. rewrite <- E.
  subst captions_list video_id_map.
  destruct (TopicModeling.extract_captions (TopicModeling.data s1))
    as [cl vmap]. simpl in *.
  destruct cl as [|c cl].
  { destruct vmap; [|discriminate]. intros k []. }
  rewrite <- Htm.
  destruct (TopicModeling.topic_modeling TfidfVectorizer NMF1 s1 (c :: cl))
    as [[tk W]|]; [|exact I].
  destruct (TopicModeling.assign_topics (TopicModeling.data s1) vmap W tk)
    as [d1|] eqn:E1;
    destruct (TopicModeling.assign_topics (TopicModeling.data s2) vmap W tk)
      as [d2|] eqn:E2.
  - intros k Hin.
    destruct (last_position_exists vmap k Hin) as [i Hi].
    rewrite nmf_assign_topics_fold in E1, E2. unfold enumerate in E1, E2.
    destruct (assign_fold_get _ _ _ _ _ E1 k) as [_ H1].
    destruct (assign_fold_get _ _ _ _ _ E2 k) as [_ H2].
    destruct (H1 i Hi) as (t & r1 & Et & _ & Eg1).
    destruct (H2 i Hi) as (t' & r2 & Et' & _ & Eg2).
    rewrite Et in Et'. injection Et' as <-.
    exists t, (set_topic r1 t), (set_topic r2 t). auto.
  - destruct (nmf_assign_defined _ _ _ _ _ _ E1 Hk2) as [d2 E2']. congruence.
  - destruct (nmf_assign_defined _ _ _ _ _ _ E2 Hk1) as [d1 E1']. congruence.
  - exact I.
Qed.
End Determinism.

(* ===================================================================== *)
(** ** The caption updater *)
(* ===================================================================== *)

Lemma Forall2_map_l_In {X Y Z} (f : X -> Y) (R : Y -> Z -> Prop)
    (R' : X -> Z -> Prop) (l : list X) (l' : list Z) :
  (forall x z, In x l -> R (f x) z -> R' x z) ->
  Forall2 R (map f l) l' -> Forall2 R' l l'.
Proof.
  revert l'. induction l as [|x l IH]; intros l' HR F; simpl in F.
  - inversion F. constructor.
  - inversion F as [|? z ? l'' Hxz F']; subst. constructor.
    + apply HR; [now left | exact Hxz].
    + apply IH; [|exact F']. intros x' z' Hin. apply HR. now right.
Qed.

Lemma Forall2_impl_In {X Y} (R R' : X -> Y -> Prop) (l : list X) (l' : list Y) :
  (forall x y, In x l -> R x y -> R' x y) -> Forall2 R l l' -> Forall2 R' l l'.
Proof.
  intros HR F. induction F as [|x y l l' Hxy F IH]; constructor.
  - apply HR; [now left | exact Hxy].
  - apply IH. intros x' y' Hin. apply HR. now right.
Qed.

Section CaptionUpdaterFacts.
Context `{RT : Runtime}.
Variable get_transcript :
  Net -> string -> Net * result (list YouTubeCaptionUpdater.segment).

Lemma update_video_spec (d : Store) (w : World) (k : video_key) :
  store_get d k <> None ->
  exists d1,
    YouTubeCaptionUpdater.update_video get_transcript (d, w) k
    = (d1, {| fs := fs w;
              net := fst (get_transcript (net w) (video_id_of k));
              stdout := stdout w
                        ++ [answer_message k
                              (snd (get_transcript (net w)
                                      (video_id_of k)))] |})
    /\ forall k',
         store_get d1 k'
         = if key_eqb k' k
           then option_map
                  (fun r => after_answer r
                              (snd (get_transcript (net w) (video_id_of k))))
                  (store_get d k')
           else store_get d k'.
Proof.
  intros Hk. destruct k as [[channel playlist_id] video_id].
  unfold YouTubeCaptionUpdater.update_video, video_id_of.
  cbn -[store_update store_get key_eqb join].
  destruct (get_transcript (net w) video_id) as [n' [transcript | e]];
    cbn -[store_update store_get key_eqb join].
  - destruct (store_update_Some d (channel, playlist_id, video_id)
                (fun r => set_captions r
                   (join newline
                      (map YouTubeCaptionUpdater.text transcript))) Hk)
      as [d1 Eu].
    rewrite Eu. exists d1. split; [reflexivity|].
    intros k'. apply (store_get_update _ _ _ _ _ Eu).
  - exists d. split; [reflexivity|].
    intros k'. destruct (key_eqb k' (channel, playlist_id, video_id));
      [|reflexivity].
    now destruct (store_get d k').
Qed.

Lemma update_fold_spec :
  forall (ks : list video_key) (d : Store) (w : World),
    NoDup ks ->
    (forall k, In k ks -> store_get d k <> None) ->
    exists d',
      fold_left (YouTubeCaptionUpdater.update_video get_transcript) ks (d, w)
      = (d', {| fs := fs w;
                net := snd (transcript_answers get_transcript (net w)
                              (map video_id_of ks));
                stdout := stdout w
                          ++ answer_messages ks
                               (fst (transcript_answers get_transcript (net w)
                                       (map video_id_of ks))) |})
      /\ (forall k, ~ In k ks -> store_get d' k = store_get d k)
      /\ Forall2 (fun k answer =>
                    store_get d' k
                    = option_map (fun r => after_answer r answer)
                        (store_get d k))
                 ks
                 (fst (transcript_answers get_transcript (net w)
                         (map video_id_of ks))).
Proof.
  induction ks as [|k ks IH]; intros d w Hnd Hk.
  - exists d. simpl. unfold answer_messages. simpl. rewrite app_nil_r.
    split; [now destruct w|]. split; [reflexivity | constructor].
  - inversion Hnd as [|? ? Hnotin Hnd']; subst.
    destruct (update_video_spec d w k (Hk k (or_introl eq_refl)))
      as (d1 & E1 & Hget1).
    cbn [fold_left map transcript_answers]. rewrite E1.
    destruct (get_transcript (net w) (video_id_of k)) as [n1 answer] eqn:Eg.
    cbn [fst snd] in Hget1 |- *.
    destruct (IH d1 {| fs := fs w; net := n1;
                       stdout := stdout w ++ [answer_message k answer] |}
                Hnd') as (d' & E' & Hout & Hall).
    { intros k' Hin. rewrite Hget1.
      destruct (key_eqb k' k) eqn:Ek; [|apply Hk; now right].
      apply key_eqb_eq in Ek. subst k'. contradiction. }
    cbn [fs net stdout] in E', Hall.
    destruct (transcript_answers get_transcript n1 (map video_id_of ks))
      as [answers n'] eqn:Ea.
    cbn [fst snd] in *. exists d'. split.
    + rewrite E'. unfold answer_messages. cbn [combine map fst snd].
      now rewrite <- app_assoc.
    + split.
      * intros k' Hnin.
        rewrite Hout by (intros Hin; apply Hnin; now right).
        rewrite Hget1.
        destruct (key_eqb k' k) eqn:Ek; [|reflexivity].
        apply key_eqb_eq in Ek. subst k'. exfalso. apply Hnin. now left.
      * constructor.
        -- rewrite (Hout k Hnotin), Hget1.
           now rewrite (proj2 (key_eqb_eq k k) eq_refl).
        -- eapply Forall2_impl_In; [|exact Hall].
           intros k' a Hin Hk'. cbn beta in Hk' |- *.
           rewrite Hk', Hget1.
           destruct (key_eqb k' k) eqn:Ek; [|reflexivity].
           apply key_eqb_eq in Ek. subst k'. contradiction.
Qed.

(** C4.  [run] of the caption updater requests the transcript of every
    video, in the order of the store.  Afterwards a video whose request
    was answered has the texts of the segments, joined by line feeds, as
    its captions; a video whose request raised has the record it had, the
    failure is printed, and the later videos are requested all the same;
    and [save_data] writes the whole store to the file whatever the
    answers were. *)
Theorem caption_run_spec (s : YouTubeCaptionUpdater.self) (w : World) :
  let videos := store_items (YouTubeCaptionUpdater.data s) in
  let answers :=
    transcript_answers get_transcript (net w)
      (map (fun kr => video_id_of (fst kr)) videos) in
  store_wf (YouTubeCaptionUpdater.data s) ->
  exists data' w',
    YouTubeCaptionUpdater.run get_transcript s w = Returned data' w'
    /\ Forall2 (fun kr answer =>
                  store_get data' (fst kr)
                  = Some (after_answer (snd kr) answer))
               videos (fst answers)
    /\ w' = save_data CaptionsSaved (YouTubeCaptionUpdater.json_file s) data'
              {| fs := fs w; net := snd answers;
                 stdout := stdout w
                           ++ answer_messages (map fst videos) (fst answers) |}
    /\ fs w' = fst (fs_write (fs w) (YouTubeCaptionUpdater.json_file s)
                      (json_dump data')).
Proof.
  intros videos answers Hwf.
  destruct (update_fold_spec (map fst videos) (YouTubeCaptionUpdater.data s) w)
    as (d' & E & _ & Hall).
  - apply store_items_NoDup, Hwf.
  - intros k Hin. apply in_map_iff in Hin as ([k' r] & <- & Hin).
    cbn [fst]. rewrite (store_In_get _ _ _ Hwf Hin). discriminate.
  - rewrite map_map in E, Hall. fold answers in E, Hall.
    exists d'. eexists. split; [|split; [|split; [reflexivity|]]].
    + unfold YouTubeCaptionUpdater.run, YouTubeCaptionUpdater.update_captions.
      fold videos. rewrite E. reflexivity.
    + eapply Forall2_map_l_In; [|exact Hall].
      intros [k r] a Hin Hk. simpl in *.
      now rewrite (store_In_get _ _ _ Hwf Hin) in Hk.
    + unfold save_data. simpl.
      now destruct (fs_write (fs w) (YouTubeCaptionUpdater.json_file s)
                      (json_dump d')) as [fs' [e|]].
Qed.
End CaptionUpdaterFacts.

(* ===================================================================== *)
(** ** The comment extractor *)
(* ===================================================================== *)

Section CommentExtractorFacts.
Context `{RT : Runtime}.
Variable execute :
  Net -> YouTubeCommentExtractor.request
  -> Net * result YouTubeCommentExtractor.response.

Import YouTubeCommentExtractor.

Lemma video_comments_of_cons (video_id : string) (response : response)
    (pages : list YouTubeCommentExtractor.response) :
  video_comments_of video_id (response :: pages)
  = video_comments_of video_id [response] ++ video_comments_of video_id pages.
Proof.
  unfold video_comments_of. cbn [flat_map]. now rewrite app_nil_r, map_app.
Qed.

Lemma video_comments_of_one (video_id : string) (response : response) :
  video_comments_of video_id [response]
  = map (fun item =>
           {| vc_Timestamp := publishedAt (topLevelComment item);
              vc_Comment := textDisplay (topLevelComment item);
              vc_VideoID := video_id |})
        (response_items response).
Proof. unfold video_comments_of. cbn [flat_map]. now rewrite app_nil_r. Qed.

Lemma loop_done (video_id : string) n token pages n' :
  Paginates execute video_id n token pages n' ->
  forall fuel all_comments,
    length pages <= fuel ->
    get_comments_loop execute fuel video_id all_comments token n
    = Done (all_comments ++ video_comments_of video_id pages) n'.
Proof.
  induction 1 as [n token response n' He Ht
                 | n token response n1 pages n' He Ht Hp IH];
    intros fuel all_comments Hfuel;
    (destruct fuel as [|fuel]; [simpl in Hfuel; lia|]);
    simpl; unfold page_request in He; rewrite He, Ht.
  - now rewrite video_comments_of_one.
  - rewrite IH by (simpl in Hfuel; lia).
    rewrite (video_comments_of_cons video_id response pages), app_assoc.
    now rewrite video_comments_of_one.
Qed.

Lemma loop_done_inv :
  forall fuel video_id all_comments token n cs n',
    get_comments_loop execute fuel video_id all_comments token n = Done cs n' ->
    exists pages,
      Paginates execute video_id n token pages n'
      /\ length pages <= fuel
      /\ cs = all_comments ++ video_comments_of video_id pages.
Proof.
  induction fuel as [|fuel IH]; intros video_id all_comments token n cs n' E;
    simpl in E; [discriminate|].
  destruct (execute n _) as [n1 [response | e]] eqn:He; [|discriminate].
  destruct (no_token (nextPageToken response)) eqn:Ht.
  - injection E as <- <-. exists [response]. split; [|split].
    + now apply Paginates_last.
    + simpl. lia.
    + now rewrite video_comments_of_one.
  - apply IH in E as (pages & Hp & Hlen & ->).
    exists (response :: pages). split; [|split].
    + eapply Paginates_more; eauto.
    + simpl. lia.
    + rewrite (video_comments_of_cons video_id response pages), app_assoc.
      now rewrite video_comments_of_one.
Qed.

Lemma loop_fail (video_id : string) n token pages e n' :
  PaginationFails execute video_id n token pages e n' ->
  forall fuel all_comments,
    length pages < fuel ->
    get_comments_loop execute fuel video_id all_comments token n = Fail e n'.
Proof.
  induction 1 as [n token e n' He
                 | n token response n1 pages e n' He Ht Hp IH];
    intros fuel all_comments Hfuel;
    (destruct fuel as [|fuel]; [simpl in Hfuel; lia|]);
    simpl; unfold page_request in He; rewrite He.
  - reflexivity.
  - rewrite Ht. apply IH. simpl in Hfuel. lia.
Qed.

Lemma strip_video_id (video_id : string)
    (pages : list YouTubeCommentExtractor.response) :
  map (fun c => {| Timestamp := vc_Timestamp c; Comment := vc_Comment c |})
      (video_comments_of video_id pages)
  = comments_of pages.
Proof. unfold video_comments_of, comments_of. now rewrite map_map. Qed.
End CommentExtractorFacts.

Section CommentExtractorRun.
Context `{RT : Runtime}.
Variable execute :
  Net -> YouTubeCommentExtractor.request
  -> Net * result YouTubeCommentExtractor.response.

Import YouTubeCommentExtractor.

Lemma extract_video_done fuel author playlist_id video_id r w pages n1 :
  Paginates execute video_id (net w) None pages n1 ->
  length pages <= fuel ->
  extract_video execute fuel author playlist_id video_id r w
  = Done (set_comments r (comments_of pages))
      (after_request w ((author, playlist_id, video_id), r) n1).
Proof.
  intros Hp Hlen. unfold extract_video, get_comments_for_video.
  cbn [net print].
  rewrite (loop_done execute video_id _ _ _ _ Hp fuel [] Hlen).
  cbn [app]. now rewrite strip_video_id.
Qed.

Lemma extract_video_done_inv fuel author playlist_id video_id r w r' w' :
  extract_video execute fuel author playlist_id video_id r w = Done r' w' ->
  exists pages,
    Paginates execute video_id (net w) None pages (net w')
    /\ length pages <= fuel
    /\ r' = set_comments r (comments_of pages)
    /\ w' = after_request w ((author, playlist_id, video_id), r) (net w').
Proof.
  unfold extract_video, get_comments_for_video. cbn [net print].
  destruct (get_comments_loop execute fuel video_id [] None (net w))
    as [cs n1 | e n1 |] eqn:E; try discriminate.
  intros E'. injection E' as <- <-.
  apply loop_done_inv in E as (pages & Hp & Hlen & ->).
  exists pages. cbn [app net]. rewrite strip_video_id. auto.
Qed.

Lemma extract_video_fail fuel author playlist_id video_id r w pages e n1 :
  PaginationFails execute video_id (net w) None pages e n1 ->
  length pages < fuel ->
  extract_video execute fuel author playlist_id video_id r w
  = Fail e (after_request w ((author, playlist_id, video_id), r) n1).
Proof.
  intros Hp Hlen. unfold extract_video, get_comments_for_video.
  cbn [net print].
  now rewrite (loop_fail execute video_id _ _ _ _ _ Hp fuel [] Hlen).
Qed.

Lemma extract_flat_done fuel :
  forall videos videos' w n',
    Collected execute fuel (net w) videos videos' n' ->
    extract_flat execute fuel videos w
    = Done videos'
        {| fs := fs w; net := n';
           stdout := stdout w ++ map extracting_message videos |}.
Proof.
  intros videos videos' w n' Hc. remember (net w) as n eqn:En.
  revert w En.
  induction Hc as [n | n k r pages n1 videos videos' n' Hp Hlen Hc IH];
    intros w En; subst n.
  - simpl. rewrite app_nil_r. now destruct w.
  - destruct k as [[author playlist_id] video_id]. cbn [extract_flat].
    unfold video_id_of in Hp. cbn [snd] in Hp.
    rewrite (extract_video_done fuel author playlist_id video_id r w
               pages n1 Hp Hlen).
    rewrite (IH (after_request w (author, playlist_id, video_id, r) n1)
               eq_refl).
    cbn [after_request fs net stdout map]. now rewrite <- app_assoc.
Qed.

Lemma extract_flat_done_inv fuel :
  forall videos w videos' w',
    extract_flat execute fuel videos w = Done videos' w' ->
    Collected execute fuel (net w) videos videos' (net w')
    /\ fs w' = fs w
    /\ stdout w' = stdout w ++ map extracting_message videos.
Proof.
  induction videos as [|[[[author playlist_id] video_id] r] videos IH];
    intros w videos' w' E; cbn [extract_flat] in E.
  - injection E as <- <-. split; [constructor|].
    split; [reflexivity | now rewrite app_nil_r].
  - destruct (extract_video execute fuel author playlist_id video_id r w)
      as [r1 w1 | e w1 |] eqn:Ev; try discriminate.
    destruct (extract_flat execute fuel videos w1)
      as [l w2 | e w2 |] eqn:Ef; try discriminate.
    injection E as <- <-.
    apply extract_video_done_inv in Ev as (pages & Hp & Hlen & -> & Ew1).
    apply IH in Ef as (Hc & Hfs & Hout).
    split; [|split].
    + eapply Collected_cons; eauto.
    + rewrite Hfs, Ew1. reflexivity.
    + rewrite Hout, Ew1. cbn [after_request stdout map].
      now rewrite <- app_assoc.
Qed.

Lemma extract_flat_app fuel :
  forall l1 l2 w,
    extract_flat execute fuel (l1 ++ l2) w
    = step_bind (extract_flat execute fuel l1 w)
        (fun r1 w1 => step_map (app r1) (extract_flat execute fuel l2 w1)).
Proof.
  induction l1 as [|[[[author playlist_id] video_id] r] l1 IH]; intros l2 w.
  - cbn [app extract_flat step_bind].
    now destruct (extract_flat execute fuel l2 w).
  - cbn [app extract_flat].
    destruct (extract_video execute fuel author playlist_id video_id r w)
      as [r1 w1 | e w1 |]; try reflexivity.
    rewrite IH.
    destruct (extract_flat execute fuel l1 w1) as [l w2 | e w2 |];
      try reflexivity.
    cbn [step_bind].
    now destruct (extract_flat execute fuel l2 w2).
Qed.

(** The loops of [extract_comments] visit the videos of [store_items] in
    order. *)
Lemma for_items_flat {V : Type}
    (body : string -> V -> World -> step World V)
    (flat : string -> V -> list (video_key * VideoRecord)) fuel :
  (forall k v w,
      step_map (flat k) (body k v w)
      = extract_flat execute fuel (flat k v) w) ->
  forall d w,
    step_map (flat_map (fun kv => flat (fst kv) (snd kv)))
      (for_items body d w)
    = extract_flat execute fuel
        (flat_map (fun kv => flat (fst kv) (snd kv)) d) w.
Proof.
  intros Hbody. induction d as [|[k v] d IH]; intros w.
  - reflexivity.
  - cbn [for_items flat_map fst snd]. rewrite extract_flat_app.
    rewrite <- Hbody.
    destruct (body k v w) as [v' w1 | e w1 |]; try reflexivity.
    cbn [step_map step_bind]. rewrite <- IH.
    now destruct (for_items body d w1).
Qed.

Lemma extract_comments_flat fuel (d : Store) (w : World) :
  step_map store_items (extract_comments execute fuel d w)
  = extract_flat execute fuel (store_items d) w.
Proof.
  unfold extract_comments, store_items, items.
  pose (flat_videos := fun (author playlist_id : string) (videos : Videos) =>
          map (fun vr : string * VideoRecord =>
                 ((author, playlist_id, fst vr), snd vr)) videos).
  pose (flat_playlists := fun (author : string) (playlists : Playlists) =>
          flat_map (fun pv : string * Videos =>
                      flat_videos author (fst pv) (snd pv)) playlists).
  assert (E1 : forall d0 : Store,
             flat_map (fun '(author, playlists) =>
               flat_map (fun '(playlist_id, videos) =>
                 map (fun '(video_id, video_data) =>
                        (author, playlist_id, video_id, video_data)) videos)
                 playlists) d0
             = flat_map (fun kv => flat_playlists (fst kv) (snd kv)) d0).
  { intros d0. apply flat_map_ext. intros [author playlists].
    apply flat_map_ext. intros [playlist_id videos].
    apply map_ext. now intros [video_id video_data]. }
  assert (Hbody : forall author playlists w0,
             step_map (flat_playlists author)
               (for_items
                  (fun playlist_id playlist_data =>
                     for_items
                       (fun video_id video_data =>
                          extract_video execute fuel author playlist_id
                            video_id video_data)
                       playlist_data)
                  playlists w0)
             = extract_flat execute fuel (flat_playlists author playlists) w0).
  { intros author playlists w0. unfold flat_playlists.
    apply for_items_flat.
    intros playlist_id videos w1. unfold flat_videos.
    revert w1. induction videos as [|[video_id r] videos IH]; intros w1.
    - reflexivity.
    - cbn [for_items map extract_flat fst snd].
      destruct (extract_video execute fuel author playlist_id video_id r w1)
        as [r1 w2 | e w2 |]; try reflexivity.
      rewrite <- IH.
      match goal with
      | |- context [for_items ?b videos w2] =>
          now destruct (for_items b videos w2)
      end. }
  rewrite E1.
  etransitivity; [|exact (for_items_flat _ flat_playlists fuel Hbody d w)].
  match goal with
  | |- step_map _ ?x = step_map _ ?y =>
      change y with x; destruct x as [d' w' | e w' |]; try reflexivity
  end.
  cbn [step_map]. f_equal. apply E1.
Qed.
End CommentExtractorRun.

Section CommentExtractorClaims.
Context `{RT : Runtime}.
Variable execute :
  Net -> YouTubeCommentExtractor.request
  -> Net * result YouTubeCommentExtractor.response.

Import YouTubeCommentExtractor.

Lemma extract_flat_total fuel :
  (forall n video_id,
      exists pages n',
        Paginates execute video_id n None pages n' /\ length pages <= fuel) ->
  forall videos w,
    exists videos' w', extract_flat execute fuel videos w = Done videos' w'.
Proof.
  intros Hsvc.
  induction videos as [|[[[author playlist_id] video_id] r] videos IH];
    intros w.
  - simpl. eauto.
  - destruct (Hsvc (net w) video_id) as (pages & n1 & Hp & Hlen).
    cbn [extract_flat].
    rewrite (extract_video_done execute fuel author playlist_id video_id r w
               pages n1 Hp Hlen).
    destruct (IH (after_request w (author, playlist_id, video_id, r) n1))
      as (l & w2 & E).
    rewrite E. eauto.
Qed.

(** C5.  [extract_comments] takes the videos in the order of the store.
    For each it requests pages of 100 comment threads, the first without
    a token and every next one with the token of the response before,
    until a response carries no token (none, or an empty one); the
    video's comments are then replaced by one [{Timestamp, Comment}]
    entry per top-level comment, in the order of the pages and of the
    items in each page.  When the service ends every pagination within
    the fuel, [extract_comments] returns, and [run] saves the store. *)
Theorem comments_collected (fuel : nat) (s : self) (w : World) :
  (forall d' w',
      extract_comments execute fuel (data s) w = Done d' w' ->
      Collected execute fuel (net w) (store_items (data s))
        (store_items d') (net w')
      /\ run execute fuel s w
         = Some (Returned d' (save_data CommentsSaved (json_file s) d' w')))
  /\ ((forall n video_id,
          exists pages n',
            Paginates execute video_id n None pages n'
            /\ length pages <= fuel) ->
      exists d' w', extract_comments execute fuel (data s) w = Done d' w').
Proof.
  split.
  - intros d' w' E. split.
    + pose proof (extract_comments_flat execute fuel (data s) w) as Hf.
      rewrite E in Hf. cbn [step_map] in Hf. symmetry in Hf.
      now apply extract_flat_done_inv in Hf as (Hc & _ & _).
    + unfold run. now rewrite E.
  - intros Hsvc.
    destruct (extract_flat_total fuel Hsvc (store_items (data s)) w)
      as (l & w' & E).
    rewrite <- extract_comments_flat in E.
    destruct (extract_comments execute fuel (data s) w)
      as [d' w1 | e w1 |]; try discriminate.
    eauto.
Qed.

(** C6.  Let the pagination for the video [k] raise [e], the videos
    before [k] having been served.  Then [extract_comments] raises [e]:
    the service is in the state the failed request left it in and nothing
    is printed for a later video, so none was requested; and [run] ends
    with that exception, the file system being the one it found, for
    [save_data] is not reached. *)
Theorem comment_exception_propagates (fuel : nat) (s : self) (w : World)
    (before after before' : list (video_key * VideoRecord))
    (k : video_key) (r : VideoRecord) (n1 n2 : Net)
    (pages : list response) (e : exn) :
  let w_raise :=
    {| fs := fs w; net := n2;
       stdout := stdout w ++ map extracting_message (before ++ [(k, r)]) |} in
  store_items (data s) = before ++ (k, r) :: after ->
  Collected execute fuel (net w) before before' n1 ->
  PaginationFails execute (video_id_of k) n1 None pages e n2 ->
  length pages < fuel ->
  extract_comments execute fuel (data s) w = Fail e w_raise
  /\ run execute fuel s w = Some (Raised w_raise).
Proof.
  intros w_raise Hitems Hbefore Hfail Hlen.
  assert (E : extract_comments execute fuel (data s) w = Fail e w_raise).
  { pose proof (extract_comments_flat execute fuel (data s) w) as Hf.
    rewrite Hitems, extract_flat_app in Hf.
    rewrite (extract_flat_done execute fuel _ _ _ _ Hbefore) in Hf.
    cbn [step_bind] in Hf.
    destruct k as [[author playlist_id] video_id].
    cbn [extract_flat] in Hf.
    unfold video_id_of in Hfail. cbn [snd] in Hfail.
    rewrite (extract_video_fail execute fuel author playlist_id video_id r
               {| fs := fs w; net := n1;
                  stdout := stdout w ++ map extracting_message before |}
               pages e n2 Hfail Hlen) in Hf.
    cbn [step_map after_request fs net stdout] in Hf.
    destruct (extract_comments execute fuel (data s) w)
      as [d' w1 | e1 w1 |]; try discriminate.
    cbn [step_map] in Hf. injection Hf as -> ->.
    unfold w_raise. rewrite map_app, app_assoc. reflexivity. }
  split; [exact E|]. unfold run. now rewrite E.
Qed.
End CommentExtractorClaims.

(* ===================================================================== *)
(** * The theorems at work *)
(* ===================================================================== *)

Ltac prove_wf :=
  unfold store_wf, dict_wf, keys; simpl;
  repeat (constructor; simpl); intuition discriminate.

Lemma example_store_wf : store_wf example_store.
Proof. prove_wf. Qed.

Lemma example_store'_wf : store_wf example_store'.
Proof. prove_wf. Qed.

Lemma one_video_store_wf : store_wf one_video_store.
Proof. prove_wf. Qed.

Lemma blank_store_no_captions : no_captions blank_store.
Proof.
  intros k r Hin. simpl in Hin.
  destruct Hin as [E | [E | []]]; injection E as <- <-; reflexivity.
Qed.

(** The embedding modeler on a video of three sentences, the first two in
    cluster 0 and the last in cluster 1: the video gets the keywords of
    cluster 1, though most of its sentences are in cluster 0. *)
Lemma bert_topic_is_of_last_sentence_witness :
  exists data',
    TopicModelingBERT.assign_topics example_store
      (snd (TopicModelingBERT.extract_captions example_sent_tokenize
              example_store))
      [0; 1; 0; 0; 1] [["cats"; "pets"]; ["dogs"; "loyal"]] = Some data'
    /\ option_map topic (store_get data' ("ChannelA", "PL2", "vid3"))
       = Some (Some "dogs loyal").
Proof.
  destruct (bert_topic_is_of_last_sentence example_sent_tokenize example_store
              [0; 1; 0; 0; 1] [["cats"; "pets"]; ["dogs"; "loyal"]]
              ("ChannelA", "PL2", "vid3")
              {| captions := Some "loyal dogs. great cats. dogs are pets.";
                 comments := None; topic := Some "old" |}
              example_store_wf eq_refl eq_refl)
    as (data' & i & label & keywords & E & _).
  - vm_compute. discriminate.
  - reflexivity.
  - repeat constructor.
  - exists data'. split; [exact E|].
    vm_compute in E. injection E as <-. reflexivity.
Defined.

(** The one-video store of the specification, with one topic. *)
Lemma run_assigns_argmax_topic_witness :
  let s := {| TopicModeling.json_file := "data.json";
              TopicModeling.num_topics := 1;
              TopicModeling.data := one_video_store |} in
  exists data' w' idxs,
    TopicModeling.run example_TfidfVectorizer example_NMF s example_world
      = Returned data' w'
    /\ option_map topic (store_get data' ("ChannelA", "PL1", "vid1"))
       = Some (Some (join " " (map (term_at example_terms) idxs)))
    /\ Forall (fun j =>
                 present_in (term_at example_terms j)
                   "cats are great pets. dogs are loyal." = true) idxs
    /\ option_map topic (store_get data' ("ChannelA", "PL1", "vid1"))
       = Some (Some "cats dogs great loyal pets").
Proof.
  intros s.
  destruct (@run_assigns_argmax_topic example_runtime example_TfidfVectorizer
              example_NMF s example_world
              [[1; 1; 1; 1; 1]]%Q [[1]]%Q [[0; 1; 2; 3; 4]]%Q example_terms
              one_video_store_wf)
    as (topic_keywords & data' & _ & E & Hk).
  - vm_compute. discriminate.
  - reflexivity.
  - reflexivity.
  - reflexivity.
  - repeat constructor. discriminate.
  - repeat constructor.
  - destruct (Hk ("ChannelA", "PL1", "vid1")
                {| captions := Some "cats are great pets. dogs are loyal.";
                   comments := None; topic := None |} eq_refl eq_refl)
      as (i & row & b & t & keyword & idxs
          & _ & _ & _ & _ & _ & _ & _ & _ & Ekw & Hget & _ & Hvoc).
    destruct Hvoc as [_ Hpresent].
    { repeat constructor;
        (exists "cats are great pets. dogs are loyal.";
         split; [left; reflexivity | reflexivity]). }
    exists data'.
    exists (save_data TopicsSaved (TopicModeling.json_file s) data'
              example_world).
    exists idxs.
    split; [exact E|]. split; [now rewrite Hget, Ekw|]. split.
    + apply Hpresent. intros k2 r2 Hget2 _.
      apply store_get_In in Hget2. simpl in Hget2.
      destruct Hget2 as [E2 | []]. now injection E2.
    + vm_compute in E. injection E as <-. reflexivity.
Defined.

(** Two stores with the same captions, two factorisation routines that
    agree under the seed 42, two file systems: both runs return, and [vid3]
    has the same topic in both. *)
Lemma nmf_runs_agree_witness :
  let s1 := {| TopicModeling.json_file := "data.json";
               TopicModeling.num_topics := 2;
               TopicModeling.data := example_store |} in
  let s2 := {| TopicModeling.json_file := "copy.json";
               TopicModeling.num_topics := 2;
               TopicModeling.data := example_store' |} in
  let w2 := {| fs := []; net := 7; stdout := [NoCaptionsFound] |} in
  exists d1 w1' d2 w2',
    TopicModeling.run example_TfidfVectorizer example_NMF s1 example_world
      = Returned d1 w1'
    /\ TopicModeling.run example_TfidfVectorizer example_NMF' s2 w2
       = Returned d2 w2'
    /\ option_map topic (store_get d1 ("ChannelA", "PL2", "vid3"))
       = option_map topic (store_get d2 ("ChannelA", "PL2", "vid3")).
Proof.
  intros s1 s2 w2.
  destruct (@nmf_runs_agree example_runtime example_TfidfVectorizer
              example_NMF example_NMF' s1 s2 example_world w2
              ltac:(reflexivity) eq_refl example_store_wf example_store'_wf
              eq_refl) as [_ H].
  destruct (TopicModeling.run example_TfidfVectorizer example_NMF s1
              example_world) as [d1 w1' | w1'] eqn:E1;
    [|vm_compute in E1; discriminate].
  destruct (TopicModeling.run example_TfidfVectorizer example_NMF' s2 w2)
    as [d2 w2' | w2'] eqn:E2; [|vm_compute in E2; discriminate].
  exists d1, w1', d2, w2'. split; [reflexivity|]. split; [reflexivity|].
  destruct (H ("ChannelA", "PL2", "vid3"))
    as (t & r1 & r2 & G1 & G2 & T1 & T2).
  - right. left. reflexivity.
  - rewrite G1, G2. simpl. congruence.
Defined.

Lemma modelers_write_topics_only_witness :
  let s := {| TopicModeling.json_file := "data.json";
              TopicModeling.num_topics := 2;
              TopicModeling.data := example_store |} in
  exists d' w',
    TopicModeling.run example_TfidfVectorizer example_NMF s example_world
      = Returned d' w'
    /\ only_topics_written example_store d'.
Proof.
  intros s.
  destruct (TopicModeling.run example_TfidfVectorizer example_NMF s
              example_world) as [d' w' | w'] eqn:E.
  - exists d', w'. split; [reflexivity|].
    exact (proj1 (proj1 (@modelers_write_topics_only example_runtime
                           example_TfidfVectorizer example_NMF
                           example_sent_tokenize nat
                           example_get_bert_embeddings example_KMeans
                           example_CountVectorizer s
                           {| TopicModelingBERT.json_file := "data.json";
                              TopicModelingBERT.num_topics := 2;
                              TopicModelingBERT.data := example_store |}
                           example_world)
                    example_store_wf) d' w' E).
  - vm_compute in E. discriminate.
Defined.

Lemma assign_topics_in_range_witness :
  length (fst (TopicModelingBERT.extract_captions example_sent_tokenize
                 example_store))
  = length (snd (TopicModelingBERT.extract_captions example_sent_tokenize
                   example_store))
  /\ exists d',
       TopicModeling.assign_topics example_store
         (snd (TopicModeling.extract_captions example_store))
         [[1; 0]; [0; 1]]%Q ["cats"; "dogs"] = Some d'.
Proof.
  destruct (assign_topics_in_range example_sent_tokenize example_store
              example_store_wf) as [(_ & _ & Hnmf) (Hlen & _ & _)].
  split; [exact Hlen|].
  apply Hnmf; [reflexivity|].
  repeat constructor; discriminate.
Defined.

Lemma run_without_captions_witness :
  TopicModeling.run example_TfidfVectorizer example_NMF
    {| TopicModeling.json_file := "data.json";
       TopicModeling.num_topics := 5;
       TopicModeling.data := blank_store |} example_world
  = Returned blank_store
      {| fs := [("data.json", example_text)]; net := 0;
         stdout := [NoCaptionsFound] |}
  /\ TopicModelingBERT.run example_sent_tokenize example_get_bert_embeddings
       example_KMeans example_CountVectorizer
       {| TopicModelingBERT.json_file := "data.json";
          TopicModelingBERT.num_topics := 5;
          TopicModelingBERT.data := [] |} example_world
     = Returned []
         {| fs := [("data.json", example_text)]; net := 0;
            stdout := [NoCaptionsFound] |}.
Proof.
  apply (@run_without_captions example_runtime example_TfidfVectorizer
           example_NMF example_sent_tokenize nat example_get_bert_embeddings
           example_KMeans example_CountVectorizer
           {| TopicModeling.json_file := "data.json";
              TopicModeling.num_topics := 5;
              TopicModeling.data := blank_store |}
           {| TopicModelingBERT.json_file := "data.json";
              TopicModelingBERT.num_topics := 5;
              TopicModelingBERT.data := [] |} example_world).
  - exact blank_store_no_captions.
  - intros k r [].
Defined.

(** The caption updater on the store of the examples: [vid2] has no
    transcript and keeps its captions, the videos after it are served, and
    the file is written. *)
Lemma caption_run_spec_witness :
  let s := {| YouTubeCaptionUpdater.json_file := "data.json";
              YouTubeCaptionUpdater.data := example_store |} in
  exists data' w',
    YouTubeCaptionUpdater.run example_get_transcript s example_world
      = Returned data' w'
    /\ option_map captions (store_get data' ("ChannelA", "PL1", "vid2"))
       = Some (Some "   ")
    /\ option_map captions (store_get data' ("ChannelA", "PL2", "vid3"))
       = Some (Some (join newline ["hello"; "vid3"]))
    /\ stdout w'
       = [CaptionFetched "vid1"; CaptionFailed "vid2" "TranscriptsDisabled";
          CaptionFetched "vid3"; CaptionFetched "vid4"; CaptionsSaved].
Proof.
  intros s.
  destruct (@caption_run_spec example_runtime example_get_transcript s
              example_world example_store_wf)
    as (data' & w' & E & _).
  exists data', w'. split; [exact E|].
  vm_compute in E. injection E as <- <-. repeat split.
Defined.

Lemma example_execute_paginates (n : nat) (video_id : string) :
  exists pages n',
    Paginates example_execute video_id n None pages n' /\ length pages <= 5.
Proof.
  destruct (String.eqb video_id "vid1") eqn:E.
  - eexists [_; _], _. split; [|simpl; lia].
    eapply Paginates_more.
    + unfold example_execute; simpl; rewrite E; reflexivity.
    + reflexivity.
    + eapply Paginates_last; reflexivity.
  - eexists [_], _. split; [|simpl; lia].
    eapply Paginates_last.
    + unfold example_execute; simpl; rewrite E; reflexivity.
    + reflexivity.
Qed.

(** The comment extractor on the store of the examples: [vid1] has two
    pages, the second ending the pagination with an empty token. *)
Lemma comments_collected_witness :
  let s := {| YouTubeCommentExtractor.api_key := "key";
              YouTubeCommentExtractor.json_file := "data.json";
              YouTubeCommentExtractor.data := example_store |} in
  exists d' w',
    YouTubeCommentExtractor.extract_comments example_execute 5 example_store
      example_world = YouTubeCommentExtractor.Done d' w'
    /\ Collected example_execute 5 0 (store_items example_store)
         (store_items d') (net w')
    /\ option_map comments (store_get d' ("ChannelA", "PL1", "vid1"))
       = Some (Some [ {| Timestamp := "t1"; Comment := "first" |};
                      {| Timestamp := "t2"; Comment := "second" |};
                      {| Timestamp := "t3"; Comment := "third" |} ]).
Proof.
  intros s.
  destruct (@comments_collected example_runtime example_execute 5 s
              example_world) as [Hsound Htotal].
  destruct (Htotal example_execute_paginates) as (d' & w' & E).
  exists d', w'. split; [exact E|].
  split; [exact (proj1 (Hsound d' w' E))|].
  vm_compute in E. injection E as <- <-. reflexivity.
Defined.

(** The comment extractor when the quota is spent at the third video: the
    fourth is not asked for, and nothing is saved. *)
Lemma comment_exception_propagates_witness :
  let s := {| YouTubeCommentExtractor.api_key := "key";
              YouTubeCommentExtractor.json_file := "data.json";
              YouTubeCommentExtractor.data := example_store |} in
  YouTubeCommentExtractor.run failing_execute 5 s example_world
  = Some (Raised
            {| fs := [("data.json", example_text)]; net := 3;
               stdout := [ExtractingComments "vid1" "ChannelA" "PL1";
                          ExtractingComments "vid2" "ChannelA" "PL1";
                          ExtractingComments "vid3" "ChannelA" "PL2"] |}).
Proof.
  intros s.
  refine (proj2 (@comment_exception_propagates example_runtime failing_execute
                   5 s example_world
                   (firstn 2 (store_items example_store))
                   (skipn 3 (store_items example_store))
                   _
                   ("ChannelA", "PL2", "vid3")
                   {| captions := Some "loyal dogs. great cats. dogs are pets.";
                      comments := None; topic := Some "old" |}
                   2 3 [] "quotaExceeded" eq_refl _ _ _)).
  - eapply Collected_cons; [eapply Paginates_last; reflexivity | simpl; lia |].
    eapply Collected_cons; [eapply Paginates_last; reflexivity | simpl; lia |].
    apply Collected_nil.
  - apply PaginationFails_now. reflexivity.
  - simpl. lia.
Defined.

(* ===================================================================== *)
(** * Further properties *)
(* ===================================================================== *)

(** ** The key structure of the store *)

Lemma dict_set_keys {V} (d : dict V) (k : string) (v v0 : V) :
  dict_get d k = Some v0 -> keys (dict_set d k v) = keys d.
Proof.
  unfold keys. induction d as [|[k' v'] d IH]; simpl; [discriminate|].
  destruct (String.eqb_spec k k') as [-> | Hk]; simpl.
  - reflexivity.
  - intros E. now rewrite IH.
Qed.

Lemma flat_map_dict_set {V X} (g : string * V -> list X) (d : dict V)
    (k : string) (v v0 : V) :
  dict_get d k = Some v0 -> g (k, v) = g (k, v0) ->
  flat_map g (dict_set d k v) = flat_map g d.
Proof.
  intros Hget Hg. induction d as [|[k' v'] d IH]; simpl in *; [discriminate|].
  destruct (String.eqb_spec k k') as [-> | Hk]; simpl.
  - injection Hget as ->. now rewrite Hg.
  - now rewrite IH.
Qed.

Lemma Forall_dict_set {V} (P : string * V -> Prop) (d : dict V)
    (k : string) (v : V) :
  Forall P d -> P (k, v) -> Forall P (dict_set d k v).
Proof.
  intros Hall Hp. induction Hall as [|[k' v'] d Hx Hall IH]; simpl.
  - now constructor.
  - destruct (String.eqb k k'); constructor; auto.
Qed.

Lemma map_flat_map_eq {X Y Z} (f : Y -> Z) (g : X -> list Y) (l : list X) :
  map f (flat_map g l) = flat_map (fun x => map f (g x)) l.
Proof.
  induction l as [|x l IH]; simpl; [reflexivity|]. now rewrite map_app, IH.
Qed.

Lemma store_keys_flat (d : Store) :
  store_keys d
  = flat_map (fun ap : string * Playlists =>
      flat_map (fun pv : string * Videos =>
        map (fun v => (fst ap, fst pv, v)) (keys (snd pv)))
        (snd ap)) d.
Proof.
  unfold store_keys, store_items, items, keys.
  rewrite map_flat_map_eq. apply flat_map_ext. intros [a playlists].
  rewrite map_flat_map_eq. apply flat_map_ext. intros [p videos].
  rewrite !map_map. apply map_ext. now intros [v r].
Qed.

Lemma store_update_keys (d d' : Store) (k : video_key)
    (upd : VideoRecord -> VideoRecord) :
  store_update d k upd = Some d' -> store_keys d' = store_keys d.
Proof.
  destruct k as [[a p] v]. unfold store_update.
  destruct (dict_get d a) as [playlists|] eqn:Ea; simpl; [|discriminate].
  destruct (dict_get playlists p) as [videos|] eqn:Ep; simpl; [|discriminate].
  destruct (dict_get videos v) as [r|] eqn:Ev; simpl; [|discriminate].
  intros E. injection E as <-. rewrite !store_keys_flat.
  apply flat_map_dict_set with (v0 := playlists); [exact Ea|].
  cbn [fst snd].
  apply flat_map_dict_set with (v0 := videos); [exact Ep|].
  cbn [fst snd]. now rewrite (dict_set_keys videos v (upd r) r Ev).
Qed.

Lemma store_update_wf (d d' : Store) (k : video_key)
    (upd : VideoRecord -> VideoRecord) :
  store_wf d -> store_update d k upd = Some d' -> store_wf d'.
Proof.
  destruct k as [[a p] v]. unfold store_update. intros [Hd Hall].
  destruct (dict_get d a) as [playlists|] eqn:Ea; simpl; [|discriminate].
  destruct (dict_get playlists p) as [videos|] eqn:Ep; simpl; [|discriminate].
  destruct (dict_get videos v) as [r|] eqn:Ev; simpl; [|discriminate].
  intros E. injection E as <-.
  pose proof Hall as Hall0. rewrite Forall_forall in Hall0.
  destruct (Hall0 _ (dict_get_In _ _ _ Ea)) as [Hpl Hvs]. simpl in Hpl, Hvs.
  pose proof Hvs as Hvs0. rewrite Forall_forall in Hvs0.
  pose proof (Hvs0 _ (dict_get_In _ _ _ Ep)) as Hv. simpl in Hv.
  split.
  - unfold dict_wf. now rewrite (dict_set_keys d a _ playlists Ea).
  - apply Forall_dict_set; [exact Hall|]. simpl. split.
    + unfold dict_wf. now rewrite (dict_set_keys playlists p _ videos Ep).
    + apply Forall_dict_set; [exact Hvs|]. simpl.
      unfold dict_wf. now rewrite (dict_set_keys videos v _ r Ev).
Qed.

Lemma dict_set_map_values {V U} (g : V -> U) (d : dict V) (k : string)
    (v v0 : V) :
  dict_get d k = Some v0 -> g v = g v0 ->
  map (fun kv => (fst kv, g (snd kv))) (dict_set d k v)
  = map (fun kv => (fst kv, g (snd kv))) d.
Proof.
  intros E Hg. induction d as [|[k' v'] d IH]; simpl in *; [discriminate|].
  destruct (String.eqb_spec k k') as [-> | Hk]; simpl.
  - injection E as ->. now rewrite Hg.
  - now rewrite IH.
Qed.

Lemma store_update_shape (d d' : Store) (k : video_key)
    (upd : VideoRecord -> VideoRecord) :
  store_update d k upd = Some d' -> store_shape d' = store_shape d.
Proof.
  destruct k as [[a p] v]. unfold store_update.
  destruct (dict_get d a) as [playlists|] eqn:Ea; simpl; [|discriminate].
  destruct (dict_get playlists p) as [videos|] eqn:Ep; simpl; [|discriminate].
  destruct (dict_get videos v) as [r|] eqn:Ev; simpl; [|discriminate].
  intros E. injection E as <-. unfold store_shape.
  apply (dict_set_map_values
           (fun pls : Playlists =>
              map (fun pv => (fst pv, keys (snd pv))) pls)
           d a _ playlists Ea).
  apply (dict_set_map_values (fun vs : Videos => keys vs)
           playlists p _ videos Ep).
  exact (dict_set_keys videos v (upd r) r Ev).
Qed.

Lemma store_shape_keys (d d' : Store) :
  store_shape d' = store_shape d -> store_keys d' = store_keys d.
Proof.
  assert (H : forall d : Store,
             store_keys d
             = flat_map (fun ap =>
                 flat_map (fun pv => map (fun v => (fst ap, fst pv, v))
                                         (snd pv))
                          (snd ap))
                 (store_shape d)).
  { clear. intros d. rewrite store_keys_flat. unfold store_shape.
    induction d as [|[a pls] d IH]; [reflexivity|].
    cbn [map flat_map fst snd]. rewrite <- IH. f_equal.
    clear. induction pls as [|[p vs] pls IH]; [reflexivity|].
    cbn [map flat_map fst snd]. now rewrite <- IH. }
  intros E. now rewrite !H, E.
Qed.

Lemma assign_fold_shape (topic_of : nat -> option string) :
  forall (l : list (nat * video_key)) (d d' : Store),
    fold_left (assign_step topic_of) l (Some d) = Some d' ->
    store_shape d' = store_shape d.
Proof.
  induction l as [|[n x] l IH]; intros d d' E.
  - simpl in E. now injection E as <-.
  - apply assign_step_inv in E as (t0 & d1 & Et & Eu & E).
    rewrite (IH d1 d' E). eapply store_update_shape; eauto.
Qed.

Lemma assign_fold_keys (topic_of : nat -> option string) :
  forall (l : list (nat * video_key)) (d d' : Store),
    fold_left (assign_step topic_of) l (Some d) = Some d' ->
    store_keys d' = store_keys d /\ (store_wf d -> store_wf d').
Proof.
  induction l as [|[n x] l IH]; intros d d' E.
  - simpl in E. injection E as <-. auto.
  - apply assign_step_inv in E as (t0 & d1 & Et & Eu & E).
    destruct (IH d1 d' E) as [Hk Hw]. split.
    + rewrite Hk. eapply store_update_keys; eauto.
    + intros Hwf. apply Hw. eapply store_update_wf; eauto.
Qed.

Section KeysOfModelers.
Context `{RT : Runtime}.
Variable TfidfVectorizer :
  string -> nat -> list string -> option (list (list weight) * list string).
Variable NMF :
  nat -> Z -> list (list weight)
  -> option (list (list weight) * list (list weight)).
Variable sent_tokenize : string -> list string.
Variable embedding : Type.
Variable get_bert_embeddings : list string -> option (list embedding).
Variable KMeans : nat -> Z -> list embedding -> option (list nat).
Variable CountVectorizer :
  string -> list string -> option (list (list Z) * list string).

(** X1.  A run of either topic modeler that returns leaves the authors,
    the playlists and the videos of the store where they were, in the same
    order, whatever the libraries answered: the keys of the three levels
    are as before, those of an author without playlists and of a playlist
    without videos too; and a store whose keys are distinct at each level
    still has distinct keys afterwards. *)
Theorem modelers_keep_keys
    (s : TopicModeling.self) (sb : TopicModelingBERT.self) (w : World) :
  (forall d' w',
      TopicModeling.run TfidfVectorizer NMF s w = Returned d' w' ->
      store_shape d' = store_shape (TopicModeling.data s)
      /\ store_keys d' = store_keys (TopicModeling.data s)
      /\ (store_wf (TopicModeling.data s) -> store_wf d'))
  /\ (forall d' w',
        TopicModelingBERT.run sent_tokenize get_bert_embeddings KMeans
          CountVectorizer sb w = Returned d' w' ->
        store_shape d' = store_shape (TopicModelingBERT.data sb)
        /\ store_keys d' = store_keys (TopicModelingBERT.data sb)
        /\ (store_wf (TopicModelingBERT.data sb) -> store_wf d')).
Proof.
  split; intros d' w' E.
  - apply nmf_run_inv in E as [(_ & -> & _) | (tk & W & _ & Ea & _)]; [auto|].
    rewrite nmf_assign_topics_fold in Ea.
    pose proof (assign_fold_shape _ _ _ _ Ea) as Hshape.
    split; [exact Hshape|].
    split; [now apply store_shape_keys|].
    now apply assign_fold_keys in Ea.
  - apply bert_run_inv in E as [(_ & -> & _) | (labels & tk & Ea & _)]; [auto|].
    rewrite bert_assign_topics_fold in Ea.
    pose proof (assign_fold_shape _ _ _ _ Ea) as Hshape.
    split; [exact Hshape|].
    split; [now apply store_shape_keys|].
    now apply assign_fold_keys in Ea.
Qed.
End KeysOfModelers.

(** ** What the caption updater leaves alone *)

Lemma same_videos_refl (R : VideoRecord -> VideoRecord -> Prop) (d : Store) :
  (forall r, R r r) -> same_videos R d d.
Proof. intros HR k. destruct (store_get d k); auto. Qed.

Lemma same_videos_trans (R : VideoRecord -> VideoRecord -> Prop)
    (d1 d2 d3 : Store) :
  (forall r1 r2 r3, R r1 r2 -> R r2 r3 -> R r1 r3) ->
  same_videos R d1 d2 -> same_videos R d2 d3 -> same_videos R d1 d3.
Proof.
  intros HR H12 H23 k. specialize (H12 k). specialize (H23 k).
  destruct (store_get d1 k), (store_get d2 k), (store_get d3 k);
    try tauto; eauto.
Qed.

Lemma store_update_same_videos (R : VideoRecord -> VideoRecord -> Prop)
    (d d' : Store) (k : video_key) (upd : VideoRecord -> VideoRecord) :
  (forall r, R r r) -> (forall r, R r (upd r)) ->
  store_update d k upd = Some d' -> same_videos R d d'.
Proof.
  intros Hrefl Hupd Eu k'. rewrite (store_get_update d d' k k' upd Eu).
  destruct (key_eqb k' k); destruct (store_get d k'); simpl; auto.
Qed.

Section CaptionUpdaterFrame.
Context `{RT : Runtime}.
Variable get_transcript :
  Net -> string -> Net * result (list YouTubeCaptionUpdater.segment).

Lemma update_video_frame (d : Store) (w : World) (k : video_key) :
  let st := YouTubeCaptionUpdater.update_video get_transcript (d, w) k in
  same_videos same_but_captions d (fst st)
  /\ store_keys (fst st) = store_keys d
  /\ (store_wf d -> store_wf (fst st))
  /\ fs (snd st) = fs w.
Proof.
  destruct k as [[channel playlist_id] video_id].
  unfold YouTubeCaptionUpdater.update_video.
  cbn -[store_update store_get key_eqb join].
  assert (Hsame : same_videos same_but_captions d d)
    by (apply same_videos_refl; split; reflexivity).
  destruct (get_transcript (net w) video_id) as [n' [transcript | e]];
    cbn -[store_update store_get key_eqb join]; [|auto].
  destruct (store_update d (channel, playlist_id, video_id) _) as [d1|] eqn:Eu;
    cbn [fst snd fs print]; [|auto].
  split; [|split; [|split]].
  - eapply store_update_same_videos; [| |exact Eu];
      intros r; split; reflexivity.
  - eapply store_update_keys; eauto.
  - intros Hwf. eapply store_update_wf; eauto.
  - reflexivity.
Qed.

Lemma update_fold_frame :
  forall (ks : list video_key) (d : Store) (w : World),
    let st :=
      fold_left (YouTubeCaptionUpdater.update_video get_transcript) ks (d, w) in
    same_videos same_but_captions d (fst st)
    /\ store_keys (fst st) = store_keys d
    /\ (store_wf d -> store_wf (fst st))
    /\ fs (snd st) = fs w.
Proof.
  induction ks as [|k ks IH]; intros d w; cbn [fold_left].
  - split; [apply same_videos_refl; split; reflexivity | auto].
  - destruct (update_video_frame d w k) as (H1 & H2 & H3 & H4).
    destruct (YouTubeCaptionUpdater.update_video get_transcript (d, w) k)
      as [d1 w1]. cbn [fst snd] in *.
    destruct (IH d1 w1) as (G1 & G2 & G3 & G4).
    split; [|split; [|split]].
    + eapply same_videos_trans; [|exact H1|exact G1].
      intros r1 r2 r3 [A1 A2] [B1 B2]. split; congruence.
    + congruence.
    + auto.
    + congruence.
Qed.

(** X2.  [run] of the caption updater always returns, whatever the
    transcript service answers.  It writes captions only: every video is
    still there, in its place, with the comments and the topic it had; no
    video is added; and distinct keys stay distinct. *)
Theorem caption_run_frame (s : YouTubeCaptionUpdater.self) (w : World) :
  exists d' w',
    YouTubeCaptionUpdater.run get_transcript s w = Returned d' w'
    /\ same_videos same_but_captions (YouTubeCaptionUpdater.data s) d'
    /\ store_keys d' = store_keys (YouTubeCaptionUpdater.data s)
    /\ (store_wf (YouTubeCaptionUpdater.data s) -> store_wf d').
Proof.
  unfold YouTubeCaptionUpdater.run, YouTubeCaptionUpdater.update_captions.
  destruct (update_fold_frame
              (map fst (store_items (YouTubeCaptionUpdater.data s)))
              (YouTubeCaptionUpdater.data s) w) as (H1 & H2 & H3 & _).
  destruct (fold_left (YouTubeCaptionUpdater.update_video get_transcript)
              (map fst (store_items (YouTubeCaptionUpdater.data s)))
              (YouTubeCaptionUpdater.data s, w)) as [d' w1].
  cbn [fst snd] in *. eauto 10.
Qed.
End CaptionUpdaterFrame.

(** ** What the comment extractor leaves alone *)

Lemma Forall2_Forall_r {X Y} (R : X -> Y -> Prop) (P : X -> Prop)
    (Q : Y -> Prop) (l : list X) (l' : list Y) :
  (forall x y, R x y -> P x -> Q y) ->
  Forall2 R l l' -> Forall P l -> Forall Q l'.
Proof.
  intros HR F. induction F as [|x y l l' Hxy F IH]; intros Hall;
    constructor; inversion Hall; subst; eauto.
Qed.

Lemma Forall2_keys {V} (R : string * V -> string * V -> Prop)
    (d d' : dict V) :
  (forall x y, R x y -> fst y = fst x) -> Forall2 R d d' -> keys d' = keys d.
Proof.
  intros HR F. unfold keys.
  induction F as [|x y l l' Hxy F IH]; simpl; [reflexivity|].
  now rewrite IH, (HR x y Hxy).
Qed.

Section CommentExtractorFrame.
Context `{RT : Runtime}.
Variable execute :
  Net -> YouTubeCommentExtractor.request
  -> Net * result YouTubeCommentExtractor.response.

Import YouTubeCommentExtractor.

Lemma for_items_Forall2 {V : Type}
    (body : string -> V -> World -> step World V) :
  forall d w d' w',
    for_items body d w = Done d' w' ->
    Forall2 (fun kv kv' =>
               fst kv' = fst kv
               /\ exists w1 w2,
                    body (fst kv) (snd kv) w1 = Done (snd kv') w2)
            d d'.
Proof.
  induction d as [|[k v] d IH]; intros w d' w' E; cbn [for_items] in E.
  - injection E as <- <-. constructor.
  - destruct (body k v w) as [v' w1 | e w1 |] eqn:Eb; try discriminate.
    destruct (for_items body d w1) as [d1 w2 | e w2 |] eqn:Ef;
      try discriminate.
    injection E as <- <-. constructor; [|eapply IH; eauto].
    split; [reflexivity|]. cbn [fst snd]. eauto.
Qed.

Lemma for_items_keys {V : Type}
    (body : string -> V -> World -> step World V) d w d' w' :
  for_items body d w = Done d' w' -> keys d' = keys d.
Proof.
  intros E. apply for_items_Forall2 in E.
  eapply Forall2_keys; [|exact E]. now intros x y [Hk _].
Qed.

Lemma for_items_wf {V : Type}
    (body : string -> V -> World -> step World V) d w d' w' :
  for_items body d w = Done d' w' -> dict_wf d -> dict_wf d'.
Proof.
  intros E. unfold dict_wf. now rewrite (for_items_keys _ _ _ _ _ E).
Qed.

Lemma extract_comments_wf fuel (d : Store) (w : World) (d' : Store)
    (w' : World) :
  extract_comments execute fuel d w = Done d' w' ->
  store_wf d -> store_wf d'.
Proof.
  unfold extract_comments. intros E [Hd Hall].
  split.
  - eapply for_items_wf; eauto.
  - apply for_items_Forall2 in E.
    eapply Forall2_Forall_r; [|exact E|exact Hall].
    intros [a pl] [a' pl'] [_ (w1 & w2 & Ea)] [Hpl Hvs].
    cbn [fst snd] in *. split.
    + eapply for_items_wf; eauto.
    + apply for_items_Forall2 in Ea.
      eapply Forall2_Forall_r; [|exact Ea|exact Hvs].
      intros [p vs] [p' vs'] [_ (w3 & w4 & Ep)] Hv.
      cbn [fst snd] in *. eapply for_items_wf; eauto.
Qed.

Lemma Collected_frame fuel n l l' n' :
  Collected execute fuel n l l' n' ->
  Forall2 (fun kr kr' =>
             fst kr' = fst kr /\ same_but_comments (snd kr) (snd kr'))
          l l'.
Proof.
  induction 1 as [n | n k r pages n1 videos videos' n' Hp Hlen Hc IH];
    constructor; [|exact IH].
  split; [reflexivity|]. cbn [snd]. unfold same_but_comments. simpl.
  repeat split. discriminate.
Qed.

(** X3.  When [extract_comments] returns, it has written comments only:
    the videos are the same, in the same order, each with the captions and
    the topic it had, and each now has a list of comments, be it empty;
    distinct keys are still distinct; the file system is untouched, and one
    line was printed per video. *)
Theorem extract_comments_frame (fuel : nat) (d : Store) (w : World)
    (d' : Store) (w' : World) :
  extract_comments execute fuel d w = Done d' w' ->
  Forall2 (fun kr kr' =>
             fst kr' = fst kr /\ same_but_comments (snd kr) (snd kr'))
          (store_items d) (store_items d')
  /\ (store_wf d -> store_wf d')
  /\ fs w' = fs w
  /\ stdout w' = stdout w ++ map extracting_message (store_items d).
Proof.
  intros E.
  pose proof (extract_comments_flat execute fuel d w) as Hf.
  rewrite E in Hf. cbn [step_map] in Hf. symmetry in Hf.
  apply extract_flat_done_inv in Hf as (Hc & Hfs & Hout).
  split; [eapply Collected_frame; eauto|].
  split; [now apply (extract_comments_wf fuel d w d' w')|].
  split; assumption.
Qed.
End CommentExtractorFrame.

(** ** Loading and saving *)

Section LoadAndSave.
Context `{RT : Runtime}.

Lemma load_data_unloadable (json_file : string) (w : World) (e : exn) :
  unloadable w json_file e ->
  load_data json_file w = ([], print w (LoadFailed e)).
Proof.
  unfold load_data. intros [E | (text & E & Ej)]; rewrite E;
    [reflexivity | now rewrite Ej].
Qed.

(** X4.  What [save_data] wrote, [load_data] reads back: when the write
    raised nothing, the file system gives back what was written and the
    codec parses its own dump of the store, a script started on the world
    that [save_data] left loads the very store that was saved, and prints
    no warning. *)
Theorem saved_store_is_loaded (saved : message) (json_file : string)
    (d : Store) (w : World) (fs' : FS) :
  fs_write (fs w) json_file (json_dump d) = (fs', None) ->
  fs_read fs' json_file = Ok (json_dump d) ->
  json_load (json_dump d) = Ok d ->
  load_data json_file (save_data saved json_file d w)
  = (d, {| fs := fs'; net := net w; stdout := stdout w ++ [saved] |}).
Proof.
  intros Ew Er Ej. unfold save_data. rewrite Ew.
  unfold load_data, print. cbn [fs net stdout]. now rewrite Er, Ej.
Qed.

Variable TfidfVectorizer :
  string -> nat -> list string -> option (list (list weight) * list string).
Variable NMF :
  nat -> Z -> list (list weight)
  -> option (list (list weight) * list (list weight)).
Variable sent_tokenize : string -> list string.
Variable embedding : Type.
Variable get_bert_embeddings : list string -> option (list embedding).
Variable KMeans : nat -> Z -> list embedding -> option (list nat).
Variable CountVectorizer :
  string -> list string -> option (list (list Z) * list string).
Variable BertTokenizer_from_pretrained :
  FS -> Net -> string -> FS * Net * option exn.
Variable BertModel_from_pretrained :
  FS -> Net -> string -> FS * Net * option exn.
Variable get_transcript :
  Net -> string -> Net * result (list YouTubeCaptionUpdater.segment).
Variable execute :
  Net -> YouTubeCommentExtractor.request
  -> Net * result YouTubeCommentExtractor.response.

(** X5.  A topic modeler started on a file that cannot be loaded holds the
    empty store; its [run] prints the warning of [load_data] and then "No
    captions found in data.json", calls no library and itself touches
    neither the file system nor the network.  The constructor of the
    embedding modeler loads the pretrained tokenizer and model after the
    file: when both loads succeed the run is as said, from the file system
    and the network as the loads left them; when one of them raises, the
    warning of [load_data] has been printed, the constructor raises, and
    there is no object to run. *)
Theorem modelers_on_unloadable_file (json_file : string) (num_topics : nat)
    (w : World) (e : exn) :
  unloadable w json_file e ->
  (let (s, w1) := TopicModeling.init json_file num_topics w in
   TopicModeling.run TfidfVectorizer NMF s w1)
  = Returned []
      {| fs := fs w; net := net w;
         stdout := stdout w ++ [LoadFailed e; NoCaptionsFound] |}
  /\ (forall fs1 net1 fs2 net2,
        BertTokenizer_from_pretrained (fs w) (net w) "bert-base-uncased"
          = (fs1, net1, None) ->
        BertModel_from_pretrained fs1 net1 "bert-base-uncased"
          = (fs2, net2, None) ->
        let s := {| TopicModelingBERT.json_file := json_file;
                    TopicModelingBERT.num_topics := num_topics;
                    TopicModelingBERT.data := [] |} in
        let w2 := {| fs := fs2; net := net2;
                     stdout := stdout w ++ [LoadFailed e] |} in
        TopicModelingBERT.init BertTokenizer_from_pretrained
          BertModel_from_pretrained json_file num_topics w
          = TopicModelingBERT.Constructed s w2
        /\ TopicModelingBERT.run sent_tokenize get_bert_embeddings KMeans
             CountVectorizer s w2
           = Returned []
               {| fs := fs2; net := net2;
                  stdout := stdout w ++ [LoadFailed e; NoCaptionsFound] |})
  /\ (forall fs1 net1 e',
        BertTokenizer_from_pretrained (fs w) (net w) "bert-base-uncased"
          = (fs1, net1, Some e') ->
        TopicModelingBERT.init BertTokenizer_from_pretrained
          BertModel_from_pretrained json_file num_topics w
        = TopicModelingBERT.InitRaised e'
            {| fs := fs1; net := net1;
               stdout := stdout w ++ [LoadFailed e] |})
  /\ (forall fs1 net1 fs2 net2 e',
        BertTokenizer_from_pretrained (fs w) (net w) "bert-base-uncased"
          = (fs1, net1, None) ->
        BertModel_from_pretrained fs1 net1 "bert-base-uncased"
          = (fs2, net2, Some e') ->
        TopicModelingBERT.init BertTokenizer_from_pretrained
          BertModel_from_pretrained json_file num_topics w
        = TopicModelingBERT.InitRaised e'
            {| fs := fs2; net := net2;
               stdout := stdout w ++ [LoadFailed e] |}).
Proof.
  intros Hu. unfold TopicModeling.init, TopicModelingBERT.init.
  rewrite (load_data_unloadable json_file w e Hu).
  cbn [print fs net stdout].
  split; [|split; [|split]].
  - unfold TopicModeling.run, print. simpl.
    now rewrite <- app_assoc.
  - intros fs1 net1 fs2 net2 Et Em. cbv zeta. rewrite Et, Em.
    split; [reflexivity|].
    unfold TopicModelingBERT.run, print. simpl.
    now rewrite <- app_assoc.
  - intros fs1 net1 e' Et. now rewrite Et.
  - intros fs1 net1 fs2 net2 e' Et Em. now rewrite Et, Em.
Qed.

(** X6.  The two fetchers started on a file that cannot be loaded hold the
    empty store too, but their [run] goes on to [save_data]: without a
    single request to the service, the dump of the empty store is written
    over the file. *)
Theorem fetchers_on_unloadable_file (api_key json_file : string) (fuel : nat)
    (w : World) (e : exn) :
  unloadable w json_file e ->
  (let (s, w1) := YouTubeCaptionUpdater.init json_file w in
   YouTubeCaptionUpdater.run get_transcript s w1)
  = Returned []
      (save_data CaptionsSaved json_file [] (print w (LoadFailed e)))
  /\ (let (s, w1) := YouTubeCommentExtractor.init api_key json_file w in
      YouTubeCommentExtractor.run execute fuel s w1)
     = Some (Returned []
               (save_data CommentsSaved json_file []
                  (print w (LoadFailed e))))
  /\ forall saved,
       fs (save_data saved json_file [] (print w (LoadFailed e)))
       = fst (fs_write (fs w) json_file (json_dump []))
       /\ net (save_data saved json_file [] (print w (LoadFailed e))) = net w.
Proof.
  intros Hu.
  unfold YouTubeCaptionUpdater.init, YouTubeCommentExtractor.init.
  rewrite (load_data_unloadable json_file w e Hu).
  split; [reflexivity|]. split; [reflexivity|].
  intros saved. unfold save_data. cbn [print fs net stdout].
  destruct (fs_write (fs w) json_file (json_dump [])) as [fs' [e'|]];
    split; reflexivity.
Qed.
End LoadAndSave.

(** ** Pagination without an end *)

Section EndlessPagination.
Context `{RT : Runtime}.
Variable execute :
  Net -> YouTubeCommentExtractor.request
  -> Net * result YouTubeCommentExtractor.response.

Import YouTubeCommentExtractor.

Lemma endless_loop :
  (forall n request,
      exists n' response,
        execute n request = (n', Ok response)
        /\ no_token (nextPageToken response) = false) ->
  forall fuel video_id all_comments token n,
    get_comments_loop execute fuel video_id all_comments token n = OutOfFuel.
Proof.
  intros Hsvc. induction fuel as [|fuel IH];
    intros video_id all_comments token n; simpl; [reflexivity|].
  destruct (Hsvc n {| part := "snippet"; videoId := video_id;
                      pageToken := token; textFormat := "plainText";
                      maxResults := 100 |}) as (n' & response & -> & ->).
  apply IH.
Qed.

(** X7.  The loop of [get_comments_for_video] has no bound of its own: if
    the service answers every request with a page that carries a token,
    the loop is still running after any number of requests, and so is
    [run] on any store that has a video; nothing is saved. *)
Theorem pagination_without_end (fuel : nat) (s : self) (w : World) :
  (forall n request,
      exists n' response,
        execute n request = (n', Ok response)
        /\ no_token (nextPageToken response) = false) ->
  (forall video_id n,
      get_comments_for_video execute fuel video_id n = OutOfFuel)
  /\ (store_items (data s) <> [] -> run execute fuel s w = None).
Proof.
  intros Hsvc. split.
  - intros video_id n. unfold get_comments_for_video. now apply endless_loop.
  - intros Hne. unfold run.
    pose proof (extract_comments_flat execute fuel (data s) w) as Hf.
    destruct (store_items (data s))
      as [|[[[author playlist_id] video_id] r] videos]; [congruence|].
    cbn [extract_flat] in Hf.
    unfold extract_video, get_comments_for_video in Hf.
    rewrite (endless_loop Hsvc) in Hf.
    destruct (extract_comments execute fuel (data s) w); try discriminate.
    reflexivity.
Qed.
End EndlessPagination.

(** ** The maps of the two modelers *)

(** X8.  In the NMF modeler the captions list and the map run in step:
    entry [i] of the list is the stripped captions of the video at entry
    [i] of the map and is never empty, and in a store with distinct keys
    no video is in the map twice. *)
Theorem nmf_captions_and_map (d : Store) :
  store_wf d ->
  Forall2 (fun captions k =>
             exists r,
               store_get d k = Some r
               /\ captions = strip (get_captions r)
               /\ captions <> "")
          (fst (TopicModeling.extract_captions d))
          (snd (TopicModeling.extract_captions d))
  /\ NoDup (snd (TopicModeling.extract_captions d)).
Proof.
  intros Hwf. rewrite nmf_extract_captions_eq. cbn [fst snd]. split.
  - assert (G : forall l,
               (forall kr, In kr l -> In kr (store_items d)) ->
               Forall2 (fun captions k =>
                          exists r,
                            store_get d k = Some r
                            /\ captions = strip (get_captions r)
                            /\ captions <> "")
                       (map (fun kr => strip (get_captions (snd kr)))
                            (filter has_caption l))
                       (map fst (filter has_caption l))).
    { induction l as [|[k r] l IH]; intros Hin; simpl; [constructor|].
      destruct (has_caption (k, r)) eqn:Hc; simpl.
      - constructor.
        + exists r. split; [|split; [reflexivity|]].
          * apply store_In_get; [exact Hwf | apply Hin; now left].
          * unfold has_caption in Hc. simpl in Hc. intros E.
            now rewrite E in Hc.
        + apply IH. intros kr Hkr. apply Hin. now right.
      - apply IH. intros kr Hkr. apply Hin. now right. }
    apply G. auto.
  - apply NoDup_map_filter, store_items_NoDup, Hwf.
Qed.

Lemma occurrences_app (k : video_key) (l1 l2 : list video_key) :
  occurrences k (l1 ++ l2) = occurrences k l1 + occurrences k l2.
Proof. unfold occurrences. now rewrite filter_app, length_app. Qed.

Lemma occurrences_not_In (k : video_key) (l : list video_key) :
  ~ In k l -> occurrences k l = 0.
Proof.
  unfold occurrences. induction l as [|x l IH]; simpl; [reflexivity|].
  intros Hnin. destruct (key_eqb k x) eqn:E.
  - apply key_eqb_eq in E. subst x. exfalso. apply Hnin. now left.
  - apply IH. intros Hin. apply Hnin. now right.
Qed.

Lemma occurrences_In (k : video_key) (l : list video_key) :
  In k l -> 0 < occurrences k l.
Proof.
  unfold occurrences. induction l as [|x l IH]; simpl; [tauto|].
  intros [-> | Hin].
  - rewrite (proj2 (key_eqb_eq k k) eq_refl). simpl. lia.
  - destruct (key_eqb k x); simpl; [lia | now apply IH].
Qed.

Lemma occurrences_repeat (k : video_key) (n : nat) :
  occurrences k (repeat k n) = n.
Proof.
  unfold occurrences. induction n as [|n IH]; simpl; [reflexivity|].
  rewrite (proj2 (key_eqb_eq k k) eq_refl). simpl. now rewrite IH.
Qed.

Section RowsPerVideo.
Variable sent_tokenize : string -> list string.

(** X9.  In the embedding modeler a video of a store with distinct keys
    is in the map once per sentence of its stripped captions, and not at
    all when it has no captions.  A video whose captions give no sentence
    is therefore given no topic: [assign_topics] leaves its record as it
    was. *)
Theorem bert_rows_per_video (d : Store) (k : video_key) (r : VideoRecord) :
  let video_id_map :=
    snd (TopicModelingBERT.extract_captions sent_tokenize d) in
  store_wf d ->
  store_get d k = Some r ->
  occurrences k video_id_map
  = (if has_caption (k, r)
     then length (sentences_of sent_tokenize (k, r)) else 0)
  /\ (sentences_of sent_tokenize (k, r) = [] ->
      forall kmeans_labels topic_keywords d',
        TopicModelingBERT.assign_topics d video_id_map kmeans_labels
          topic_keywords = Some d' ->
        store_get d' k = Some r).
Proof.
  intros video_id_map Hwf Hget.
  assert (Hocc : occurrences k video_id_map
                 = (if has_caption (k, r)
                    then length (sentences_of sent_tokenize (k, r)) else 0)).
  { destruct (has_caption (k, r)) eqn:Hc.
    - unfold video_id_map. rewrite bert_extract_captions_eq. cbn [snd].
      assert (Hin : In (k, r) (filter has_caption (store_items d))).
      { apply filter_In. split; [now apply store_get_In | exact Hc]. }
      assert (Hnd : NoDup (map fst (filter has_caption (store_items d))))
        by apply NoDup_map_filter, store_items_NoDup, Hwf.
      apply in_split in Hin as (pre & post & E). rewrite E in *.
      rewrite map_app in Hnd. simpl in Hnd.
      apply NoDup_remove_2 in Hnd.
      rewrite flat_map_app. cbn [flat_map].
      rewrite !occurrences_app.
      rewrite (occurrences_not_In k (flat_map (owners_of sent_tokenize) pre)).
      2:{ intros Hin. apply owners_of_In in Hin. apply Hnd, in_or_app.
          now left. }
      rewrite (occurrences_not_In k (flat_map (owners_of sent_tokenize) post)).
      2:{ intros Hin. apply owners_of_In in Hin. apply Hnd, in_or_app.
          now right. }
      unfold owners_of at 1. cbn [fst]. rewrite occurrences_repeat. lia.
    - apply occurrences_not_In.
      now apply (bert_not_in_map sent_tokenize d k r). }
  split; [exact Hocc|].
  intros Hnone labels tk d' Ea.
  assert (Hnin : ~ In k video_id_map).
  { intros Hin. apply occurrences_In in Hin. rewrite Hocc, Hnone in Hin.
    destruct (has_caption (k, r)); simpl in Hin; lia. }
  rewrite bert_assign_topics_fold in Ea. unfold enumerate in Ea.
  destruct (assign_fold_get _ _ _ _ _ Ea k) as [Ha _].
  now rewrite Ha.
Qed.
End RowsPerVideo.

(** ** The keywords of the clusters *)

Lemma StronglySorted_app {X} (R : X -> X -> Prop) (l1 l2 : list X) :
  StronglySorted R l1 -> StronglySorted R l2 ->
  (forall x y, In x l1 -> In y l2 -> R x y) ->
  StronglySorted R (l1 ++ l2).
Proof.
  induction 1 as [|a l1 Hs IH Hall]; intros H2 H12; simpl; [exact H2|].
  constructor.
  - apply IH; [exact H2|]. intros x y Hx. apply H12. now right.
  - rewrite Forall_forall in *. intros y Hy.
    apply in_app_or in Hy as [Hy | Hy]; [now apply Hall|].
    apply H12; [now left | exact Hy].
Qed.

Lemma StronglySorted_rev {X} (R : X -> X -> Prop) (l : list X) :
  StronglySorted R l -> StronglySorted (fun x y => R y x) (rev l).
Proof.
  induction 1 as [|a l Hs IH Hall]; simpl; [constructor|].
  apply StronglySorted_app; [exact IH | repeat constructor|].
  intros x y Hx [<- | []]. rewrite Forall_forall in Hall.
  apply Hall. now apply in_rev.
Qed.

Lemma zip_add_nth (acc row : list Z) (j : nat) :
  length acc = length row ->
  nth j (map (fun xy => (fst xy + snd xy)%Z) (combine acc row)) 0%Z
  = (nth j acc 0 + nth j row 0)%Z.
Proof.
  revert row j. induction acc as [|a acc IH]; intros [|b row] [|j] E;
    simpl in *; try discriminate; try reflexivity.
  apply IH. now injection E.
Qed.

Lemma sum_axis0_spec (ncols : nat) (m : list (list Z)) :
  Forall (fun row => length row = ncols) m ->
  length (TopicModelingBERT.sum_axis0 ncols m) = ncols
  /\ forall j,
       nth j (TopicModelingBERT.sum_axis0 ncols m) 0%Z
       = fold_right Z.add 0%Z (map (fun row => nth j row 0%Z) m).
Proof.
  unfold TopicModelingBERT.sum_axis0. intros Hall.
  assert (G : forall acc,
             length acc = ncols ->
             length (fold_left
                       (fun acc row =>
                          map (fun xy => (fst xy + snd xy)%Z) (combine acc row))
                       m acc) = ncols
             /\ forall j,
                  nth j (fold_left
                           (fun acc row =>
                              map (fun xy => (fst xy + snd xy)%Z)
                                  (combine acc row))
                           m acc) 0%Z
                  = (nth j acc 0
                     + fold_right Z.add 0 (map (fun row => nth j row 0) m))%Z).
  { induction Hall as [|row m Hrow Hall IH]; intros acc Hacc; simpl.
    - split; [exact Hacc | intros j; lia].
    - destruct (IH (map (fun xy => (fst xy + snd xy)%Z) (combine acc row)))
        as [Hl Hn].
      { rewrite length_map, length_combine. lia. }
      split; [exact Hl|]. intros j.
      rewrite Hn, zip_add_nth by lia. lia. }
  destruct (G (repeat 0%Z ncols) (repeat_length _ _)) as [Hl Hn].
  split; [exact Hl|]. intros j. rewrite Hn.
  assert (E : nth j (repeat 0%Z ncols) 0%Z = 0%Z) by apply nth_repeat.
  rewrite E. lia.
Qed.

Lemma where_eq_lt (labels : list nat) (topic_num i : nat) :
  In i (TopicModelingBERT.where_eq labels topic_num) -> i < length labels.
Proof.
  unfold TopicModelingBERT.where_eq. intros Hin.
  apply in_map_iff in Hin as ([i' label] & <- & Hin).
  apply filter_In in Hin as [Hin _]. apply enumerate_In in Hin.
  apply nth_error_Some. simpl. congruence.
Qed.

Lemma where_eq_sum (labels : list nat) (topic_num : nat) (f : nat -> Z) :
  fold_right Z.add 0%Z
    (map f (TopicModelingBERT.where_eq labels topic_num))
  = fold_right Z.add 0%Z
      (map (fun il => if snd il =? topic_num then f (fst il) else 0%Z)
           (enumerate labels)).
Proof.
  unfold TopicModelingBERT.where_eq. generalize (enumerate labels).
  induction l as [|[i label] l IH]; simpl; [reflexivity|].
  destruct (label =? topic_num); simpl; now rewrite IH.
Qed.

Lemma Zleb_total (x y : Z) : (x <=? y)%Z = false -> (y <=? x)%Z = true.
Proof. rewrite Z.leb_gt, Z.leb_le. lia. Qed.

Lemma Zleb_trans (x y z : Z) :
  (x <=? y)%Z = true -> (y <=? z)%Z = true -> (x <=? z)%Z = true.
Proof. rewrite !Z.leb_le. lia. Qed.

(** The first [n] of the reversed [argsort]: the indices of the [n]
    largest entries, largest first. *)
Lemma argsort_rev_first_n (a : list Z) (n : nat) :
  descending_top n (length a) (fun i => nth i a 0%Z)
    (first_n n (rev (argsort Z.leb a))).
Proof.
  unfold first_n. rewrite firstn_rev.
  destruct (argsort_last_n Z.leb Zleb_total Zleb_trans a n 0%Z)
    as (H1 & H2 & H3 & H4 & H5).
  unfold last_n in *. rewrite (argsort_length Z.leb a) in *.
  set (idxs := skipn (length a - n) (argsort Z.leb a)) in *.
  unfold descending_top. split; [|split; [|split; [|split]]].
  - now rewrite length_rev.
  - now apply NoDup_rev.
  - intros i Hi. apply H3. now apply in_rev.
  - apply StronglySorted_rev.
    revert H4. generalize idxs.
    induction 1 as [|i l Hs IH Hall]; constructor; auto.
    rewrite Forall_forall in *. intros j Hj. apply Z.leb_le. now apply Hall.
  - intros i j Hi Hj Hnj. apply Z.leb_le. apply H5.
    + now apply in_rev.
    + exact Hj.
    + intros Hin. apply Hnj. now apply (proj1 (in_rev idxs j)).
Qed.

Lemma mapM_index_Some {A} (l : list A) (idxs : list nat) (d : A) :
  (forall i, In i idxs -> i < length l) ->
  mapM (index l) idxs = Some (map (fun i => nth i l d) idxs).
Proof.
  intros Hlt. apply mapM_Some_map. intros i Hi. apply index_nth. auto.
Qed.

Lemma cluster_word_freq_spec (X : list (list Z)) (ncols : nat)
    (labels : list nat) (topic_num : nat) :
  length labels = length X ->
  Forall (fun row => length row = ncols) X ->
  length (cluster_word_freq X ncols labels topic_num) = ncols
  /\ forall j,
       nth j (cluster_word_freq X ncols labels topic_num) 0%Z
       = term_count_in_cluster X labels topic_num j.
Proof.
  intros Hlen Hrows. unfold cluster_word_freq.
  destruct (sum_axis0_spec ncols
              (map (fun i => nth i X [])
                   (TopicModelingBERT.where_eq labels topic_num)))
    as [Hl Hn].
  - rewrite Forall_forall in *. intros row Hin.
    apply in_map_iff in Hin as (i & <- & Hi). apply Hrows.
    apply nth_In. apply where_eq_lt in Hi. lia.
  - split; [exact Hl|]. intros j. rewrite Hn, map_map.
    unfold term_count_in_cluster.
    apply (where_eq_sum labels topic_num (fun i => nth j (nth i X []) 0%Z)).
Qed.

Lemma cluster_top_indices_descending (X : list (list Z)) (ncols : nat)
    (labels : list nat) (num_keywords topic_num : nat) :
  length labels = length X ->
  Forall (fun row => length row = ncols) X ->
  descending_top num_keywords ncols
    (term_count_in_cluster X labels topic_num)
    (cluster_top_indices X ncols labels num_keywords topic_num).
Proof.
  intros Hlen Hrows.
  destruct (cluster_word_freq_spec X ncols labels topic_num Hlen Hrows)
    as [Hl Hn].
  pose proof (argsort_rev_first_n
                (cluster_word_freq X ncols labels topic_num) num_keywords)
    as Htop.
  rewrite Hl in Htop. unfold descending_top in *.
  fold (cluster_top_indices X ncols labels num_keywords topic_num) in Htop.
  destruct Htop as (H1 & H2 & H3 & H4 & H5).
  split; [exact H1|]. split; [exact H2|]. split; [exact H3|]. split.
  - revert H4.
    generalize (cluster_top_indices X ncols labels num_keywords topic_num).
    induction 1 as [|i l Hs IH Hall]; constructor; auto.
    rewrite Forall_forall in *. intros j Hj. rewrite <- !Hn.
    now apply Hall.
  - intros i j Hi Hj Hnj. rewrite <- !Hn. now apply H5.
Qed.

Section ClusterKeywords.
Context `{RT : Runtime}.
Variable sent_tokenize : string -> list string.
Variable embedding : Type.
Variable get_bert_embeddings : list string -> option (list embedding).
Variable KMeans : nat -> Z -> list embedding -> option (list nat).
Variable CountVectorizer :
  string -> list string -> option (list (list Z) * list string).

Lemma top_keywords_closed_form (s : TopicModelingBERT.self)
    (captions : list string) (labels : list nat) (num_keywords : nat)
    (X : list (list Z)) (feature_names : list string) :
  CountVectorizer "english" captions = Some (X, feature_names) ->
  length labels = length captions ->
  length X = length captions ->
  Forall (fun row => length row = length feature_names) X ->
  TopicModelingBERT.get_top_keywords_for_topics CountVectorizer s captions
    labels num_keywords
  = Some (map (fun topic_num =>
                 map (term_at feature_names)
                     (cluster_top_indices X (length feature_names) labels
                        num_keywords topic_num))
              (seq 0 (TopicModelingBERT.num_topics s))).
Proof.
  intros HX Hlabels HlenX Hrows.
  unfold TopicModelingBERT.get_top_keywords_for_topics.
  rewrite HX. cbn [obind].
  apply mapM_Some_map. intros topic_num _. cbn zeta.
  rewrite (mapM_index_Some captions _ "").
  2:{ intros i Hi. apply where_eq_lt in Hi. lia. }
  cbn [obind].
  rewrite (mapM_index_Some X _ []).
  2:{ intros i Hi. apply where_eq_lt in Hi. lia. }
  cbn [obind].
  fold (cluster_word_freq X (length feature_names) labels topic_num).
  rewrite (mapM_index_Some feature_names _ "").
  2:{ intros i Hi. apply in_rev in Hi.
      apply (Permutation_in _ (argsort_perm Z.leb _)) in Hi.
      apply in_seq in Hi.
      destruct (cluster_word_freq_spec X (length feature_names) labels
                  topic_num) as [Hl _]; [lia | exact Hrows | lia]. }
  cbn [obind]. unfold cluster_top_indices, first_n, term_at.
  now rewrite firstn_map.
Qed.

(** X10.  When the count vectorizer answers with a row per sentence and a
    column per feature name, and there is a label per sentence,
    [get_top_keywords_for_topics] returns an entry for each of the
    [num_topics] clusters: the names of the [num_keywords] features (of
    all, when there are fewer) that the sentences of the cluster use most,
    the most used first.  A cluster without a sentence gets as many
    keywords as any other, all of count zero. *)
Theorem top_keywords_spec (s : TopicModelingBERT.self)
    (captions : list string) (labels : list nat) (num_keywords : nat)
    (X : list (list Z)) (feature_names : list string) :
  CountVectorizer "english" captions = Some (X, feature_names) ->
  length labels = length captions ->
  length X = length captions ->
  Forall (fun row => length row = length feature_names) X ->
  exists topic_keywords,
    TopicModelingBERT.get_top_keywords_for_topics CountVectorizer s captions
      labels num_keywords = Some topic_keywords
    /\ length topic_keywords = TopicModelingBERT.num_topics s
    /\ forall topic_num,
         topic_num < TopicModelingBERT.num_topics s ->
         exists idxs,
           nth_error topic_keywords topic_num
           = Some (map (term_at feature_names) idxs)
           /\ descending_top num_keywords (length feature_names)
                (term_count_in_cluster X labels topic_num) idxs
           /\ (TopicModelingBERT.where_eq labels topic_num = [] ->
               forall j, In j idxs ->
                 term_count_in_cluster X labels topic_num j = 0%Z).
Proof.
  intros HX Hlabels HlenX Hrows.
  eexists. split; [|split].
  - exact (top_keywords_closed_form s captions labels num_keywords X
             feature_names HX Hlabels HlenX Hrows).
  - now rewrite length_map, length_seq.
  - intros topic_num Hlt.
    exists (cluster_top_indices X (length feature_names) labels num_keywords
              topic_num).
    split; [|split].
    + match goal with
      | |- nth_error (map ?f _) _ = _ =>
          change (nth_error (map f (seq 0 (TopicModelingBERT.num_topics s)))
                    topic_num = Some (f topic_num))
      end.
      apply map_nth_error. rewrite nth_error_seq.
      destruct (Nat.ltb_spec topic_num (TopicModelingBERT.num_topics s));
        [reflexivity | lia].
    + apply cluster_top_indices_descending; [lia | exact Hrows].
    + intros Hempty j _.
      destruct (cluster_word_freq_spec X (length feature_names) labels
                  topic_num) as [_ Hn]; [lia | exact Hrows |].
      rewrite <- Hn. unfold cluster_word_freq. rewrite Hempty. simpl.
      unfold TopicModelingBERT.sum_axis0. simpl.
      destruct (Nat.lt_ge_cases j (length feature_names)) as [Hj | Hj].
      * now rewrite nth_repeat_lt.
      * rewrite nth_overflow; [reflexivity | now rewrite repeat_length].
Qed.
End ClusterKeywords.

Section BERTRun.
Context `{RT : Runtime}.
Variable sent_tokenize : string -> list string.
Variable embedding : Type.
Variable get_bert_embeddings : list string -> option (list embedding).
Variable KMeans : nat -> Z -> list embedding -> option (list nat).
Variable CountVectorizer :
  string -> list string -> option (list (list Z) * list string).

(** X11.  A run of the embedding modeler on a store with at least one
    sentence, where the libraries answer with a label below [num_topics]
    per sentence and a count matrix with a row per sentence and a column
    per feature name, returns and saves the store; no subscript of
    [get_top_keywords_for_topics] or [assign_topics] raises.  Every video
    with a sentence then has as its topic the five most used feature
    names (all of them when there are fewer) of the cluster of its last
    sentence, the most used first, joined by spaces. *)
Theorem bert_run_spec (s : TopicModelingBERT.self) (w : World)
    (embeddings : list embedding) (kmeans_labels : list nat)
    (X : list (list Z)) (feature_names : list string) :
  let captions_list :=
    fst (TopicModelingBERT.extract_captions sent_tokenize
           (TopicModelingBERT.data s)) in
  let video_id_map :=
    snd (TopicModelingBERT.extract_captions sent_tokenize
           (TopicModelingBERT.data s)) in
  store_wf (TopicModelingBERT.data s) ->
  captions_list <> [] ->
  get_bert_embeddings captions_list = Some embeddings ->
  KMeans (TopicModelingBERT.num_topics s) 42%Z embeddings
    = Some kmeans_labels ->
  length kmeans_labels = length captions_list ->
  Forall (fun label => label < TopicModelingBERT.num_topics s)
    kmeans_labels ->
  CountVectorizer "english" captions_list = Some (X, feature_names) ->
  length X = length captions_list ->
  Forall (fun row => length row = length feature_names) X ->
  exists data',
    TopicModelingBERT.run sent_tokenize get_bert_embeddings KMeans
      CountVectorizer s w
    = Returned data'
        (save_data TopicsSaved (TopicModelingBERT.json_file s) data' w)
    /\ forall k r,
         store_get (TopicModelingBERT.data s) k = Some r ->
         has_caption (k, r) = true ->
         sentences_of sent_tokenize (k, r) <> [] ->
         exists i label idxs,
           last_position video_id_map k i
           /\ nth_error captions_list i
              = Some (last (sentences_of sent_tokenize (k, r)) "")
           /\ nth_error kmeans_labels i = Some label
           /\ descending_top 5 (length feature_names)
                (term_count_in_cluster X kmeans_labels label) idxs
           /\ store_get data' k
              = Some (set_topic r
                        (join " " (map (term_at feature_names) idxs))).
Proof.
  intros captions_list video_id_map Hwf Hne He Hk Hlen Hlabels HX HlenX Hrows.
  pose proof (top_keywords_closed_form CountVectorizer s captions_list
                kmeans_labels 5 X feature_names HX Hlen HlenX Hrows) as Ekw.
  set (topic_keywords :=
         map (fun topic_num =>
                map (term_at feature_names)
                    (cluster_top_indices X (length feature_names)
                       kmeans_labels 5 topic_num))
             (seq 0 (TopicModelingBERT.num_topics s))) in *.
  assert (Hnkw : length topic_keywords = TopicModelingBERT.num_topics s).
  { unfold topic_keywords. now rewrite length_map, length_seq. }
  destruct (bert_assign_topics_Some sent_tokenize (TopicModelingBERT.data s)
              kmeans_labels topic_keywords Hwf Hlen) as [d' E].
  { now rewrite Hnkw. }
  exists d'. split.
  - unfold TopicModelingBERT.run, TopicModelingBERT.topic_modeling.
    subst captions_list video_id_map.
    destruct (TopicModelingBERT.extract_captions sent_tokenize
                (TopicModelingBERT.data s)) as [cl vmap]. simpl in *.
    destruct cl as [|c cl]; [congruence|].
    rewrite He. cbn [obind]. rewrite Hk. cbn [obind].
    rewrite Ekw, E. reflexivity.
  - intros k r Hget Hc Hs.
    destruct (bert_caption_position sent_tokenize (TopicModelingBERT.data s)
                k r Hwf Hget Hc Hs) as (i & Hlast & Hcap).
    pose proof E as E'.
    rewrite bert_assign_topics_fold in E'. unfold enumerate in E'.
    destruct (assign_fold_get _ _ _ _ _ E' k) as [_ Hb].
    destruct (Hb i Hlast) as (t & r0 & Et & Er0 & Eg). simpl in Et.
    rewrite Hget in Er0. injection Er0 as <-.
    unfold bert_topic_of, index in Et.
    destruct (nth_error kmeans_labels i) as [label|] eqn:El; simpl in Et;
      [|discriminate].
    assert (Hlt : label < TopicModelingBERT.num_topics s).
    { rewrite Forall_forall in Hlabels. apply Hlabels.
      now apply nth_error_In in El. }
    assert (Ekws : nth_error topic_keywords label
                   = Some (map (term_at feature_names)
                             (cluster_top_indices X (length feature_names)
                                kmeans_labels 5 label))).
    { unfold topic_keywords.
      match goal with
      | |- nth_error (map ?f _) _ = _ =>
          change (nth_error (map f (seq 0 (TopicModelingBERT.num_topics s)))
                    label = Some (f label))
      end.
      apply map_nth_error. rewrite nth_error_seq.
      destruct (Nat.ltb_spec label (TopicModelingBERT.num_topics s));
        [reflexivity | lia]. }
    rewrite Ekws in Et. simpl in Et. injection Et as <-.
    exists i, label,
      (cluster_top_indices X (length feature_names) kmeans_labels 5 label).
    split; [exact Hlast|]. split; [exact Hcap|]. split; [exact El|].
    split; [|exact Eg].
    apply cluster_top_indices_descending; [lia | exact Hrows].
Qed.
End BERTRun.

(* ===================================================================== *)
(** ** Ties in [argmax] *)
(* ===================================================================== *)

(** X12.  Where a row of [W] has its largest weight at more than one
    topic, [assign_topics] of the NMF modeler takes the first of them:
    every video that contributes a caption gets the keyword of a topic
    [b] whose weight in the video's row is strictly above the weights of
    all topics before [b], and not below the weight of any topic. *)
Theorem nmf_ties_go_to_first_topic (d : Store) (W : list (list weight))
    (topic_keywords : list string) :
  store_wf d ->
  length W = length (fst (TopicModeling.extract_captions d)) ->
  Forall (fun row => row <> [] /\ length row <= length topic_keywords) W ->
  exists d',
    TopicModeling.assign_topics d (snd (TopicModeling.extract_captions d))
      W topic_keywords = Some d'
    /\ forall k r,
         store_get d k = Some r -> has_caption (k, r) = true ->
         exists i row b keyword,
           last_position (snd (TopicModeling.extract_captions d)) k i
           /\ nth_error W i = Some row
           /\ is_argmax row b
           /\ (forall j, j < b -> (weight_at row j < weight_at row b)%Q)
           /\ nth_error topic_keywords b = Some keyword
           /\ store_get d' k = Some (set_topic r keyword).
Proof.
  intros Hwf HW Hrows.
  destruct (nmf_assign_topics_spec d W topic_keywords Hwf HW Hrows)
    as (d' & E & Hk).
  exists d'. split; [exact E|].
  intros k r Hget Hc.
  destruct (Hk k r Hget Hc) as (i & row & b & kw & H1 & _ & H3 & H4 & H5 & H6).
  exists i, row, b, kw.
  split; [exact H1|]. split; [exact H3|].
  pose proof (argmax_is_argmax row b H4) as Hmax.
  split; [exact Hmax|]. split; [|split; [exact H5 | exact H6]].
  intros j Hj. destruct Hmax as [Hb _].
  destruct (nth_error row b) as [vb|] eqn:Evb.
  2:{ apply nth_error_None in Evb. lia. }
  destruct (nth_error row j) as [x|] eqn:Ex.
  2:{ apply nth_error_None in Ex. lia. }
  pose proof (argmax_first weight_leb weight_leb_total weight_leb_trans
                row b vb H4 Evb j x Hj Ex) as Hlt.
  unfold weight_at.
  rewrite (nth_error_nth row b 0%Q Evb), (nth_error_nth row j 0%Q Ex).
  apply Qnot_le_lt. intros Hle. apply Qle_bool_iff in Hle.
  unfold weight_leb in Hlt. congruence.
Qed.

(* ===================================================================== *)
(** ** Running a modeler on its own result *)
(* ===================================================================== *)

Lemma map_eq_Forall2 {X Y} (f : X -> Y) (l l' : list X) :
  map f l' = map f l -> Forall2 (fun a b => f b = f a) l l'.
Proof.
  revert l'. induction l as [|a l IH]; intros [|b l'] E; simpl in E;
    try discriminate; constructor.
  - now injection E.
  - apply IH. now injection E.
Qed.

Lemma Forall2_In_both {X Y} (R : X -> Y -> Prop) (l : list X) (l' : list Y) :
  Forall2 R l l' -> Forall2 (fun a b => In a l /\ In b l' /\ R a b) l l'.
Proof.
  induction 1 as [|a b l l' HR HF IH]; constructor.
  - simpl. auto.
  - eapply Forall2_impl; [|exact IH].
    intros x y (Hx & Hy & Hxy). simpl. auto.
Qed.

(** After topics only were written, the stores list the same videos with
    the same captions. *)
Lemma only_topics_items (d d' : Store) :
  store_wf d -> store_wf d' -> store_keys d' = store_keys d ->
  only_topics_written d d' ->
  Forall2 (fun kr kr' => fst kr' = fst kr
                         /\ captions (snd kr') = captions (snd kr))
    (store_items d) (store_items d').
Proof.
  intros Hwf Hwf' Hkeys Honly.
  apply map_eq_Forall2 in Hkeys. apply Forall2_In_both in Hkeys.
  eapply Forall2_impl; [|exact Hkeys].
  intros [k r] [k' r'] (Hin & Hin' & E). simpl in E. subst k'.
  split; [reflexivity|]. simpl.
  apply store_In_get in Hin; [|exact Hwf].
  apply store_In_get in Hin'; [|exact Hwf'].
  specialize (Honly k). rewrite Hin, Hin' in Honly.
  now destruct Honly as [[Hc _] _].
Qed.

Lemma same_captions_filter (l l' : list (video_key * VideoRecord)) :
  Forall2 (fun kr kr' => fst kr' = fst kr
                         /\ captions (snd kr') = captions (snd kr)) l l' ->
  Forall2 (fun kr kr' => fst kr' = fst kr
                         /\ captions (snd kr') = captions (snd kr))
    (filter has_caption l) (filter has_caption l').
Proof.
  induction 1 as [|[k r] [k' r'] l l' [Hk Hc] HF IH]; simpl; [constructor|].
  simpl in Hk, Hc.
  assert (E : has_caption (k', r') = has_caption (k, r)).
  { unfold has_caption, get_captions. simpl. now rewrite Hc. }
  rewrite E.
  destruct (has_caption (k, r)); [constructor; auto | exact IH].
Qed.

Lemma same_captions_nmf (d d' : Store) :
  Forall2 (fun kr kr' => fst kr' = fst kr
                         /\ captions (snd kr') = captions (snd kr))
    (store_items d) (store_items d') ->
  TopicModeling.extract_captions d' = TopicModeling.extract_captions d.
Proof.
  intros HF. apply same_captions_filter in HF.
  rewrite !nmf_extract_captions_eq.
  revert HF.
  generalize (filter has_caption (store_items d)),
    (filter has_caption (store_items d')).
  intros l l'.
  induction 1 as [|[k r] [k' r'] l l' [Hk Hc] HF IH]; [reflexivity|].
  simpl in *. injection IH as IH1 IH2.
  rewrite IH1, IH2, Hk. unfold get_captions at 1 3. now rewrite Hc.
Qed.

Lemma same_captions_bert (sent_tokenize : string -> list string)
    (d d' : Store) :
  Forall2 (fun kr kr' => fst kr' = fst kr
                         /\ captions (snd kr') = captions (snd kr))
    (store_items d) (store_items d') ->
  TopicModelingBERT.extract_captions sent_tokenize d'
  = TopicModelingBERT.extract_captions sent_tokenize d.
Proof.
  intros HF. apply same_captions_filter in HF.
  rewrite !bert_extract_captions_eq.
  revert HF.
  generalize (filter has_caption (store_items d)),
    (filter has_caption (store_items d')).
  intros l l'.
  induction 1 as [|[k r] [k' r'] l l' [Hk Hc] HF IH]; [reflexivity|].
  simpl in *. injection IH as IH1 IH2.
  rewrite IH1, IH2.
  unfold owners_of, sentences_of, get_captions. simpl.
  now rewrite Hk, Hc.
Qed.

Lemma dict_set_same {V} (d : dict V) (k : string) (v : V) :
  dict_get d k = Some v -> dict_set d k v = d.
Proof.
  induction d as [|[k' v'] d IH]; simpl; [discriminate|].
  destruct (String.eqb_spec k k') as [-> | Hne]; intros E.
  - now injection E as ->.
  - now rewrite IH.
Qed.

Lemma store_update_same (d : Store) (k : video_key)
    (upd : VideoRecord -> VideoRecord) (r : VideoRecord) :
  store_get d k = Some r -> upd r = r -> store_update d k upd = Some d.
Proof.
  destruct k as [[a p] v]. unfold store_get, store_update. intros E Hupd.
  destruct (dict_get d a) as [pl|] eqn:Ea; simpl in *; [|discriminate].
  destruct (dict_get pl p) as [vs|] eqn:Ep; simpl in *; [|discriminate].
  rewrite E. simpl. rewrite Hupd.
  now rewrite (dict_set_same vs v r E), (dict_set_same pl p vs Ep),
    (dict_set_same d a pl Ea).
Qed.

Lemma assign_fold_same (topic_of : nat -> option string) (d : Store) :
  forall (l : list (nat * video_key)),
    (forall i k, In (i, k) l ->
       exists t r, topic_of i = Some t /\ store_get d k = Some r
                   /\ topic r = Some t) ->
    fold_left (assign_step topic_of) l (Some d) = Some d.
Proof.
  induction l as [|[i k] l IH]; intros Hl; [reflexivity|].
  cbn [fold_left].
  destruct (Hl i k (or_introl eq_refl)) as (t & r & Et & Er & Etr).
  replace (assign_step topic_of (Some d) (i, k)) with (Some d).
  - apply IH. intros i' k' Hin. apply Hl. now right.
  - unfold assign_step. cbn [obind fst snd]. rewrite Et. cbn [obind].
    symmetry. apply (store_update_same d k _ r Er).
    destruct r as [c cm tp]. unfold set_topic. simpl in *. now rewrite Etr.
Qed.

Section Rerun.
Context `{RT : Runtime}.
Variable TfidfVectorizer :
  string -> nat -> list string -> option (list (list weight) * list string).
Variable NMF :
  nat -> Z -> list (list weight)
  -> option (list (list weight) * list (list weight)).
Variable sent_tokenize : string -> list string.
Variable embedding : Type.
Variable get_bert_embeddings : list string -> option (list embedding).
Variable KMeans : nat -> Z -> list embedding -> option (list nat).
Variable CountVectorizer :
  string -> list string -> option (list (list Z) * list string).

(** X13.  The topics a modeler writes are not read by it: the store a run
    returns yields, to [extract_captions] of the same modeler, the very
    captions and video map that the store it started from yields. *)
Theorem rerun_sees_same_captions
    (s : TopicModeling.self) (sb : TopicModelingBERT.self) (w : World) :
  (store_wf (TopicModeling.data s) ->
   forall d' w',
     TopicModeling.run TfidfVectorizer NMF s w = Returned d' w' ->
     TopicModeling.extract_captions d'
     = TopicModeling.extract_captions (TopicModeling.data s))
  /\ (store_wf (TopicModelingBERT.data sb) ->
      forall d' w',
        TopicModelingBERT.run sent_tokenize get_bert_embeddings KMeans
          CountVectorizer sb w = Returned d' w' ->
        TopicModelingBERT.extract_captions sent_tokenize d'
        = TopicModelingBERT.extract_captions sent_tokenize
            (TopicModelingBERT.data sb)).
Proof.
  split; intros Hwf d' w' E.
  - apply nmf_run_inv in E as [(_ & -> & _) | (tk & W & _ & Ea & _)];
      [reflexivity|].
    rewrite nmf_assign_topics_fold in Ea.
    apply same_captions_nmf.
    destruct (assign_fold_keys _ _ _ _ Ea) as [Hkeys Hwf'].
    apply only_topics_items; auto.
    eapply assign_only_topics; [exact Ea|].
    intros k r. now apply nmf_not_in_map.
  - apply bert_run_inv in E as [(_ & -> & _) | (labels & tk & Ea & _)];
      [reflexivity|].
    rewrite bert_assign_topics_fold in Ea.
    apply same_captions_bert.
    destruct (assign_fold_keys _ _ _ _ Ea) as [Hkeys Hwf'].
    apply only_topics_items; auto.
    eapply assign_only_topics; [exact Ea|].
    intros k r. now apply bert_not_in_map.
Qed.

(** X14.  The NMF modeler is idempotent: run again on the store that a
    run returned, with the same libraries and number of topics, it
    returns that store unchanged, saving it again when the store has a
    caption and printing that there is none otherwise. *)
Theorem nmf_run_idempotent (s : TopicModeling.self) (w w2 : World)
    (d' : Store) (w' : World) :
  store_wf (TopicModeling.data s) ->
  TopicModeling.run TfidfVectorizer NMF s w = Returned d' w' ->
  let s' := {| TopicModeling.json_file := TopicModeling.json_file s;
               TopicModeling.num_topics := TopicModeling.num_topics s;
               TopicModeling.data := d' |} in
  TopicModeling.run TfidfVectorizer NMF s' w2
  = Returned d'
      (match fst (TopicModeling.extract_captions (TopicModeling.data s)) with
       | [] => print w2 NoCaptionsFound
       | _ => save_data TopicsSaved (TopicModeling.json_file s) d' w2
       end).
Proof.
  intros Hwf E s'.
  apply nmf_run_inv in E as [(Hnil & -> & _) | (tk & W & Etm & Ea & _)].
  - unfold TopicModeling.run. cbn [TopicModeling.data s'].
    destruct (TopicModeling.extract_captions (TopicModeling.data s))
      as [cl vmap]. simpl in Hnil. subst cl. reflexivity.
  - pose proof Ea as Ef. rewrite nmf_assign_topics_fold in Ef.
    assert (Hcap : TopicModeling.extract_captions d'
                   = TopicModeling.extract_captions (TopicModeling.data s)).
    { apply same_captions_nmf.
      destruct (assign_fold_keys _ _ _ _ Ef) as [Hkeys Hwf'].
      apply only_topics_items; auto.
      eapply assign_only_topics; [exact Ef|].
      intros k r. now apply nmf_not_in_map. }
    assert (Hnd : NoDup (snd (TopicModeling.extract_captions
                                (TopicModeling.data s)))).
    { rewrite nmf_extract_captions_eq. simpl.
      apply NoDup_map_filter, store_items_NoDup, Hwf. }
    assert (Ea' : TopicModeling.assign_topics d'
                    (snd (TopicModeling.extract_captions
                            (TopicModeling.data s))) W tk = Some d').
    { rewrite nmf_assign_topics_fold. apply assign_fold_same.
      intros i k Hin. apply enumerate_In in Hin.
      unfold enumerate in Ef.
      destruct (assign_fold_get _ _ _ _ _ Ef k) as [_ Hb].
      destruct (Hb i (NoDup_last_position _ k i Hnd Hin))
        as (t & r & Et & _ & Eg).
      exists t, (set_topic r t). simpl in Et. auto. }
    unfold TopicModeling.run. cbn [TopicModeling.data s']. rewrite Hcap.
    destruct (TopicModeling.extract_captions (TopicModeling.data s))
      as [cl vmap]. cbn [fst snd] in *.
    destruct cl as [|c cl]; [reflexivity|].
    change (TopicModeling.topic_modeling TfidfVectorizer NMF s' (c :: cl))
      with (TopicModeling.topic_modeling TfidfVectorizer NMF s (c :: cl)).
    rewrite Etm, Ea'. reflexivity.
Qed.
End Rerun.

(* ===================================================================== *)
(** ** The further properties at work *)
(* ===================================================================== *)

(** The NMF modeler on the store of the examples: the two authors, the
    three playlists and the four videos stay where they are. *)
Lemma modelers_keep_keys_witness :
  let s := {| TopicModeling.json_file := "data.json";
              TopicModeling.num_topics := 2;
              TopicModeling.data := example_store |} in
  exists d' w',
    TopicModeling.run example_TfidfVectorizer example_NMF s example_world
      = Returned d' w'
    /\ store_shape d'
       = [("ChannelA", [("PL1", ["vid1"; "vid2"]); ("PL2", ["vid3"])]);
          ("ChannelB", [("PL3", ["vid4"])])]
    /\ store_keys d'
       = [("ChannelA", "PL1", "vid1"); ("ChannelA", "PL1", "vid2");
          ("ChannelA", "PL2", "vid3"); ("ChannelB", "PL3", "vid4")]
    /\ store_wf d'.
Proof.
  intros s.
  destruct (TopicModeling.run example_TfidfVectorizer example_NMF s
              example_world) as [d' w' | w'] eqn:E.
  - exists d', w'. split; [reflexivity|].
    destruct (proj1 (@modelers_keep_keys example_runtime
                       example_TfidfVectorizer example_NMF
                       example_sent_tokenize nat
                       example_get_bert_embeddings example_KMeans
                       example_CountVectorizer s
                       {| TopicModelingBERT.json_file := "data.json";
                          TopicModelingBERT.num_topics := 2;
                          TopicModelingBERT.data := example_store |}
                       example_world) d' w' E) as (Hshape & Hkeys & Hwf).
    split; [rewrite Hshape; reflexivity|].
    split; [rewrite Hkeys; reflexivity | exact (Hwf example_store_wf)].
  - vm_compute in E. discriminate.
Defined.

(** The caption updater on the store of the examples, with a service that
    has no transcript for [vid2]: the topic of [vid3] and the comments of
    [vid2] are as before. *)
Lemma caption_run_frame_witness :
  let s := {| YouTubeCaptionUpdater.json_file := "data.json";
              YouTubeCaptionUpdater.data := example_store |} in
  exists d' w',
    YouTubeCaptionUpdater.run example_get_transcript s example_world
      = Returned d' w'
    /\ option_map topic (store_get d' ("ChannelA", "PL2", "vid3"))
       = Some (Some "old")
    /\ store_wf d'.
Proof.
  intros s.
  destruct (@caption_run_frame example_runtime example_get_transcript s
              example_world) as (d' & w' & E & _ & _ & Hwf).
  exists d', w'. split; [exact E|].
  split; [|exact (Hwf example_store_wf)].
  vm_compute in E. injection E as <- <-. reflexivity.
Defined.

(** The comment extractor on the store of the examples: one line per
    video, and a store with distinct keys. *)
Lemma extract_comments_frame_witness :
  exists d' w',
    YouTubeCommentExtractor.extract_comments example_execute 5 example_store
      example_world = YouTubeCommentExtractor.Done d' w'
    /\ store_wf d'
    /\ fs w' = fs example_world
    /\ length (stdout w') = 4.
Proof.
  destruct (@YouTubeCommentExtractor.extract_comments example_runtime
              example_execute 5 example_store example_world)
    as [d' w' | w' | ] eqn:E.
  - exists d', w'. split; [reflexivity|].
    destruct (@extract_comments_frame example_runtime example_execute 5
                example_store example_world d' w' E)
      as (_ & Hwf & Hfs & Hout).
    split; [exact (Hwf example_store_wf)|]. split; [exact Hfs|].
    rewrite Hout. reflexivity.
  - vm_compute in E. discriminate.
  - vm_compute in E. discriminate.
Defined.

(** A file system that keeps what is written and a codec that knows the
    store of the examples. *)
Lemma saved_store_is_loaded_witness :
  load_data "out.json"
    (save_data TopicsSaved "out.json" example_store example_world)
  = (example_store,
     {| fs := [("data.json", example_text); ("out.json", example_text)];
        net := 0; stdout := [TopicsSaved] |}).
Proof.
  apply (@saved_store_is_loaded example_runtime TopicsSaved "out.json"
           example_store example_world
           [("data.json", example_text); ("out.json", example_text)]);
    reflexivity.
Defined.

(** The modelers started on a path that does not exist, with a pretrained
    model that is in the cache. *)
Lemma modelers_on_unloadable_file_witness :
  (let (s, w1) := TopicModeling.init "missing.json" 5 example_world in
   TopicModeling.run example_TfidfVectorizer example_NMF s w1)
  = Returned []
      {| fs := [("data.json", example_text)]; net := 0;
         stdout := [LoadFailed "FileNotFoundError"; NoCaptionsFound] |}
  /\ @TopicModelingBERT.init example_runtime
       (fun fs n _ => (fs, n, None)) (fun fs n _ => (fs, n, None))
       "missing.json" 5 example_world
     = TopicModelingBERT.Constructed
         {| TopicModelingBERT.json_file := "missing.json";
            TopicModelingBERT.num_topics := 5;
            TopicModelingBERT.data := [] |}
         {| fs := [("data.json", example_text)]; net := 0;
            stdout := [LoadFailed "FileNotFoundError"] |}.
Proof.
  destruct (@modelers_on_unloadable_file example_runtime
              example_TfidfVectorizer example_NMF example_sent_tokenize nat
              example_get_bert_embeddings example_KMeans
              example_CountVectorizer
              (fun fs n _ => (fs, n, None)) (fun fs n _ => (fs, n, None))
              "missing.json" 5 example_world "FileNotFoundError")
    as (Hnmf & Hbert & _).
  - left. reflexivity.
  - split; [exact Hnmf|].
    exact (proj1 (Hbert _ _ _ _ eq_refl eq_refl)).
Defined.

(** The fetchers started on a path that does not exist: the file is
    created, with an empty store in it. *)
Lemma fetchers_on_unloadable_file_witness :
  (let (s, w1) := YouTubeCaptionUpdater.init "missing.json" example_world in
   YouTubeCaptionUpdater.run example_get_transcript s w1)
  = Returned []
      {| fs := [("data.json", example_text); ("missing.json", example_text)];
         net := 0;
         stdout := [LoadFailed "FileNotFoundError"; CaptionsSaved] |}.
Proof.
  apply (@fetchers_on_unloadable_file example_runtime example_get_transcript
           example_execute "key" "missing.json" 5 example_world
           "FileNotFoundError").
  left. reflexivity.
Defined.

(** A service that always hands out a token: no number of turns is
    enough. *)
Lemma pagination_without_end_witness :
  YouTubeCommentExtractor.get_comments_for_video endless_execute 1000
    "vid1" 0 = YouTubeCommentExtractor.OutOfFuel
  /\ YouTubeCommentExtractor.run endless_execute 1000
       {| YouTubeCommentExtractor.api_key := "key";
          YouTubeCommentExtractor.json_file := "data.json";
          YouTubeCommentExtractor.data := example_store |} example_world
     = None.
Proof.
  destruct (@pagination_without_end example_runtime endless_execute 1000
              {| YouTubeCommentExtractor.api_key := "key";
                 YouTubeCommentExtractor.json_file := "data.json";
                 YouTubeCommentExtractor.data := example_store |}
              example_world) as [Hloop Hrun].
  - intros n request. exists (S n). eexists. split; reflexivity.
  - split; [apply Hloop | apply Hrun; discriminate].
Defined.

(** The captions and the map of the store of the examples. *)
Lemma nmf_captions_and_map_witness :
  Forall2 (fun captions k =>
             exists r,
               store_get example_store k = Some r
               /\ captions = strip (get_captions r)
               /\ captions <> "")
          ["cats are great pets. dogs are loyal.";
           "loyal dogs. great cats. dogs are pets."]
          [("ChannelA", "PL1", "vid1"); ("ChannelA", "PL2", "vid3")]
  /\ NoDup (snd (TopicModeling.extract_captions example_store)).
Proof.
  exact (nmf_captions_and_map example_store example_store_wf).
Defined.

(** The video of three sentences is in the map three times, the video of
    white space not at all. *)
Lemma bert_rows_per_video_witness :
  occurrences ("ChannelA", "PL2", "vid3")
    (snd (TopicModelingBERT.extract_captions example_sent_tokenize
            example_store)) = 3
  /\ occurrences ("ChannelA", "PL1", "vid2")
       (snd (TopicModelingBERT.extract_captions example_sent_tokenize
               example_store)) = 0.
Proof.
  split.
  - exact (proj1 (bert_rows_per_video example_sent_tokenize example_store
                    ("ChannelA", "PL2", "vid3")
                    {| captions :=
                         Some "loyal dogs. great cats. dogs are pets.";
                       comments := None; topic := Some "old" |}
                    example_store_wf eq_refl)).
  - exact (proj1 (bert_rows_per_video example_sent_tokenize example_store
                    ("ChannelA", "PL1", "vid2")
                    {| captions := Some "   ";
                       comments :=
                         Some [{| Timestamp := "t0"; Comment := "hi" |}];
                       topic := None |}
                    example_store_wf eq_refl)).
Defined.

(** Three sentences over the terms cats, dogs and pets, the first and the
    last in cluster 0, the second in cluster 1 and none in cluster 2. *)
Lemma top_keywords_spec_witness :
  let CountVectorizer := fun (_ : string) (_ : list string) =>
    Some ([[2; 0; 1]; [0; 3; 0]; [1; 0; 0]]%Z, ["cats"; "dogs"; "pets"]) in
  TopicModelingBERT.get_top_keywords_for_topics CountVectorizer
    {| TopicModelingBERT.json_file := "data.json";
       TopicModelingBERT.num_topics := 3;
       TopicModelingBERT.data := [] |}
    ["cats. pets, cats"; "dogs dogs dogs"; "cats"] [0; 1; 0] 2
  = Some [["cats"; "pets"]; ["dogs"; "pets"]; ["pets"; "dogs"]].
Proof.
  intros CountVectorizer.
  destruct (top_keywords_spec CountVectorizer
              {| TopicModelingBERT.json_file := "data.json";
                 TopicModelingBERT.num_topics := 3;
                 TopicModelingBERT.data := [] |}
              ["cats. pets, cats"; "dogs dogs dogs"; "cats"] [0; 1; 0] 2
              [[2; 0; 1]; [0; 3; 0]; [1; 0; 0]]%Z ["cats"; "dogs"; "pets"]
              eq_refl eq_refl eq_refl)
    as (topic_keywords & E & _).
  - repeat constructor.
  - rewrite E. vm_compute in E. injection E as <-. reflexivity.
Defined.

(** The embedding modeler on the store of the examples, with two
    clusters. *)
Lemma bert_run_spec_witness :
  let s := {| TopicModelingBERT.json_file := "data.json";
              TopicModelingBERT.num_topics := 2;
              TopicModelingBERT.data := example_store |} in
  exists data' w',
    TopicModelingBERT.run example_sent_tokenize example_get_bert_embeddings
      example_KMeans example_CountVectorizer s example_world
    = Returned data' w'
    /\ option_map topic (store_get data' ("ChannelA", "PL2", "vid3"))
       = Some (Some "pets loyal great dogs cats").
Proof.
  intros s.
  destruct (@bert_run_spec example_runtime example_sent_tokenize nat
              example_get_bert_embeddings example_KMeans
              example_CountVectorizer s example_world
              [20; 15; 11; 11; 14] [0; 1; 1; 1; 0]
              (repeat [1; 1; 1; 1; 1]%Z 5) example_terms
              example_store_wf)
    as (data' & E & _).
  - vm_compute. discriminate.
  - reflexivity.
  - reflexivity.
  - reflexivity.
  - repeat constructor.
  - reflexivity.
  - reflexivity.
  - repeat constructor.
  - exists data'. eexists. split; [exact E|].
    vm_compute in E. injection E as <-. reflexivity.
Defined.

(** A row that weighs both topics the same: the video gets the first. *)
Lemma nmf_ties_go_to_first_topic_witness :
  exists d',
    TopicModeling.assign_topics one_video_store
      (snd (TopicModeling.extract_captions one_video_store))
      [[1; 1]]%Q ["first"; "second"] = Some d'
    /\ option_map topic (store_get d' ("ChannelA", "PL1", "vid1"))
       = Some (Some "first").
Proof.
  destruct (nmf_ties_go_to_first_topic one_video_store [[1; 1]]%Q
              ["first"; "second"] one_video_store_wf eq_refl)
    as (d' & E & _).
  - repeat constructor. discriminate.
  - exists d'. split; [exact E|].
    vm_compute in E. injection E as <-. reflexivity.
Defined.

(** The captions of the store of the examples after a run of the NMF
    modeler. *)
Lemma rerun_sees_same_captions_witness :
  let s := {| TopicModeling.json_file := "data.json";
              TopicModeling.num_topics := 2;
              TopicModeling.data := example_store |} in
  exists d' w',
    TopicModeling.run example_TfidfVectorizer example_NMF s example_world
      = Returned d' w'
    /\ TopicModeling.extract_captions d'
       = (["cats are great pets. dogs are loyal.";
           "loyal dogs. great cats. dogs are pets."],
          [("ChannelA", "PL1", "vid1"); ("ChannelA", "PL2", "vid3")]).
Proof.
  intros s.
  destruct (TopicModeling.run example_TfidfVectorizer example_NMF s
              example_world) as [d' w' | w'] eqn:E.
  - exists d', w'. split; [reflexivity|].
    rewrite (proj1 (@rerun_sees_same_captions example_runtime
                      example_TfidfVectorizer example_NMF
                      example_sent_tokenize nat
                      example_get_bert_embeddings example_KMeans
                      example_CountVectorizer s
                      {| TopicModelingBERT.json_file := "data.json";
                         TopicModelingBERT.num_topics := 2;
                         TopicModelingBERT.data := example_store |}
                      example_world)
               example_store_wf d' w' E).
    reflexivity.
  - vm_compute in E. discriminate.
Defined.

(** The NMF modeler run twice on the store of the examples. *)
Lemma nmf_run_idempotent_witness :
  let s := {| TopicModeling.json_file := "data.json";
              TopicModeling.num_topics := 2;
              TopicModeling.data := example_store |} in
  exists d' w',
    TopicModeling.run example_TfidfVectorizer example_NMF s example_world
      = Returned d' w'
    /\ TopicModeling.run example_TfidfVectorizer example_NMF
         {| TopicModeling.json_file := "data.json";
            TopicModeling.num_topics := 2;
            TopicModeling.data := d' |} w'
       = Returned d'
           {| fs := [("data.json", example_text)]; net := 0;
              stdout := [TopicsSaved; TopicsSaved] |}.
Proof.
  intros s.
  destruct (TopicModeling.run example_TfidfVectorizer example_NMF s
              example_world) as [d' w' | w'] eqn:E.
  - exists d', w'. split; [reflexivity|].
    etransitivity;
      [exact (@nmf_run_idempotent example_runtime example_TfidfVectorizer
                example_NMF s example_world w' d' w' example_store_wf E)|].
    vm_compute in E. injection E as <- <-. reflexivity.
  - vm_compute in E. discriminate.
Defined.
